(** * ieee754-viewer: input classifier and IEEE-754 bit-field extractor

    A shallow embedding of
      - src/domain/parseFloatingInput.ts     (module [Parse])
      - src/infrastructure/ieee754.ts        (module [Ieee754])
      - src/application/ieee754Usecase.ts    (module [Usecase])
      - the guards and the escaping of the webview script in
        src/extension.ts                     (module [Webview])
    together with the ECMAScript built-ins these files call (module
    [JS]) and the regular expressions they test (module [Regex]).
    Modules [Notions], [Render] and [Words] hold the vocabulary of the
    statements; the sections after them hold the proofs.

    Conventions.
      - A JavaScript string is a [string]; an [ascii] stands for a UTF-16
        code unit below 256 (the Latin-1 range).
      - A JavaScript number used as an IEEE value is a [spec_float]
        (binary64 when [valid_binary 53 1024] holds); a number used as a
        32-bit integer is a [Z].
      - [T | null] is [option T].
      - [Number(s)] is the correctly rounded (ties-to-even) conversion of
        StringToNumber; [DataView] writes NaN as the quiet NaN with an
        empty payload. *)

From Stdlib Require Import ZArith List String Ascii Bool Lia PeanoNat.
From Stdlib Require Import Floats.SpecFloat.
Import ListNotations.

Local Open Scope string_scope.

(* ================================================================== *)
(** * Regular expressions                                              *)
(* ================================================================== *)

Module Regex.

(** Anchored regular expressions ([/^...$/] without flags) over
    character classes.  [r.test(s)] for such an expression is language
    membership, decided here with Brzozowski derivatives. *)
Inductive re : Type :=
| Void : re
| Eps : re
| Chr (p : ascii -> bool) : re
| Cat (r1 r2 : re) : re
| Alt (r1 r2 : re) : re
| Star (r : re) : re.

Definition Plus (r : re) : re := Cat r (Star r).
Definition Opt (r : re) : re := Alt r Eps.

Fixpoint nullable (r : re) : bool :=
  match r with
  | Void => false
  | Eps => true
  | Chr _ => false
  | Cat r1 r2 => nullable r1 && nullable r2
  | Alt r1 r2 => nullable r1 || nullable r2
  | Star _ => true
  end.

Fixpoint deriv (c : ascii) (r : re) : re :=
  match r with
  | Void => Void
  | Eps => Void
  | Chr p => if p c then Eps else Void
  | Cat r1 r2 =>
      if nullable r1
      then Alt (Cat (deriv c r1) r2) (deriv c r2)
      else Cat (deriv c r1) r2
  | Alt r1 r2 => Alt (deriv c r1) (deriv c r2)
  | Star r1 => Cat (deriv c r1) (Star r1)
  end.

Fixpoint test (r : re) (s : string) : bool :=
  match s with
  | EmptyString => nullable r
  | String c s' => test (deriv c r) s'
  end.

(** The language of an expression, as a relation. *)
Inductive Match : re -> string -> Prop :=
| MEps : Match Eps ""
| MChr p c : p c = true -> Match (Chr p) (String c "")
| MCat r1 r2 s1 s2 : Match r1 s1 -> Match r2 s2 -> Match (Cat r1 r2) (s1 ++ s2)
| MAltL r1 r2 s : Match r1 s -> Match (Alt r1 r2) s
| MAltR r1 r2 s : Match r2 s -> Match (Alt r1 r2) s
| MStar0 r : Match (Star r) ""
| MStarS r s1 s2 : Match r s1 -> Match (Star r) s2 -> Match (Star r) (s1 ++ s2).

(** Characters that some class of the expression accepts. *)
Fixpoint occurs (r : re) (c : ascii) : bool :=
  match r with
  | Void | Eps => false
  | Chr p => p c
  | Cat r1 r2 | Alt r1 r2 => occurs r1 c || occurs r2 c
  | Star r1 => occurs r1 c
  end.

End Regex.

(* ================================================================== *)
(** * ECMAScript built-ins used by the two source files               *)
(* ================================================================== *)

Module JS.

(** ** Code units *)

Definition code (c : ascii) : N := N_of_ascii c.

Definition inRange (lo hi : N) (c : ascii) : bool :=
  (lo <=? code c)%N && (code c <=? hi)%N.

(** [\d] *)
Definition isDigit (c : ascii) : bool := inRange 48 57 c.
(** [[A-Za-z]] *)
Definition isAlpha (c : ascii) : bool := inRange 65 90 c || inRange 97 122 c.
(** [[+-]] *)
Definition isSignChar (c : ascii) : bool := ((code c =? 43) || (code c =? 45))%N.
(** [[eE]] *)
Definition isExpChar (c : ascii) : bool := ((code c =? 101) || (code c =? 69))%N.
(** [\.] *)
Definition isDotChar (c : ascii) : bool := (code c =? 46)%N.
(** LineTerminator below 256: LF, CR. *)
Definition isLineTerminator (c : ascii) : bool := ((code c =? 10) || (code c =? 13))%N.
(** [.] without the [s] flag: anything but a line terminator. *)
Definition isAnyChar (c : ascii) : bool := negb (isLineTerminator c).
(** WhiteSpace and LineTerminator below 256: TAB, LF, VT, FF, CR, SP, NBSP. *)
Definition isWhiteSpace (c : ascii) : bool :=
  (inRange 9 13 c || (code c =? 32) || (code c =? 160))%N.

(** ** String.prototype *)

(** [s.length] *)
Definition length (s : string) : nat := String.length s.

(** [s.slice(i, j)] for non-negative [i], [j]. *)
Definition slice (s : string) (i j : nat) : string := substring i (j - i) s.

(** [s.slice(i)] for non-negative [i]. *)
Definition sliceFrom (s : string) (i : nat) : string :=
  substring i (String.length s - i) s.

(** [s.startsWith(p)] *)
Definition startsWith (s p : string) : bool := prefix p s.

(** [c.repeat(n)] for a one-character string. *)
Fixpoint repeat (c : ascii) (n : nat) : string :=
  match n with
  | O => ""
  | S n' => String c (repeat c n')
  end.

(** [s.padStart(n, "0")] and the like, for a one-character filler. *)
Definition padStart (s : string) (n : nat) (c : ascii) : string :=
  repeat c (n - String.length s) ++ s.

(** [out.join(sep)] *)
Fixpoint join (sep : string) (out : list string) : string :=
  match out with
  | [] => ""
  | [x] => x
  | x :: rest => x ++ sep ++ join sep rest
  end.

Fixpoint trimStart (s : string) : string :=
  match s with
  | String c s' => if isWhiteSpace c then trimStart s' else s
  | EmptyString => ""
  end.

Fixpoint trimEnd (s : string) : string :=
  match s with
  | String c s' =>
      match trimEnd s' with
      | EmptyString => if isWhiteSpace c then "" else String c ""
      | r => String c r
      end
  | EmptyString => ""
  end.

(** [s.trim()] *)
Definition trim (s : string) : string := trimEnd (trimStart s).

(** Lower-casing of one code unit below 256: A-Z and the Latin-1
    capitals U+00C0..U+00DE (U+00D7, the multiplication sign, apart). *)
Definition toLowerChar (c : ascii) : ascii :=
  if inRange 65 90 c || (inRange 192 222 c && negb (code c =? 215)%N)
  then ascii_of_N (code c + 32)
  else c.

(** [s.toLowerCase()] *)
Fixpoint toLowerCase (s : string) : string :=
  match s with
  | String c s' => String (toLowerChar c) (toLowerCase s')
  | EmptyString => ""
  end.

(** ** Counted loops

    [for (let i = i0; i < bound; i += step) acc = body(i, acc)].
    The loop leaves by its test; [fuel] bounds the number of turns and
    [forLoop_fuel] shows that [bound - i0] turns are enough once
    [step] is positive. *)
Fixpoint forLoop {A : Type} (fuel i bound step : nat)
         (body : nat -> A -> A) (acc : A) : A :=
  match fuel with
  | O => acc
  | S fuel' =>
      if (i <? bound)%nat
      then forLoop fuel' (i + step) bound step body (body i acc)
      else acc
  end.

(** ** Integers held in a number *)

Local Open Scope Z_scope.

(** ToUint32 and ToInt32 of an integer. *)
Definition toUint32 (z : Z) : Z := z mod 2 ^ 32.
Definition toInt32 (z : Z) : Z :=
  let u := z mod 2 ^ 32 in if u <? 2 ^ 31 then u else u - 2 ^ 32.

(** [a >>> b] *)
Definition ushr (a b : Z) : Z := Z.shiftr (toUint32 a) (Z.land b 31).

(** [a & b] *)
Definition band (a b : Z) : Z := Z.land (toInt32 a) (toInt32 b).

(** The digit characters of [Number.prototype.toString(radix)]. *)
Definition digitChar (d : Z) : ascii :=
  if d <? 10 then ascii_of_N (Z.to_N (48 + d)) else ascii_of_N (Z.to_N (87 + d)).

Fixpoint toDigits (fuel : nat) (radix n : Z) (acc : string) : string :=
  match fuel with
  | O => acc
  | S fuel' =>
      let acc' := String (digitChar (n mod radix)) acc in
      let q := n / radix in
      if q =? 0 then acc' else toDigits fuel' radix q acc'
  end.

(** Digits of a non-negative integer; [Z.log2 n + 1] turns reach the
    last digit for every radix from 2 on (lemma [toDigits_fixed]). *)
Definition digitsOf (radix n : Z) : string :=
  toDigits (S (Z.to_nat (Z.log2 n))) radix n "".

(** [x.toString(radix)] for an integer-valued number or NaN ([None]). *)
Definition Number_toString (x : option Z) (radix : Z) : string :=
  match x with
  | None => "NaN"
  | Some n => if n <? 0 then "-" ++ digitsOf radix (- n) else digitsOf radix n
  end.

Definition digitValue (c : ascii) : Z := Z.of_N (code c) - 48.

Fixpoint digitsValueFrom (radix acc : Z) (s : string) : Z :=
  match s with
  | String c s' => digitsValueFrom radix (acc * radix + digitValue c) s'
  | EmptyString => acc
  end.

(** Longest prefix of characters satisfying [p], and the rest. *)
Fixpoint span (p : ascii -> bool) (s : string) : string * string :=
  match s with
  | String c s' =>
      if p c then let (d, r) := span p s' in (String c d, r) else ("", s)
  | EmptyString => ("", "")
  end.

(** An optional sign: [true] for "-". *)
Definition parseSign (s : string) : bool * string :=
  match s with
  | String c r =>
      if (code c =? 45)%N then (true, r)
      else if (code c =? 43)%N then (false, r)
      else (false, s)
  | EmptyString => (false, s)
  end.

(** [parseInt(s, 2)]: leading white space, a sign, then the longest
    run of binary digits; NaN ([None]) when that run is empty. *)
Definition parseInt2 (s : string) : option Z :=
  let (neg, r) := parseSign (trimStart s) in
  let (ds, _) := span (inRange 48 49) r in
  match ds with
  | EmptyString => None
  | _ => let v := digitsValueFrom 2 0 ds in Some (if neg then - v else v)
  end.

(** ** IEEE-754 values *)

Definition number : Type := spec_float.

Definition NaN : number := S754_nan.
Definition Infinity : number := S754_infinity false.
Definition negInfinity : number := S754_infinity true.

(** [Number.isNaN(v)], [Number.isFinite(v)] *)
Definition isNaN (v : number) : bool :=
  match v with S754_nan => true | _ => false end.
Definition isFinite (v : number) : bool :=
  match v with S754_nan | S754_infinity _ => false | _ => true end.

(** The number nearest to [m * 10^e] (ties to even), signed by [neg];
    [m] is a non-negative integer.  The quotient of the two integers
    [m * 10^max(e,0)] and [10^max(-e,0)] is rounded once. *)
Definition roundDecimal (neg : bool) (m e : Z) : number :=
  if m <=? 0 then S754_zero neg
  else SFdiv 53 1024
         (S754_finite neg (Z.to_pos (m * 10 ^ Z.max e 0)) 0)
         (S754_finite false (Z.to_pos (10 ^ Z.max (- e) 0)) 0).

(** ExponentPart(opt) up to the end of the input. *)
Definition parseExponent (s : string) : option Z :=
  match s with
  | EmptyString => Some 0
  | String c r =>
      if isExpChar c then
        let (neg, r1) := parseSign r in
        let (ds, r2) := span isDigit r1 in
        match ds, r2 with
        | String _ _, EmptyString =>
            let v := digitsValueFrom 10 0 ds in Some (if neg then - v else v)
        | _, _ => None
        end
      else None
  end.

(** StrUnsignedDecimalLiteral apart from [Infinity]: digits, an
    optional fraction, an optional exponent.  The result [(m, e)]
    stands for [m * 10^e]. *)
Definition parseUnsignedDecimal (s : string) : option (Z * Z) :=
  let (ip, r1) := span isDigit s in
  match r1 with
  | String c r2 =>
      if isDotChar c then
        let (fp, r3) := span isDigit r2 in
        match ip ++ fp with
        | EmptyString => None
        | ds =>
            match parseExponent r3 with
            | Some e => Some (digitsValueFrom 10 0 ds, e - Z.of_nat (String.length fp))
            | None => None
            end
        end
      else
        match ip with
        | EmptyString => None
        | ds =>
            match parseExponent r1 with
            | Some e => Some (digitsValueFrom 10 0 ds, e)
            | None => None
            end
        end
  | EmptyString =>
      match ip with
      | EmptyString => None
      | ds => Some (digitsValueFrom 10 0 ds, 0)
      end
  end.

Definition hexDigitValue (c : ascii) : Z :=
  if isDigit c then digitValue c
  else if inRange 97 102 c then Z.of_N (code c) - 87
  else Z.of_N (code c) - 55.

Fixpoint hexValueFrom (radix acc : Z) (s : string) : Z :=
  match s with
  | String c s' => hexValueFrom radix (acc * radix + hexDigitValue c) s'
  | EmptyString => acc
  end.

Definition isRadixDigit (radix : Z) (c : ascii) : bool :=
  (isDigit c || inRange 97 102 c || inRange 65 70 c)
  && (hexDigitValue c <? radix).

Fixpoint allChars (p : ascii -> bool) (s : string) : bool :=
  match s with
  | String c s' => p c && allChars p s'
  | EmptyString => true
  end.

(** NonDecimalIntegerLiteral: [0x], [0o], [0b] and their capitals. *)
Definition parseNonDecimal (s : string) : option Z :=
  match s with
  | String z (String x ds) =>
      let radix :=
        if ((code x =? 120) || (code x =? 88))%N then 16
        else if ((code x =? 111) || (code x =? 79))%N then 8
        else if ((code x =? 98) || (code x =? 66))%N then 2
        else 0 in
      if (code z =? 48)%N && (0 <? radix) && negb (ds =? "")%string
         && allChars (isRadixDigit radix) ds
      then Some (hexValueFrom radix 0 ds)
      else None
  | _ => None
  end.

(** [Number(s)] for a string (StringToNumber): white space trimmed,
    the empty string is +0, then a StrDecimalLiteral or a
    NonDecimalIntegerLiteral, and NaN for anything else. *)
Definition Number (s : string) : number :=
  let t := trim s in
  match t with
  | EmptyString => S754_zero false
  | _ =>
      let (neg, u) := parseSign t in
      if (u =? "Infinity")%string then S754_infinity neg
      else
        match parseUnsignedDecimal u with
        | Some (m, e) => roundDecimal neg m e
        | None =>
            match parseNonDecimal t with
            | Some n => roundDecimal false n 0
            | None => NaN
            end
        end
  end.

(** ** Binary interchange formats *)

Definition joinBits (mw ew : Z) (s : bool) (e m : Z) : Z :=
  (if s then 2 ^ (mw + ew) else 0) + e * 2 ^ mw + m.

(** The bit pattern of a value in the format with [mw] mantissa bits
    and [ew] exponent bits; NaN is written as the quiet NaN with an
    empty payload. *)
Definition encode (mw ew : Z) (v : number) : Z :=
  match v with
  | S754_zero s => joinBits mw ew s 0 0
  | S754_infinity s => joinBits mw ew s (2 ^ ew - 1) 0
  | S754_nan => joinBits mw ew false (2 ^ ew - 1) (2 ^ (mw - 1))
  | S754_finite s m e =>
      if 2 ^ mw <=? Zpos m
      then joinBits mw ew s (e + 2 ^ (ew - 1) + mw - 1) (Zpos m - 2 ^ mw)
      else joinBits mw ew s 0 (Zpos m)
  end.

Definition encode64 (v : number) : Z := encode 52 11 v.
Definition encode32 (v : number) : Z := encode 23 8 v.

(** Narrowing of a binary64 value to binary32, ties to even. *)
Definition toFloat32 (v : number) : number :=
  match v with
  | S754_finite s m e => binary_round 24 128 s m e
  | _ => v
  end.

(** ** ArrayBuffer and DataView *)

Definition buffer : Type := list Z.

(** [new ArrayBuffer(n)] *)
Definition ArrayBuffer (n : nat) : buffer := List.repeat 0 n.

Definition byteOf (p : Z) (i : nat) : Z := (p / 2 ^ (8 * Z.of_nat i)) mod 256.

Definition bytesLE (n : nat) (p : Z) : list Z := map (byteOf p) (seq 0%nat n).

Definition ofBytesLE (bs : list Z) : Z :=
  fold_right (fun b acc => b + 256 * acc) 0 bs.

Definition writeBytes (buf : buffer) (off : nat) (bs : list Z) : buffer :=
  (firstn off buf ++ bs ++ skipn (off + List.length bs) buf)%list.

Definition ordered (littleEndian : bool) (bs : list Z) : list Z :=
  if littleEndian then bs else rev bs.

(** [view.setFloat64(off, v, littleEndian)] *)
Definition setFloat64 (buf : buffer) (off : nat) (v : number) (littleEndian : bool) : buffer :=
  writeBytes buf off (ordered littleEndian (bytesLE 8 (encode64 v))).

(** [view.setFloat32(off, v, littleEndian)] *)
Definition setFloat32 (buf : buffer) (off : nat) (v : number) (littleEndian : bool) : buffer :=
  writeBytes buf off (ordered littleEndian (bytesLE 4 (encode32 (toFloat32 v)))).

(** [view.getUint32(off, littleEndian)] *)
Definition getUint32 (buf : buffer) (off : nat) (littleEndian : bool) : Z :=
  ofBytesLE (ordered littleEndian (firstn 4 (skipn off buf))).

End JS.

(* ================================================================== *)
(** * src/domain/parseFloatingInput.ts                                 *)
(* ================================================================== *)

Module Parse.

Import Regex.

Inductive ParseResult : Type :=
| Valid (value : JS.number) (normalizedText : string)
| Incomplete (reason : string) (normalizedText : string)
| Invalid (reason : string) (normalizedText : string).

(** [r.kind] *)
Definition kindOf (r : ParseResult) : string :=
  match r with
  | Valid _ _ => "Valid"
  | Incomplete _ _ => "Incomplete"
  | Invalid _ _ => "Invalid"
  end.

(** [ParseOptions]: every property may be left out.  A property
    given as [undefined] is falsy in each test below and behaves as
    [Some false]. *)
Record ParseOptions : Type := mkParseOptions {
  optAllowLeadingPlus : option bool;
  optAllowInfinitySynonyms : option bool;
  optAllowNaN : option bool;
  optCaseInsensitiveSpecials : option bool
}.

(** [Required<ParseOptions>] *)
Record RequiredOptions : Type := mkRequiredOptions {
  allowLeadingPlus : bool;
  allowInfinitySynonyms : bool;
  allowNaN : bool;
  caseInsensitiveSpecials : bool
}.

Definition defaultOptions : RequiredOptions :=
  {| allowLeadingPlus := true;
     allowInfinitySynonyms := true;
     allowNaN := true;
     caseInsensitiveSpecials := true |}.

(** [opts = {}] *)
Definition noOptions : ParseOptions :=
  mkParseOptions None None None None.

Definition override (d : bool) (x : option bool) : bool :=
  match x with Some b => b | None => d end.

(** [{ ...d, ...opts }] *)
Definition spread (d : RequiredOptions) (opts : ParseOptions) : RequiredOptions :=
  {| allowLeadingPlus := override (allowLeadingPlus d) (optAllowLeadingPlus opts);
     allowInfinitySynonyms := override (allowInfinitySynonyms d) (optAllowInfinitySynonyms opts);
     allowNaN := override (allowNaN d) (optAllowNaN opts);
     caseInsensitiveSpecials := override (caseInsensitiveSpecials d) (optCaseInsensitiveSpecials opts) |}.

(** ** The regular expressions of the file *)

Definition digit : re := Chr JS.isDigit.
Definition sign : re := Chr JS.isSignChar.
Definition dot : re := Chr JS.isDotChar.
Definition expMarker : re := Chr JS.isExpChar.

(** The group  ( \d+ ( \. \d* )? | \. \d+ )  shared by the three
    numeric expressions (written here with spaces between the tokens). *)
Definition mantissa : re :=
  Alt (Cat (Plus digit) (Opt (Cat dot (Star digit)))) (Cat dot (Plus digit)).

(** /^ ( [+-] )? ( .* ) $/ *)
Definition reSignBody : re := Cat (Opt sign) (Star (Chr JS.isAnyChar)).
(** /^ [A-Za-z]+ $/ *)
Definition reAlpha : re := Plus (Chr JS.isAlpha).
(** /^ [+-]? ( \d+ ( \. \d* )? | \. \d+ ) [eE] $/ *)
Definition reExponentMarker : re := Cat (Opt sign) (Cat mantissa expMarker).
(** /^ [+-]? ( \d+ ( \. \d* )? | \. \d+ ) [eE] [+-] $/ *)
Definition reExponentSign : re := Cat (Opt sign) (Cat mantissa (Cat expMarker sign)).
(** /^ [+-]? ( \d+ ( \. \d* )? | \. \d+ ) ( [eE] [+-]? \d+ )? $/ *)
Definition reDecimal : re :=
  Cat (Opt sign) (Cat mantissa (Opt (Cat expMarker (Cat (Opt sign) (Plus digit))))).

(** ** helpers *)

Definition normalizeNumericText (text : string) (o : RequiredOptions) : string :=
  if allowLeadingPlus o && JS.startsWith text "+" then JS.sliceFrom text 1
  else text.

Definition isAlphaOnly (s : string) : bool := test reAlpha s.

(** [text.match] on the sign-and-body expression, as the pair of
    m[1] (the empty string when undefined) and m[2].  The
    first group is greedy: whenever the expression matches a text
    that starts with a sign, the rest of that text is free of line
    terminators too, so the sign goes to group 1. *)
Definition matchSignBody (text : string) : option (string * string) :=
  if test reSignBody text then
    match text with
    | String c rest =>
        if JS.isSignChar c then Some (String c "", rest) else Some ("", text)
    | EmptyString => Some ("", "")
    end
  else None.

(** [a || b] on strings *)
Definition strOr (a b : string) : string := if (a =? "")%string then b else a.

Definition parseSpecial (text : string) (o : RequiredOptions) : option ParseResult :=
  match matchSignBody text with
  | None => None
  | Some (sign, body) =>
      let cmp := if caseInsensitiveSpecials o then JS.toLowerCase body else body in
      let nanResult :=
        if allowNaN o then
          if (cmp =? (if caseInsensitiveSpecials o then "nan" else "NaN"))%string then
            Some (Valid JS.NaN (sign ++ "NaN"))
          else if caseInsensitiveSpecials o then
            if JS.startsWith "nan" cmp && (JS.length cmp <? 3)%nat && isAlphaOnly body
            then Some (Incomplete "incomplete NaN token" text)
            else None
          else None
        else None in
      match nanResult with
      | Some r => Some r
      | None =>
          if allowInfinitySynonyms o then
            let infTokens :=
              if caseInsensitiveSpecials o then ["inf"; "infinity"] else ["Inf"; "Infinity"] in
            let isFull := existsb (fun t => (cmp =? t)%string) infTokens in
            if isFull then
              let v := if (sign =? "-")%string then JS.negInfinity else JS.Infinity in
              Some (Valid v (strOr sign "" ++ "Infinity"))
            else if caseInsensitiveSpecials o && isAlphaOnly body then
              let target := "infinity" in
              if JS.startsWith target cmp && (JS.length cmp <? JS.length target)%nat then
                Some (Incomplete "incomplete Infinity token" text)
              else if JS.startsWith "inf" cmp && (JS.length cmp <? 3)%nat then
                Some (Incomplete "incomplete Inf token" text)
              else None
            else None
          else None
      end
  end.

Definition isIncompleteNumberToken (text : string) (o : RequiredOptions) : option string :=
  if (text =? "-")%string || (allowLeadingPlus o && (text =? "+")%string) then
    Some "sign only"
  else if (text =? ".")%string || (text =? "-.")%string
          || (allowLeadingPlus o && (text =? "+.")%string) then
    Some "dot only"
  else if test reExponentMarker text then Some "exponent marker only"
  else if test reExponentSign text then Some "exponent sign only"
  else None.

Definition isValidDecimalNumberSyntax (text : string) (o : RequiredOptions) : bool :=
  if negb (allowLeadingPlus o) && JS.startsWith text "+" then false
  else test reDecimal text.

(** ** ParseFloatingInput *)

Definition ParseFloatingInput (input : string) (opts : ParseOptions) : ParseResult :=
  let o := spread defaultOptions opts in
  let raw := input in
  let text := JS.trim raw in
  if (JS.length text =? 0)%nat then Incomplete "empty" ""
  else if negb (allowLeadingPlus o) && JS.startsWith text "+" then
    Invalid "leading plus is not allowed" text
  else
    match parseSpecial text o with
    | Some special => special
    | None =>
        match isIncompleteNumberToken text o with
        | Some incomplete => Incomplete incomplete text
        | None =>
            if negb (isValidDecimalNumberSyntax text o) then
              Invalid "invalid numeric syntax" text
            else
              let value := JS.Number text in
              if JS.isNaN value then Invalid "parsed to NaN" text
              else if negb (allowInfinitySynonyms o) && negb (JS.isFinite value) then
                Invalid "infinity is not allowed" text
              else Valid value (normalizeNumericText text o)
        end
    end.

End Parse.

(* ================================================================== *)
(** * src/infrastructure/ieee754.ts                                    *)
(* ================================================================== *)

Module Ieee754.

Local Open Scope Z_scope.

Inductive FloatKind : Type := Zero | Subnormal | Normal | Infinity | NaN.

(** The two records live in one module, so the fields of
    [Float32BitsInfo] carry the suffix 32; those of [Float64BitsInfo]
    keep the names of the source. *)
Record Float32BitsInfo : Type := mkFloat32BitsInfo {
  kind32 : FloatKind;
  signBit32 : Z;
  exponentBits32 : Z;
  mantissaBits32 : Z;
  exponentUnbiased32 : option Z;
  hex32 : string;
  bits32 : string;
  hexGrouped32 : string;
  bitsGrouped8_32 : string;
  signBitsStr32 : string;
  exponentBitsStr32 : string;
  mantissaBitsStr32 : string;
  exponentGrouped4_32 : string;
  mantissaGrouped4_32 : string;
  payloadBitsStr32 : string;
  payloadGrouped4_32 : string;
  payloadHexPadded32 : string
}.

Record Float64BitsInfo : Type := mkFloat64BitsInfo {
  kind : FloatKind;
  signBit : Z;
  exponentBits : Z;
  mantissaHigh : Z;
  mantissaLow : Z;
  exponentUnbiased : option Z;
  hex : string;
  bits : string;
  hexGrouped : string;
  bitsGrouped8 : string;
  signBitsStr : string;
  exponentBitsStr : string;
  mantissaBitsStr : string;
  exponentGrouped4 : string;
  mantissaGrouped4 : string;
  payloadBitsStr : string;
  payloadGrouped4 : string;
  payloadHexPadded : string
}.

Definition toBitsString32 (u32 : Z) : string :=
  JS.padStart (JS.Number_toString (Some (JS.ushr u32 0)) 2) 32 "0".

Definition toHex32 (u32 : Z) : string :=
  JS.padStart (JS.Number_toString (Some (JS.ushr u32 0)) 16) 8 "0".

Definition toHex64 (hi lo : Z) : string := toHex32 hi ++ toHex32 lo.

Definition toBitsString64 (hi lo : Z) : string :=
  toBitsString32 hi ++ toBitsString32 lo.

Definition groupEvery (s : string) (n : nat) (sep : string) : string :=
  let out :=
    JS.forLoop (JS.length s) 0 (JS.length s) n
      (fun i out => (out ++ [JS.slice s i (i + n)])%list) [] in
  JS.join sep out.

Definition groupWithRemainderAtEnd (s : string) (group : nat) (sep : string) : string :=
  groupEvery s group sep.

Definition classifyFloat32 (exp mant : Z) : FloatKind :=
  if exp =? 0 then (if mant =? 0 then Zero else Subnormal)
  else if exp =? 255 then (if mant =? 0 then Infinity else NaN)
  else Normal.

Definition classifyFloat64 (exp mantHi mantLo : Z) : FloatKind :=
  let mantIsZero := (mantHi =? 0) && (mantLo =? 0) in
  if exp =? 0 then (if mantIsZero then Zero else Subnormal)
  else if exp =? 2047 then (if mantIsZero then Infinity else NaN)
  else Normal.

Definition bitsToHexPadded (bits : string) : string :=
  let pad := ((4 - (JS.length bits mod 4)) mod 4)%nat in
  let padded := JS.repeat "0" pad ++ bits in
  JS.forLoop (JS.length padded) 0 (JS.length padded) 4
    (fun i hex =>
       let nibble := JS.slice padded i (i + 4) in
       hex ++ JS.Number_toString (JS.parseInt2 nibble) 16)
    "".

Definition float32Bits (value : JS.number) : Float32BitsInfo :=
  let buf := JS.ArrayBuffer 4 in
  let view := JS.setFloat32 buf 0 value true in
  let u32 := JS.getUint32 view 0 true in

  let signBit := JS.band (JS.ushr u32 31) 1 in
  let exponentBits := JS.band (JS.ushr u32 23) 255 in
  let mantissaBits := JS.band u32 8388607 in

  let kind := classifyFloat32 exponentBits mantissaBits in

  let exponentUnbiased :=
    match kind with
    | Normal => Some (exponentBits - 127)
    | Subnormal => Some (-126)
    | _ => None
    end in

  let bits := toBitsString32 u32 in
  let hex := toHex32 u32 in

  let signBitsStr := JS.slice bits 0 1 in
  let exponentBitsStr := JS.slice bits 1 9 in
  let mantissaBitsStr := JS.sliceFrom bits 9 in

  let hexGrouped := groupEvery hex 2 " " in
  let bitsGrouped8 := groupEvery bits 8 " " in

  let exponentGrouped4 := groupEvery exponentBitsStr 4 " " in
  let mantissaGrouped4 := groupWithRemainderAtEnd mantissaBitsStr 4 " " in

  let payloadBitsStr := mantissaBitsStr in
  let payloadGrouped4 := mantissaGrouped4 in
  let payloadHexPadded := JS.padStart (bitsToHexPadded payloadBitsStr) 6 "0" in

  {| kind32 := kind;
     signBit32 := signBit;
     exponentBits32 := exponentBits;
     mantissaBits32 := mantissaBits;
     exponentUnbiased32 := exponentUnbiased;
     hex32 := hex;
     bits32 := bits;
     hexGrouped32 := hexGrouped;
     bitsGrouped8_32 := bitsGrouped8;
     signBitsStr32 := signBitsStr;
     exponentBitsStr32 := exponentBitsStr;
     mantissaBitsStr32 := mantissaBitsStr;
     exponentGrouped4_32 := exponentGrouped4;
     mantissaGrouped4_32 := mantissaGrouped4;
     payloadBitsStr32 := payloadBitsStr;
     payloadGrouped4_32 := payloadGrouped4;
     payloadHexPadded32 := payloadHexPadded |}.

Definition float64Bits (value : JS.number) : Float64BitsInfo :=
  let buf := JS.ArrayBuffer 8 in
  let view := JS.setFloat64 buf 0 value true in
  let lo := JS.getUint32 view 0 true in
  let hi := JS.getUint32 view 4 true in

  let signBit := JS.band (JS.ushr hi 31) 1 in
  let exponentBits := JS.band (JS.ushr hi 20) 2047 in

  let mantissaHigh := JS.band hi 1048575 in
  let mantissaLow := JS.ushr lo 0 in

  let kind := classifyFloat64 exponentBits mantissaHigh mantissaLow in

  let exponentUnbiased :=
    match kind with
    | Normal => Some (exponentBits - 1023)
    | Subnormal => Some (-1022)
    | _ => None
    end in

  let bits := toBitsString64 hi lo in
  let hex := toHex64 hi lo in

  let signBitsStr := JS.slice bits 0 1 in
  let exponentBitsStr := JS.slice bits 1 12 in
  let mantissaBitsStr := JS.sliceFrom bits 12 in

  let hexGrouped := groupEvery hex 2 " " in
  let bitsGrouped8 := groupEvery bits 8 " " in

  let exponentGrouped4 :=
    JS.slice exponentBitsStr 0 3 ++ " " ++
    JS.slice exponentBitsStr 3 7 ++ " " ++
    JS.slice exponentBitsStr 7 11 in
  let mantissaGrouped4 := groupEvery mantissaBitsStr 4 " " in

  let payloadBitsStr := mantissaBitsStr in
  let payloadGrouped4 := mantissaGrouped4 in
  let payloadHexPadded := JS.padStart (bitsToHexPadded payloadBitsStr) 13 "0" in

  {| kind := kind;
     signBit := signBit;
     exponentBits := exponentBits;
     mantissaHigh := mantissaHigh;
     mantissaLow := mantissaLow;
     exponentUnbiased := exponentUnbiased;
     hex := hex;
     bits := bits;
     hexGrouped := hexGrouped;
     bitsGrouped8 := bitsGrouped8;
     signBitsStr := signBitsStr;
     exponentBitsStr := exponentBitsStr;
     mantissaBitsStr := mantissaBitsStr;
     exponentGrouped4 := exponentGrouped4;
     mantissaGrouped4 := mantissaGrouped4;
     payloadBitsStr := payloadBitsStr;
     payloadGrouped4 := payloadGrouped4;
     payloadHexPadded := payloadHexPadded |}.

End Ieee754.

(* ================================================================== *)
(** * src/application/ieee754Usecase.ts                                *)
(* ================================================================== *)

Module Usecase.

Inductive Precision : Type := float | double.

(** [Float32BitsInfo | Float64BitsInfo] *)
Inductive BitsInfo : Type :=
| Bits32 (b : Ieee754.Float32BitsInfo)
| Bits64 (b : Ieee754.Float64BitsInfo).

Inductive ViewModel : Type :=
| ViewIncomplete (normalizedText : string) (message : string)
| ViewInvalid (normalizedText : string) (message : string)
| ViewValid (normalizedText : string) (value : JS.number)
            (precision : Precision) (bits : BitsInfo).

Definition buildViewModel (inputText : string) (precision : Precision) : ViewModel :=
  let r := Parse.ParseFloatingInput inputText Parse.noOptions in
  match r with
  | Parse.Incomplete reason normalizedText => ViewIncomplete normalizedText reason
  | Parse.Invalid reason normalizedText => ViewInvalid normalizedText reason
  | Parse.Valid value normalizedText =>
      let bits :=
        match precision with
        | float => Bits32 (Ieee754.float32Bits value)
        | double => Bits64 (Ieee754.float64Bits value)
        end in
      ViewValid normalizedText value precision bits
  end.

(** [vm.state], [vm.bits.hex], [vm.bits.kind], [vm.bits.hexGrouped] *)
Definition state (vm : ViewModel) : string :=
  match vm with
  | ViewIncomplete _ _ => "Incomplete"
  | ViewInvalid _ _ => "Invalid"
  | ViewValid _ _ _ _ => "Valid"
  end.

Definition bitsHex (vm : ViewModel) : option string :=
  match vm with
  | ViewValid _ _ _ (Bits32 b) => Some (Ieee754.hex32 b)
  | ViewValid _ _ _ (Bits64 b) => Some (Ieee754.hex b)
  | _ => None
  end.

Definition bitsKind (vm : ViewModel) : option Ieee754.FloatKind :=
  match vm with
  | ViewValid _ _ _ (Bits32 b) => Some (Ieee754.kind32 b)
  | ViewValid _ _ _ (Bits64 b) => Some (Ieee754.kind b)
  | _ => None
  end.

Definition bitsHexGrouped (vm : ViewModel) : option string :=
  match vm with
  | ViewValid _ _ _ (Bits32 b) => Some (Ieee754.hexGrouped32 b)
  | ViewValid _ _ _ (Bits64 b) => Some (Ieee754.hexGrouped b)
  | _ => None
  end.

End Usecase.

(* ================================================================== *)
(** * The script of the webview in src/extension.ts                    *)
(* ================================================================== *)

Module Webview.

(** /^ [0-9eE+\-\.aAiInNfFtTyY] $/ *)
Definition isAllowedChar (c : ascii) : bool :=
  JS.isDigit c || JS.isExpChar c || JS.isSignChar c || JS.isDotChar c
  || existsb (Ascii.eqb c)
       ["a"; "A"; "i"; "I"; "n"; "N"; "f"; "F"; "t"; "T"; "y"; "Y"]%char.

Definition allowedChar : Regex.re := Regex.Chr isAllowedChar.

(** [[...text].filter(ch => allowedChar.test(ch)).join("")] of the paste
    guard: the characters of [text] one by one. *)
Fixpoint pasteFilter (text : string) : string :=
  match text with
  | String ch rest =>
      if Regex.test allowedChar (String ch "")
      then String ch (pasteFilter rest)
      else pasteFilter rest
  | EmptyString => ""
  end.

(** What the "beforeinput" guard decides for [ev.data]: [true] when
    the event is let through. *)
Fixpoint allAllowed (data : string) : bool :=
  match data with
  | String ch rest =>
      if negb (Regex.test allowedChar (String ch "")) then false
      else allAllowed rest
  | EmptyString => true
  end.

(** [s.replaceAll(c, rep)] for a one-character pattern and a
    replacement without dollar signs. *)
Fixpoint replaceAll (s : string) (c : ascii) (rep : string) : string :=
  match s with
  | String a rest =>
      if Ascii.eqb a c then rep ++ replaceAll rest c rep
      else String a (replaceAll rest c rep)
  | EmptyString => ""
  end.

(** The character U+0022. *)
Definition doubleQuote : ascii := ascii_of_N 34.

Definition escapeHtml (s : string) : string :=
  replaceAll
    (replaceAll
       (replaceAll
          (replaceAll
             (replaceAll s "&" "&amp;")
             "<" "&lt;")
          ">" "&gt;")
       doubleQuote "&quot;")
    "'" "&#039;".

End Webview.

(* ================================================================== *)
(** * Notions used in the statements and proofs below                  *)
(* ================================================================== *)

Module Notions.

Import Regex.

(** The first character of [s] exists and satisfies [p]. *)
Definition headIs (p : ascii -> bool) (s : string) : bool :=
  match s with
  | String c _ => p c
  | EmptyString => false
  end.

(** The part of [Parse.reDecimal] after the optional sign. *)
Definition exponentPart : re :=
  Cat Parse.expMarker (Cat (Opt Parse.sign) (Plus Parse.digit)).
Definition unsignedDecimal : re :=
  Cat Parse.mantissa (Opt exponentPart).

Definition isDigitOrDot (c : ascii) : bool := JS.isDigit c || JS.isDotChar c.

Definition notWhiteSpace (c : ascii) : bool := negb (JS.isWhiteSpace c).

End Notions.

(* ================================================================== *)
(** * Fixed-width renderings                                           *)
(* ================================================================== *)

Module Render.

Local Open Scope Z_scope.

(** The [w] low digits of [n] in the given radix, most significant
    first. *)
Fixpoint digitsFixed (radix : Z) (w : nat) (n : Z) : string :=
  match w with
  | O => ""
  | S w' => digitsFixed radix w' (n / radix) ++ String (JS.digitChar (n mod radix)) ""
  end.

(** "0" or "1" *)
Definition isBit (c : ascii) : bool := JS.inRange 48 49 c.

(** "0".."9" or "a".."f" *)
Definition isHexDigit (c : ascii) : bool := JS.inRange 48 57 c || JS.inRange 97 102 c.

(** Consecutive pieces of [s] of the given sizes. *)
Fixpoint chunksOf (sizes : list nat) (s : string) : list string :=
  match sizes with
  | [] => []
  | k :: rest =>
      substring 0 k s :: chunksOf rest (substring k (String.length s - k) s)
  end.

(** [grouped] is [s] cut into consecutive pieces of exactly the given
    sizes, joined by single spaces. *)
Definition groupedAs (sizes : list nat) (s grouped : string) : Prop :=
  map String.length (chunksOf sizes s) = sizes
  /\ fold_right append "" (chunksOf sizes s) = s
  /\ grouped = JS.join " " (chunksOf sizes s).

(** What one turn of the loop of [Ieee754.bitsToHexPadded] appends. *)
Definition nibbleHex (nibble : string) : string :=
  JS.Number_toString (JS.parseInt2 nibble) 16.

End Render.

(* ================================================================== *)
(** * Further notions for the statements below                         *)
(* ================================================================== *)

Module Words.

Import Regex.

(** The last character of [s] exists and satisfies [p]. *)
Fixpoint lastIs (p : ascii -> bool) (s : string) : bool :=
  match s with
  | EmptyString => false
  | String c EmptyString => p c
  | String _ rest => lastIs p rest
  end.

(** The result is not the Invalid outcome. *)
Definition notInvalid (r : Parse.ParseResult) : bool :=
  match r with
  | Parse.Invalid _ _ => false
  | _ => true
  end.

Definition isValid (r : Parse.ParseResult) : bool :=
  match r with
  | Parse.Valid _ _ => true
  | _ => false
  end.

(** What may stand after the optional sign of a number that is still
    being typed: nothing, a lone dot, a mantissa with an exponent
    marker, with an exponent marker and sign, or a whole unsigned
    decimal. *)
Definition numericPrefix (b : string) : Prop :=
  b = "" \/ b = "."
  \/ Match (Cat Parse.mantissa Parse.expMarker) b
  \/ Match (Cat Parse.mantissa (Cat Parse.expMarker Parse.sign)) b
  \/ Match Notions.unsignedDecimal b.

(** The letters of a special token that is still being typed: a
    prefix, in any casing, of a token that the options allow. *)
Definition specialPrefix (o : Parse.RequiredOptions) (body : string) : Prop :=
  body <> "" /\ JS.allChars JS.isAlpha body = true
  /\ ((Parse.allowNaN o = true /\ prefix (JS.toLowerCase body) "nan" = true)
      \/ (Parse.allowInfinitySynonyms o = true
          /\ prefix (JS.toLowerCase body) "infinity" = true)).

(** A text that may still become, or is, a number or a special token:
    an optional sign, then a numeric or special prefix; a leading plus
    only where the options allow it. *)
Definition typable (o : Parse.RequiredOptions) (text : string) : Prop :=
  text = ""
  \/ (negb (Parse.allowLeadingPlus o) && JS.startsWith text "+" = false
      /\ exists sg body,
           text = sg ++ body /\ (sg = "" \/ sg = "+" \/ sg = "-")
           /\ (numericPrefix body \/ specialPrefix o body)).

(** The sizes of the pieces when [len] characters are cut every [n]:
    whole pieces, then the remainder if there is one. *)
Definition groupSizes (len n : nat) : list nat :=
  (List.repeat n (len / n)
   ++ (if (len mod n =? 0)%nat then [] else [(len mod n)%nat]))%list.

(** What [Webview.escapeHtml] writes for one character. *)
Definition escapeChar (c : ascii) : string :=
  if Ascii.eqb c "&" then "&amp;"
  else if Ascii.eqb c "<" then "&lt;"
  else if Ascii.eqb c ">" then "&gt;"
  else if Ascii.eqb c Webview.doubleQuote then "&quot;"
  else if Ascii.eqb c "'" then "&#039;"
  else String c "".

(** A character that cannot open or close a tag or an attribute
    value. *)
Definition isMarkupFree (c : ascii) : bool :=
  negb (Ascii.eqb c "<" || Ascii.eqb c ">" || Ascii.eqb c Webview.doubleQuote
        || Ascii.eqb c "'").

End Words.

(** The 256 code units, by their eight bits. *)
Ltac each_char c := destruct c as [[] [] [] [] [] [] [] []].

(** A string of known length, character by character. *)
Ltac explode s H :=
  repeat (destruct s as [|? s]; [discriminate H|];
          simpl in H; apply Nat.succ_inj in H);
  destruct s; [clear H | discriminate H].

(* ================================================================== *)
(** * Strings                                                          *)
(* ================================================================== *)

Section StringFacts.

Lemma append_nil_r (s : string) : s ++ "" = s.
Proof. induction s as [|c s IH]; simpl; [reflexivity | now rewrite IH]. Qed.

Lemma append_assoc (s1 s2 s3 : string) : (s1 ++ s2) ++ s3 = s1 ++ (s2 ++ s3).
Proof. induction s1 as [|c s1 IH]; simpl; [reflexivity | now rewrite IH]. Qed.

Lemma length_append (s1 s2 : string) :
  String.length (s1 ++ s2) = (String.length s1 + String.length s2)%nat.
Proof. induction s1 as [|c s1 IH]; simpl; [reflexivity | now rewrite IH]. Qed.

Lemma append_eq_nil (s1 s2 : string) : s1 ++ s2 = "" -> s1 = "" /\ s2 = "".
Proof. destruct s1; simpl; intros H; [now split | discriminate]. Qed.

Lemma append_eq_cons (s1 s2 s : string) (c : ascii) :
  s1 ++ s2 = String c s ->
  (s1 = "" /\ s2 = String c s) \/ (exists s1', s1 = String c s1' /\ s = s1' ++ s2).
Proof.
  destruct s1 as [|a s1]; simpl; intros H.
  - now left.
  - right. injection H as -> <-. now exists s1.
Qed.

Lemma allChars_app (p : ascii -> bool) (s1 s2 : string) :
  JS.allChars p (s1 ++ s2) = JS.allChars p s1 && JS.allChars p s2.
Proof.
  induction s1 as [|c s1 IH]; simpl; [reflexivity|].
  now rewrite IH, andb_assoc.
Qed.

Lemma allChars_weaken (p q : ascii -> bool) (s : string) :
  (forall c, p c = true -> q c = true) ->
  JS.allChars p s = true -> JS.allChars q s = true.
Proof.
  intros Hpq. induction s as [|c s IH]; simpl; [reflexivity|].
  intros H. apply andb_true_iff in H as [Hc Hs].
  now rewrite (Hpq _ Hc), IH.
Qed.

Lemma substring_all (s : string) : substring 0 (String.length s) s = s.
Proof. induction s as [|c s IH]; simpl; [reflexivity | now rewrite IH]. Qed.

End StringFacts.

(* ================================================================== *)
(** * The derivative matcher decides the language                      *)
(* ================================================================== *)

Section RegexFacts.

Import Regex.

Lemma nullable_Match (r : re) : nullable r = true <-> Match r "".
Proof.
  split.
  - induction r; simpl; intros H; try discriminate.
    + constructor.
    + apply andb_true_iff in H as [H1 H2].
      change "" with ("" ++ ""). constructor; auto.
    + apply orb_true_iff in H as [H|H]; [apply MAltL | apply MAltR]; auto.
    + constructor.
  - intros H. remember "" as s eqn:Es.
    induction H; simpl; try reflexivity; try discriminate.
    + apply append_eq_nil in Es as [-> ->].
      now rewrite IHMatch1, IHMatch2.
    + now rewrite IHMatch.
    + rewrite IHMatch by assumption. apply orb_true_r.
Qed.

Lemma deriv_sound (c : ascii) (r : re) :
  forall s, Match (deriv c r) s -> Match r (String c s).
Proof.
  induction r; simpl; intros s H.
  - inversion H.
  - inversion H.
  - destruct (p c) eqn:Hp; inversion H; subst. now constructor.
  - destruct (nullable r1) eqn:Hn.
    + inversion H; subst.
      * match goal with
        | Hc : Match (Cat _ _) _ |- _ => inversion Hc; subst
        end.
        change (String c (s1 ++ s2)) with (String c s1 ++ s2).
        constructor; auto.
      * change (String c s) with ("" ++ String c s).
        constructor; [now apply nullable_Match | auto].
    + inversion H; subst.
      change (String c (s1 ++ s2)) with (String c s1 ++ s2).
      constructor; auto.
  - inversion H; subst; [apply MAltL | apply MAltR]; auto.
  - inversion H; subst.
    change (String c (s1 ++ s2)) with (String c s1 ++ s2).
    constructor; auto.
Qed.

Lemma deriv_complete (c : ascii) (r : re) (t : string) :
  Match r t -> forall s, t = String c s -> Match (deriv c r) s.
Proof.
  induction 1 as [ | p a Hp | r1 r2 s1 s2 H1 IH1 H2 IH2 | r1 r2 u H1 IH1
                 | r1 r2 u H2 IH2 | r1 | r1 s1 s2 H1 IH1 H2 IH2 ];
    intros s E; simpl.
  - discriminate.
  - injection E as -> <-. rewrite Hp. constructor.
  - apply append_eq_cons in E as [[-> ->] | (s1' & -> & ->)].
    + assert (Hn : nullable r1 = true) by now apply nullable_Match.
      rewrite Hn. apply MAltR. now apply IH2.
    + destruct (nullable r1).
      * apply MAltL. constructor; [now apply IH1 | assumption].
      * constructor; [now apply IH1 | assumption].
  - apply MAltL. now apply IH1.
  - apply MAltR. now apply IH2.
  - discriminate.
  - apply append_eq_cons in E as [[-> ->] | (s1' & -> & ->)].
    + now apply IH2.
    + constructor; [now apply IH1 | assumption].
Qed.

Theorem test_Match (r : re) (s : string) : test r s = true <-> Match r s.
Proof.
  revert r. induction s as [|c s IH]; intros r; simpl.
  - apply nullable_Match.
  - rewrite IH. split.
    + apply deriv_sound.
    + intros H. now apply deriv_complete with (t := String c s).
Qed.

Lemma Match_occurs (r : re) (s : string) :
  Match r s -> JS.allChars (occurs r) s = true.
Proof.
  induction 1; simpl; try reflexivity.
  - now rewrite H.
  - rewrite allChars_app. apply andb_true_iff. split.
    + eapply allChars_weaken; [|eassumption]. intros c Hc. now rewrite Hc.
    + eapply allChars_weaken; [|eassumption]. intros c Hc. rewrite Hc. apply orb_true_r.
  - eapply allChars_weaken; [|eassumption]. intros c Hc. now rewrite Hc.
  - eapply allChars_weaken; [|eassumption]. intros c Hc. rewrite Hc. apply orb_true_r.
  - rewrite allChars_app. apply andb_true_iff. split; [|assumption].
    eapply allChars_weaken; [|eassumption]. intros c Hc. exact Hc.
Qed.

End RegexFacts.

(* ================================================================== *)
(** * The test suites of the repository, and known conversions         *)
(* ================================================================== *)

Section RepositoryTests.

Import Parse Usecase.

(** src/test/parseFloatingInput.test.ts *)
Lemma test_incomplete_basics :
  map (fun s => kindOf (ParseFloatingInput s noOptions))
      [""; "-"; "."; "-."; "1e"; "1e-"]
  = List.repeat "Incomplete" 6.
Proof. vm_compute. reflexivity. Qed.

Lemma test_valid_decimals :
  map (fun s => kindOf (ParseFloatingInput s noOptions))
      ["0"; "-1.25"; ".5"; "1."; "1e-3"; "-1.2E+8"]
  = List.repeat "Valid" 6.
Proof. vm_compute. reflexivity. Qed.

Lemma test_specials :
  map (fun s => kindOf (ParseFloatingInput s noOptions))
      ["NaN"; "-NaN"; "Inf"; "+Infinity"; "infi"]
  = ["Valid"; "Valid"; "Valid"; "Valid"; "Incomplete"].
Proof. vm_compute. reflexivity. Qed.

Lemma test_invalids :
  map (fun s => kindOf (ParseFloatingInput s noOptions))
      ["1ee3"; "--1"; "e3"; "1e1.2"]
  = List.repeat "Invalid" 4.
Proof. vm_compute. reflexivity. Qed.

(** src/test/ieee754Usecase.test.ts *)
Lemma test_usecase :
  bitsHex (buildViewModel "1.0" float) = Some "3f800000"
  /\ bitsHex (buildViewModel "1.0" double) = Some "3ff0000000000000"
  /\ bitsKind (buildViewModel "Inf" float) = Some Ieee754.Infinity
  /\ bitsKind (buildViewModel "NaN" double) = Some Ieee754.NaN
  /\ bitsHexGrouped (buildViewModel "1.0" float) = Some "3f 80 00 00".
Proof. repeat split; vm_compute; reflexivity. Qed.

(** Conversions with well-known results: 0.1, 1e23 (nearest below),
    the smallest subnormal and the half-way point below it, the largest
    finite value and the overflow threshold, 2^53 + 1 (a tie), and the
    narrowing of 0.1 and of 2^24 + 1 (a tie) to 32 bits. *)
Lemma known_conversions :
  map (fun s => Ieee754.hex (Ieee754.float64Bits (JS.Number s)))
      ["0.1"; "1e23"; "5e-324"; "2.4703282292062327e-324";
       "2.4703282292062328e-324"; "1.7976931348623157e308";
       "1.7976931348623159e308"; "9007199254740993"; "-0"; "0x1F"; "abc"]
  = ["3fb999999999999a"; "44b52d02c7e14af6"; "0000000000000001"; "0000000000000000";
     "0000000000000001"; "7fefffffffffffff";
     "7ff0000000000000"; "4340000000000000"; "8000000000000000"; "403f000000000000";
     "7ff8000000000000"]
  /\ map (fun s => Ieee754.hex32 (Ieee754.float32Bits (JS.Number s)))
         ["0.1"; "16777217"; "1e-45"; "3.4028236e38"; "Infinity"]
     = ["3dcccccd"; "4b800000"; "00000001"; "7f800000"; "7f800000"].
Proof. split; vm_compute; reflexivity. Qed.

End RepositoryTests.

(* ================================================================== *)
(** * Boundary literals and end-to-end literals                        *)
(* ================================================================== *)

Section Literals.

Import Parse Ieee754.

(** C3.  With default options the boundary literals are classified as:
    the empty string, "-", ".", "1e", "1e-" and "infi" are Incomplete
    with the reasons "empty", "sign only", "dot only", "exponent marker
    only", "exponent sign only" and "incomplete Infinity token"; each of
    "1ee3", "--1", "e3" and "1e1.2" is Invalid. *)
Theorem C3_boundary_literals :
  ParseFloatingInput "" noOptions = Incomplete "empty" ""
  /\ ParseFloatingInput "-" noOptions = Incomplete "sign only" "-"
  /\ ParseFloatingInput "." noOptions = Incomplete "dot only" "."
  /\ ParseFloatingInput "1e" noOptions = Incomplete "exponent marker only" "1e"
  /\ ParseFloatingInput "1e-" noOptions = Incomplete "exponent sign only" "1e-"
  /\ ParseFloatingInput "infi" noOptions = Incomplete "incomplete Infinity token" "infi"
  /\ ParseFloatingInput "1ee3" noOptions = Invalid "invalid numeric syntax" "1ee3"
  /\ ParseFloatingInput "--1" noOptions = Invalid "invalid numeric syntax" "--1"
  /\ ParseFloatingInput "e3" noOptions = Invalid "invalid numeric syntax" "e3"
  /\ ParseFloatingInput "1e1.2" noOptions = Invalid "invalid numeric syntax" "1e1.2".
Proof. repeat split; vm_compute; reflexivity. Qed.

(** C5.  "1.0" is Valid with value 1.0 (2^52 * 2^-52) and normalized
    text "1.0"; "-1.25" is Valid with value -1.25 (-(5 * 2^50) * 2^-52)
    and normalized text "-1.25"; the hex fields are 3f800000 and
    3ff0000000000000 for 1.0 at the two widths and bfa00000 for -1.25 at
    32 bits. *)
Theorem C5_literal_scenarios :
  ParseFloatingInput "1.0" noOptions
    = Valid (S754_finite false 4503599627370496 (-52)) "1.0"
  /\ ParseFloatingInput "-1.25" noOptions
    = Valid (S754_finite true 5629499534213120 (-52)) "-1.25"
  /\ hex32 (float32Bits (S754_finite false 4503599627370496 (-52))) = "3f800000"
  /\ hex (float64Bits (S754_finite false 4503599627370496 (-52))) = "3ff0000000000000"
  /\ hex32 (float32Bits (S754_finite true 5629499534213120 (-52))) = "bfa00000".
Proof. repeat split; vm_compute; reflexivity. Qed.

End Literals.

(* ================================================================== *)
(** * Special tokens                                                   *)
(* ================================================================== *)

Section SpecialTokens.

Import Parse.

Lemma toLowerChar_n (c : ascii) :
  JS.toLowerChar c = "n"%char -> c = "n"%char \/ c = "N"%char.
Proof. each_char c; vm_compute; intros H; try discriminate H; auto. Qed.

Lemma toLowerChar_a (c : ascii) :
  JS.toLowerChar c = "a"%char -> c = "a"%char \/ c = "A"%char.
Proof. each_char c; vm_compute; intros H; try discriminate H; auto. Qed.

Lemma toLowerChar_i (c : ascii) :
  JS.toLowerChar c = "i"%char -> c = "i"%char \/ c = "I"%char.
Proof. each_char c; vm_compute; intros H; try discriminate H; auto. Qed.

Lemma toLowerChar_f (c : ascii) :
  JS.toLowerChar c = "f"%char -> c = "f"%char \/ c = "F"%char.
Proof. each_char c; vm_compute; intros H; try discriminate H; auto. Qed.

Lemma toLowerChar_t (c : ascii) :
  JS.toLowerChar c = "t"%char -> c = "t"%char \/ c = "T"%char.
Proof. each_char c; vm_compute; intros H; try discriminate H; auto. Qed.

Lemma toLowerChar_y (c : ascii) :
  JS.toLowerChar c = "y"%char -> c = "y"%char \/ c = "Y"%char.
Proof. each_char c; vm_compute; intros H; try discriminate H; auto. Qed.

Ltac split_case H :=
  first [ apply toLowerChar_n in H | apply toLowerChar_a in H
        | apply toLowerChar_i in H | apply toLowerChar_f in H
        | apply toLowerChar_t in H | apply toLowerChar_y in H ];
  destruct H as [-> | ->].

Ltac all_casings :=
  repeat match goal with
    | H : JS.toLowerChar _ = _ |- _ => split_case H
    end.

Lemma nan_casings (sg body : string) :
  In sg [""; "+"; "-"] ->
  JS.toLowerCase body = "nan" ->
  ParseFloatingInput (sg ++ body) noOptions = Valid JS.NaN (sg ++ "NaN").
Proof.
  intros Hs Hb.
  do 3 (destruct body; simpl in Hb; [discriminate Hb | injection Hb as ? Hb]).
  destruct body; [|discriminate Hb]. clear Hb.
  all_casings;
    simpl in Hs; destruct Hs as [<- | [<- | [<- | []]]]; vm_compute; reflexivity.
Qed.

Lemma inf_casings (sg body : string) :
  In sg [""; "+"; "-"] ->
  JS.toLowerCase body = "inf" ->
  ParseFloatingInput (sg ++ body) noOptions
    = Valid (if (sg =? "-")%string then JS.negInfinity else JS.Infinity)
            (sg ++ "Infinity").
Proof.
  intros Hs Hb.
  do 3 (destruct body; simpl in Hb; [discriminate Hb | injection Hb as ? Hb]).
  destruct body; [|discriminate Hb]. clear Hb.
  all_casings;
    simpl in Hs; destruct Hs as [<- | [<- | [<- | []]]]; vm_compute; reflexivity.
Qed.

Lemma infinity_casings (sg body : string) :
  In sg [""; "+"; "-"] ->
  JS.toLowerCase body = "infinity" ->
  ParseFloatingInput (sg ++ body) noOptions
    = Valid (if (sg =? "-")%string then JS.negInfinity else JS.Infinity)
            (sg ++ "Infinity").
Proof.
  intros Hs Hb.
  do 8 (destruct body; simpl in Hb; [discriminate Hb | injection Hb as ? Hb]).
  destruct body; [|discriminate Hb]. clear Hb.
  all_casings;
    simpl in Hs; destruct Hs as [<- | [<- | [<- | []]]]; vm_compute; reflexivity.
Qed.

(** C4.  With default options: an optionally signed, case-insensitive
    exact "nan" is Valid with value NaN and normalized text sign + "NaN";
    an optionally signed, case-insensitive exact "inf" or "infinity" is
    Valid with value -Infinity under the sign "-" and +Infinity
    otherwise, and normalized text sign + "Infinity"; "inf" is Valid
    while its letters-only proper prefixes "i" and "in" are Incomplete. *)
Theorem C4_special_tokens (sg body : string) :
  In sg [""; "+"; "-"] ->
  (JS.toLowerCase body = "nan" ->
     ParseFloatingInput (sg ++ body) noOptions = Valid JS.NaN (sg ++ "NaN"))
  /\ (JS.toLowerCase body = "inf" \/ JS.toLowerCase body = "infinity" ->
     ParseFloatingInput (sg ++ body) noOptions
       = Valid (if (sg =? "-")%string then JS.negInfinity else JS.Infinity)
               (sg ++ "Infinity"))
  /\ ParseFloatingInput "inf" noOptions = Valid JS.Infinity "Infinity"
  /\ ParseFloatingInput "i" noOptions = Incomplete "incomplete Infinity token" "i"
  /\ ParseFloatingInput "in" noOptions = Incomplete "incomplete Infinity token" "in".
Proof.
  intros Hs. split; [|split; [|repeat split; vm_compute; reflexivity]].
  - now apply nan_casings.
  - intros [H | H]; [now apply inf_casings | now apply infinity_casings].
Qed.

Lemma C4_special_tokens_witness :
  ParseFloatingInput "-nAn" noOptions = Valid JS.NaN "-NaN"
  /\ ParseFloatingInput "-INFinity" noOptions = Valid JS.negInfinity "-Infinity".
Proof.
  assert (Hs : In "-" [""; "+"; "-"]) by (simpl; auto).
  split.
  - exact (proj1 (C4_special_tokens "-" "nAn" Hs) eq_refl).
  - exact (proj1 (proj2 (C4_special_tokens "-" "INFinity" Hs)) (or_intror eq_refl)).
Defined.

End SpecialTokens.

(* ================================================================== *)
(** * The second Infinity-prefix branch                                *)
(* ================================================================== *)

Section DeadInfBranch.

Import Parse.

(** A string shorter than 3 that is a prefix of "inf" is a proper
    prefix of "infinity". *)
Lemma inf_prefix_is_infinity_prefix (cmp : string) :
  JS.startsWith "inf" cmp = true ->
  (JS.length cmp <? 3)%nat = true ->
  JS.startsWith "infinity" cmp && (JS.length cmp <? JS.length "infinity")%nat = true.
Proof.
  unfold JS.startsWith, JS.length.
  destruct cmp as [|c1 [|c2 [|c3 rest]]]; simpl; intros Hp Hl;
    try reflexivity; try discriminate Hl.
  - destruct (ascii_dec c1 "i"); [reflexivity | discriminate Hp].
  - destruct (ascii_dec c1 "i"); [|discriminate Hp].
    destruct (ascii_dec c2 "n"); [reflexivity | discriminate Hp].
Qed.

Lemma parseSpecial_reason (text : string) (o : RequiredOptions) (reason nt : string) :
  parseSpecial text o = Some (Incomplete reason nt) ->
  reason = "incomplete NaN token" \/ reason = "incomplete Infinity token".
Proof.
  unfold parseSpecial.
  destruct (matchSignBody text) as [[sg body]|]; [|discriminate].
  cbv zeta. intros H.
  repeat match type of H with
    | context [if ?b then _ else _] =>
        lazymatch b with
        | context [if _ then _ else _] => fail
        | _ => destruct b eqn:?; simpl existsb in H; simpl orb in H
        end
    end; try discriminate H.
  all: try (injection H as <- _; auto; fail).
  all: match goal with
    | Hs : JS.startsWith "inf" ?c && _ = true,
      Hi : JS.startsWith "infinity" ?c && _ = false |- _ =>
        apply andb_true_iff in Hs as [Hp Hl];
        rewrite (inf_prefix_is_infinity_prefix c Hp Hl) in Hi; discriminate Hi
    end.
Qed.

(** C10.  For every input and every options value the result is
    never Incomplete with the reason "incomplete Inf token": a
    letters-only proper prefix of "inf" is caught by the "infinity"
    prefix test before it. *)
Theorem C10_incomplete_Inf_token_unreachable
        (input : string) (opts : ParseOptions) (nt : string) :
  ParseFloatingInput input opts <> Incomplete "incomplete Inf token" nt.
Proof.
  unfold ParseFloatingInput. cbv zeta.
  set (o := spread defaultOptions opts).
  set (text := JS.trim input).
  destruct (JS.length text =? 0)%nat; [discriminate|].
  destruct (negb (allowLeadingPlus o) && JS.startsWith text "+"); [discriminate|].
  destruct (parseSpecial text o) as [special|] eqn:Hsp.
  - intros ->. apply parseSpecial_reason in Hsp as [H | H]; discriminate H.
  - unfold isIncompleteNumberToken.
    repeat match goal with
      | |- context [if ?b then Some _ else _] => destruct b; [discriminate|]
      end.
    destruct (negb (isValidDecimalNumberSyntax text o)); [discriminate|].
    destruct (JS.isNaN (JS.Number text)); [discriminate|].
    destruct (negb (allowInfinitySynonyms o) && negb (JS.isFinite (JS.Number text)));
      discriminate.
Qed.

Lemma C10_incomplete_Inf_token_unreachable_witness :
  ParseFloatingInput "in" noOptions <> Incomplete "incomplete Inf token" "in".
Proof. exact (C10_incomplete_Inf_token_unreachable "in" noOptions "in"). Defined.

End DeadInfBranch.

(* ================================================================== *)
(** * Rounding never produces NaN                                      *)
(* ================================================================== *)

Section RoundingNotNaN.

Local Open Scope Z_scope.

Variables prec emax : Z.

Lemma shr_1_nonneg (mrs : shr_record) :
  0 <= shr_m mrs -> 0 <= shr_m (shr_1 mrs).
Proof.
  destruct mrs as [m r s]. simpl.
  destruct m as [|p|p]; simpl; intros H; try lia.
  - destruct p; simpl; lia.
Qed.

Lemma iter_shr_1_nonneg (p : positive) :
  forall mrs, 0 <= shr_m mrs -> 0 <= shr_m (iter_pos shr_1 p mrs).
Proof.
  induction p as [p IH | p IH |]; simpl; intros mrs H.
  - apply IH, IH, shr_1_nonneg, H.
  - apply IH, IH, H.
  - apply shr_1_nonneg, H.
Qed.

Lemma shr_fexp_nonneg (m e : Z) (l : location) :
  0 <= m -> 0 <= shr_m (fst (shr_fexp prec emax m e l)).
Proof.
  intros H. unfold shr_fexp, shr.
  assert (H0 : 0 <= shr_m (shr_record_of_loc m l))
    by (destruct l as [|[]]; simpl; exact H).
  destruct (fexp prec emax (Zdigits2 m + e) - e) as [|p|p]; simpl; auto.
  now apply iter_shr_1_nonneg.
Qed.

Lemma round_nearest_even_nonneg (m : Z) (l : location) :
  0 <= m -> 0 <= round_nearest_even m l.
Proof.
  intros H. destruct l as [|[]]; simpl; try lia.
  destruct (Z.even m); lia.
Qed.

Lemma binary_round_aux_not_nan (sx : bool) (mx ex : Z) (lx : location) :
  0 <= mx -> JS.isNaN (binary_round_aux prec emax sx mx ex lx) = false.
Proof.
  intros H. unfold binary_round_aux.
  pose proof (shr_fexp_nonneg mx ex lx H) as H1.
  destruct (shr_fexp prec emax mx ex lx) as [mrs' e']. simpl in H1.
  pose proof (shr_fexp_nonneg
                (round_nearest_even (shr_m mrs') (loc_of_shr_record mrs')) e' loc_Exact
                (round_nearest_even_nonneg _ _ H1)) as H2.
  destruct (shr_fexp prec emax _ e' loc_Exact) as [mrs'' e'']. simpl in H2.
  destruct (shr_m mrs'') as [|p|p]; [reflexivity | | lia].
  destruct (e'' <=? emax - prec); reflexivity.
Qed.

Lemma SFdiv_finite_not_nan (s1 s2 : bool) (m1 m2 : positive) (e1 e2 : Z) :
  JS.isNaN (SFdiv prec emax (S754_finite s1 m1 e1) (S754_finite s2 m2 e2)) = false.
Proof.
  unfold SFdiv, SFdiv_core_binary.
  set (s := e1 - e2 - _).
  set (m' := match s with Z0 => Zpos m1 | Zpos _ => Z.shiftl (Zpos m1) s | Zneg _ => 0 end).
  assert (Hm' : 0 <= m').
  { subst m'. destruct s; try lia. apply Z.shiftl_nonneg. lia. }
  pose proof (Z.div_pos m' (Zpos m2) Hm' ltac:(lia)) as Hq.
  unfold Z.div in Hq.
  destruct (Z.div_eucl m' (Zpos m2)) as [q r]. simpl in Hq.
  now apply binary_round_aux_not_nan.
Qed.

End RoundingNotNaN.

Lemma roundDecimal_not_nan (neg : bool) (m e : Z) :
  JS.isNaN (JS.roundDecimal neg m e) = false.
Proof.
  unfold JS.roundDecimal.
  destruct (m <=? 0)%Z; [reflexivity | apply SFdiv_finite_not_nan].
Qed.

(* ================================================================== *)
(** * The decimal grammar and [Number]                                 *)
(* ================================================================== *)

Section DecimalGrammar.

Import Regex Parse Notions.

Lemma Match_Chr_inv (p : ascii -> bool) (s : string) :
  Match (Chr p) s -> exists c, s = String c "" /\ p c = true.
Proof. inversion 1; subst. eauto. Qed.

Lemma Match_Star_chars (p : ascii -> bool) (s : string) :
  Match (Star (Chr p)) s -> JS.allChars p s = true.
Proof.
  intros H. remember (Star (Chr p)) as r eqn:Er.
  induction H; try discriminate Er; [reflexivity|].
  injection Er as ->.
  apply Match_Chr_inv in H as (c & -> & Hc).
  simpl. rewrite Hc. now apply IHMatch2.
Qed.

Lemma Match_Plus_chars (p : ascii -> bool) (s : string) :
  Match (Plus (Chr p)) s ->
  exists c s', s = String c s' /\ p c = true /\ JS.allChars p s' = true.
Proof.
  unfold Plus. inversion 1; subst.
  match goal with
  | Hc : Match (Chr p) _ |- _ => apply Match_Chr_inv in Hc as (c & -> & Hc)
  end.
  exists c, s2. repeat split; auto. now apply Match_Star_chars.
Qed.

Lemma Match_Opt_inv (r : re) (s : string) :
  Match (Opt r) s -> Match r s \/ s = "".
Proof.
  unfold Opt. inversion 1; subst; [now left|].
  match goal with Hc : Match Eps _ |- _ => inversion Hc end. now right.
Qed.

Lemma Match_Cat_inv (r1 r2 : re) (s : string) :
  Match (Cat r1 r2) s -> exists s1 s2, s = s1 ++ s2 /\ Match r1 s1 /\ Match r2 s2.
Proof. inversion 1; subst. eauto. Qed.

Lemma span_app (p : ascii -> bool) (ds r : string) :
  JS.allChars p ds = true -> headIs p r = false ->
  JS.span p (ds ++ r) = (ds, r).
Proof.
  intros Hd Hr. induction ds as [|c ds IH]; simpl in *.
  - destruct r as [|c r]; [reflexivity|]. simpl in Hr. simpl. now rewrite Hr.
  - apply andb_true_iff in Hd as [Hc Hd]. rewrite Hc, (IH Hd). reflexivity.
Qed.

Lemma span_all (p : ascii -> bool) (ds : string) :
  JS.allChars p ds = true -> JS.span p ds = (ds, "").
Proof.
  intros H. rewrite <- (append_nil_r ds) at 1. now apply span_app.
Qed.

(** An optional sign in front of something that does not start with a
    sign is read back by [parseSign]. *)
Lemma digit_not_sign (c : ascii) : JS.isDigit c = true -> JS.isSignChar c = false.
Proof. each_char c; vm_compute; intros H; try discriminate H; reflexivity. Qed.

Lemma digit_not_dot (c : ascii) : JS.isDigit c = true -> JS.isDotChar c = false.
Proof. each_char c; vm_compute; intros H; try discriminate H; reflexivity. Qed.

Lemma dot_not_digit (c : ascii) : JS.isDotChar c = true -> JS.isDigit c = false.
Proof. each_char c; vm_compute; intros H; try discriminate H; reflexivity. Qed.

Lemma exp_not_digit (c : ascii) : JS.isExpChar c = true -> JS.isDigit c = false.
Proof. each_char c; vm_compute; intros H; try discriminate H; reflexivity. Qed.

Lemma exp_not_dot (c : ascii) : JS.isExpChar c = true -> JS.isDotChar c = false.
Proof. each_char c; vm_compute; intros H; try discriminate H; reflexivity. Qed.

Lemma sign_not_digit (c : ascii) : JS.isSignChar c = true -> JS.isDigit c = false.
Proof. each_char c; vm_compute; intros H; try discriminate H; reflexivity. Qed.

Lemma sign_cases (c : ascii) :
  JS.isSignChar c = true -> c = "+"%char \/ c = "-"%char.
Proof. each_char c; vm_compute; intros H; try discriminate H; auto. Qed.

Lemma parseSign_unsigned (s : string) :
  headIs JS.isSignChar s = false -> JS.parseSign s = (false, s).
Proof.
  destruct s as [|c s]; [reflexivity|]. simpl. unfold JS.isSignChar.
  intros H. apply orb_false_iff in H as [H1 H2]. now rewrite H1, H2.
Qed.

Lemma Match_optsign (s : string) :
  Match (Opt sign) s -> s = "" \/ s = "+" \/ s = "-".
Proof.
  intros H. apply Match_Opt_inv in H as [H | ->]; [|now left].
  apply Match_Chr_inv in H as (c & -> & Hc).
  apply sign_cases in Hc as [-> | ->]; auto.
Qed.

(** ExponentPart(opt): always read by [parseExponent], and it starts
    with neither a digit nor a dot. *)
Lemma parseExponent_ok (s : string) :
  Match (Opt exponentPart) s ->
  (exists e, JS.parseExponent s = Some e)
  /\ headIs JS.isDigit s = false /\ headIs JS.isDotChar s = false.
Proof.
  intros H. apply Match_Opt_inv in H as [H | ->];
    [|simpl; eauto].
  unfold exponentPart in H.
  apply Match_Cat_inv in H as (s1 & s2 & -> & H1 & H2).
  apply Match_Chr_inv in H1 as (c & -> & Hc).
  apply Match_Cat_inv in H2 as (sg & ds & -> & Hsg & Hds).
  apply Match_Plus_chars in Hds as (d & ds' & -> & Hd & Hds').
  change (String c "" ++ sg ++ String d ds') with (String c (sg ++ String d ds')).
  split; [|split; [now apply exp_not_digit | now apply exp_not_dot]].
  assert (Hspan : JS.span JS.isDigit (String d ds') = (String d ds', "")).
  { apply span_all. simpl. now rewrite Hd, Hds'. }
  unfold JS.parseExponent. rewrite Hc.
  apply Match_optsign in Hsg as [-> | [-> | ->]].
  - change ("" ++ String d ds') with (String d ds').
    rewrite parseSign_unsigned by (simpl; now apply digit_not_sign).
    cbv beta iota. rewrite Hspan. eauto.
  - change (JS.parseSign ("+" ++ String d ds')) with (false, String d ds').
    cbv beta iota. rewrite Hspan. eauto.
  - change (JS.parseSign ("-" ++ String d ds')) with (true, String d ds').
    cbv beta iota. rewrite Hspan. eauto.
Qed.

(** Every match of the unsigned decimal grammar is read by
    [parseUnsignedDecimal], and starts with a digit or a dot. *)
Lemma parseUnsignedDecimal_ok (m : string) :
  Match unsignedDecimal m ->
  (exists v, JS.parseUnsignedDecimal m = Some v)
  /\ headIs isDigitOrDot m = true.
Proof.
  unfold unsignedDecimal. intros H.
  apply Match_Cat_inv in H as (s1 & s2 & -> & H1 & H2).
  apply parseExponent_ok in H2 as ((e & He) & Hnd & Hndot).
  unfold mantissa in H1. inversion H1 as [ | | | ? ? ? HA | ? ? ? HB | | ]; subst.
  - (* digits, then an optional fraction *)
    apply Match_Cat_inv in HA as (ip & fr & -> & Hip & Hfr).
    apply Match_Plus_chars in Hip as (d & ip' & -> & Hd & Hip').
    assert (Hall : JS.allChars JS.isDigit (String d ip') = true)
      by (simpl; now rewrite Hd, Hip').
    split; [|simpl; unfold isDigitOrDot; now rewrite Hd].
    apply Match_Opt_inv in Hfr as [Hfr | ->].
    + apply Match_Cat_inv in Hfr as (dt & fp & -> & Hdt & Hfp).
      apply Match_Chr_inv in Hdt as (c & -> & Hc).
      apply Match_Star_chars in Hfp.
      unfold JS.parseUnsignedDecimal.
      rewrite !append_assoc.
      rewrite (span_app JS.isDigit (String d ip') _ Hall)
        by (simpl; now apply dot_not_digit).
      change (String c "" ++ fp ++ s2) with (String c (fp ++ s2)).
      cbv beta iota. rewrite Hc.
      rewrite (span_app JS.isDigit fp s2 Hfp Hnd).
      cbv beta iota. change (String d ip' ++ fp) with (String d (ip' ++ fp)).
      cbv beta iota. rewrite He. eauto.
    + rewrite append_nil_r.
      unfold JS.parseUnsignedDecimal.
      rewrite (span_app JS.isDigit (String d ip') s2 Hall Hnd).
      cbv beta iota.
      destruct s2 as [|c s2'].
      * eauto.
      * simpl in Hndot. rewrite Hndot. rewrite He. eauto.
  - (* a dot, then digits *)
    apply Match_Cat_inv in HB as (dt & fp & -> & Hdt & Hfp).
    apply Match_Chr_inv in Hdt as (c & -> & Hc).
    apply Match_Plus_chars in Hfp as (d & fp' & -> & Hd & Hfp').
    assert (Hall : JS.allChars JS.isDigit (String d fp') = true)
      by (simpl; now rewrite Hd, Hfp').
    split; [|simpl; unfold isDigitOrDot; rewrite Hc; apply orb_true_r].
    unfold JS.parseUnsignedDecimal.
    change ((String c "" ++ String d fp') ++ s2) with (String c (String d fp' ++ s2)).
    change (JS.span JS.isDigit (String c (String d fp' ++ s2)))
      with (if JS.isDigit c
            then let (d0, r) := JS.span JS.isDigit (String d fp' ++ s2) in (String c d0, r)
            else ("", String c (String d fp' ++ s2))).
    rewrite (dot_not_digit c Hc). cbv beta iota. rewrite Hc.
    rewrite (span_app JS.isDigit (String d fp') s2 Hall Hnd).
    cbv beta iota. change ("" ++ String d fp') with (String d fp').
    cbv beta iota. rewrite He. eauto.
Qed.


Lemma trimStart_id (s : string) :
  headIs JS.isWhiteSpace s = false -> JS.trimStart s = s.
Proof. destruct s as [|c s]; simpl; [reflexivity | now intros ->]. Qed.

Lemma trimEnd_id (s : string) :
  JS.allChars notWhiteSpace s = true -> JS.trimEnd s = s.
Proof.
  induction s as [|c s IH]; simpl; [reflexivity|].
  intros H. apply andb_true_iff in H as [Hc Hs].
  rewrite (IH Hs). unfold notWhiteSpace in Hc. apply negb_true_iff in Hc.
  destruct s; [now rewrite Hc | reflexivity].
Qed.

Lemma trim_id (s : string) :
  JS.allChars notWhiteSpace s = true -> JS.trim s = s.
Proof.
  intros H. unfold JS.trim. rewrite trimStart_id.
  - now apply trimEnd_id.
  - destruct s as [|c s]; [reflexivity|]. simpl in *.
    apply andb_true_iff in H as [Hc _]. now apply negb_true_iff in Hc.
Qed.

Lemma decimal_char_not_space (c : ascii) :
  occurs reDecimal c = true -> notWhiteSpace c = true.
Proof. each_char c; vm_compute; intros H; try discriminate H; reflexivity. Qed.

Lemma decimal_trimmed (text : string) :
  Match reDecimal text -> JS.trim text = text.
Proof.
  intros H. apply trim_id.
  eapply allChars_weaken; [apply decimal_char_not_space|].
  now apply Match_occurs.
Qed.

Lemma reDecimal_split (text : string) :
  Match reDecimal text ->
  exists sg m, text = sg ++ m /\ (sg = "" \/ sg = "+" \/ sg = "-")
               /\ Match unsignedDecimal m.
Proof.
  change reDecimal with (Cat (Opt sign) unsignedDecimal). intros H.
  apply Match_Cat_inv in H as (sg & m & -> & Hsg & Hm).
  exists sg, m. repeat split; auto. now apply Match_optsign.
Qed.

Lemma reDecimal_join (sg m : string) :
  sg = "" \/ sg = "+" \/ sg = "-" ->
  Match unsignedDecimal m -> Match reDecimal (sg ++ m).
Proof.
  change reDecimal with (Cat (Opt sign) unsignedDecimal). intros Hsg Hm.
  constructor; [|assumption].
  destruct Hsg as [-> | [-> | ->]].
  - apply MAltR. constructor.
  - apply MAltL. now constructor.
  - apply MAltL. now constructor.
Qed.

Lemma digitOrDot_not_sign (c : ascii) :
  isDigitOrDot c = true -> JS.isSignChar c = false.
Proof. each_char c; vm_compute; intros H; try discriminate H; reflexivity. Qed.

Lemma digitOrDot_not_I (c : ascii) :
  isDigitOrDot c = true -> Ascii.eqb c "I" = false.
Proof. each_char c; vm_compute; intros H; try discriminate H; reflexivity. Qed.

(** [Number] on a match of the decimal grammar: the sign is read off
    and the unsigned part is rounded once. *)
Lemma Number_decimal (sg m : string) :
  sg = "" \/ sg = "+" \/ sg = "-" ->
  Match unsignedDecimal m ->
  exists mm ee,
    JS.parseUnsignedDecimal m = Some (mm, ee)
    /\ JS.Number (sg ++ m) = JS.roundDecimal (sg =? "-")%string mm ee.
Proof.
  intros Hsg Hm.
  pose proof (decimal_trimmed _ (reDecimal_join sg m Hsg Hm)) as Htrim.
  destruct (parseUnsignedDecimal_ok m Hm) as (([mm ee] & Hv) & Hhead).
  exists mm, ee. split; [assumption|].
  unfold JS.Number. rewrite Htrim.
  destruct m as [|c m']; [discriminate Hhead|]. simpl in Hhead.
  assert (Hinf : (String c m' =? "Infinity")%string = false)
    by (simpl; now rewrite (digitOrDot_not_I c Hhead)).
  destruct Hsg as [-> | [-> | ->]].
  - change ("" ++ String c m') with (String c m').
    rewrite parseSign_unsigned by (simpl; now apply digitOrDot_not_sign).
    cbv beta iota. now rewrite Hinf, Hv.
  - change ("+" ++ String c m') with (String "+" (String c m')).
    change (JS.parseSign (String "+" (String c m'))) with (false, String c m').
    cbv beta iota. now rewrite Hinf, Hv.
  - change ("-" ++ String c m') with (String "-" (String c m')).
    change (JS.parseSign (String "-" (String c m'))) with (true, String c m').
    cbv beta iota. now rewrite Hinf, Hv.
Qed.

Lemma valid_syntax_not_nan (text : string) (o : RequiredOptions) :
  isValidDecimalNumberSyntax text o = true ->
  JS.isNaN (JS.Number text) = false.
Proof.
  unfold isValidDecimalNumberSyntax.
  destruct (negb (allowLeadingPlus o) && JS.startsWith text "+"); [discriminate|].
  intros H. apply test_Match in H.
  apply reDecimal_split in H as (sg & m & -> & Hsg & Hm).
  destruct (Number_decimal sg m Hsg Hm) as (mm & ee & _ & ->).
  apply roundDecimal_not_nan.
Qed.

Lemma parseSpecial_not_Invalid (text : string) (o : RequiredOptions) (reason nt : string) :
  parseSpecial text o <> Some (Invalid reason nt).
Proof.
  unfold parseSpecial.
  destruct (matchSignBody text) as [[sg body]|]; [|discriminate].
  cbv zeta. intros H.
  repeat match type of H with
    | context [if ?b then _ else _] =>
        lazymatch b with
        | context [if _ then _ else _] => fail
        | _ => destruct b eqn:?; simpl existsb in H; simpl orb in H
        end
    end; discriminate H.
Qed.

(** C9.  For every input and every options value the result is never
    Invalid with the reason "parsed to NaN": a text that passes the
    decimal-literal grammar converts to a number that is not NaN. *)
Theorem C9_parsed_to_NaN_unreachable :
  (forall (input : string) (opts : ParseOptions) (nt : string),
     ParseFloatingInput input opts <> Invalid "parsed to NaN" nt)
  /\ (forall (text : string) (o : RequiredOptions),
       isValidDecimalNumberSyntax text o = true ->
       JS.isNaN (JS.Number text) = false).
Proof.
  split; [|exact valid_syntax_not_nan].
  intros input opts nt.
  unfold ParseFloatingInput. cbv zeta.
  set (o := spread defaultOptions opts).
  set (text := JS.trim input).
  destruct (JS.length text =? 0)%nat; [discriminate|].
  destruct (negb (allowLeadingPlus o) && JS.startsWith text "+"); [discriminate|].
  destruct (parseSpecial text o) as [special|] eqn:Hsp.
  - intros ->. now apply parseSpecial_not_Invalid in Hsp.
  - destruct (isIncompleteNumberToken text o); [discriminate|].
    destruct (isValidDecimalNumberSyntax text o) eqn:Hv;
      simpl negb; cbv iota; [|discriminate].
    rewrite (valid_syntax_not_nan text o Hv).
    match goal with
    | |- context [if ?b then _ else _] => destruct b
    end; discriminate.
Qed.

Lemma C9_parsed_to_NaN_unreachable_witness :
  ParseFloatingInput "1e400" noOptions <> Invalid "parsed to NaN" "1e400"
  /\ JS.isNaN (JS.Number "1e400") = false.
Proof.
  split.
  - exact (proj1 C9_parsed_to_NaN_unreachable "1e400" noOptions "1e400").
  - exact (proj2 C9_parsed_to_NaN_unreachable "1e400" defaultOptions eq_refl).
Defined.

End DecimalGrammar.

(* ================================================================== *)
(** * Re-feeding the normalized text                                   *)
(* ================================================================== *)

Section Idempotence.

Import Regex Parse Notions.

Lemma digitOrDot_facts (c : ascii) :
  isDigitOrDot c = true ->
  JS.toLowerChar c = c
  /\ Ascii.eqb c "n" = false /\ Ascii.eqb c "N" = false
  /\ Ascii.eqb c "i" = false /\ Ascii.eqb c "I" = false
  /\ Ascii.eqb c "+" = false /\ Ascii.eqb c "-" = false
  /\ JS.isAlpha c = false.
Proof.
  each_char c; vm_compute; intros H; try discriminate H; repeat split.
Qed.

Lemma strOr_empty (s : string) : strOr s "" = s.
Proof. unfold strOr. destruct s; reflexivity. Qed.

Lemma sliceFrom_tail (c : ascii) (s : string) : JS.sliceFrom (String c s) 1 = s.
Proof.
  unfold JS.sliceFrom. simpl String.length. rewrite Nat.sub_succ, Nat.sub_0_r.
  simpl. apply substring_all.
Qed.

Lemma prefix_plus (c : ascii) (s : string) :
  prefix "+" (String c s) = Ascii.eqb c "+".
Proof. each_char c; destruct s; reflexivity. Qed.

Lemma startsWith_plus (s : string) :
  JS.startsWith s "+" = true -> exists rest, s = String "+" rest.
Proof.
  unfold JS.startsWith. destruct s as [|c s]; [discriminate|].
  rewrite prefix_plus. intros H. apply Ascii.eqb_eq in H as ->. eauto.
Qed.

Lemma startsWith_plus_head (s : string) :
  headIs JS.isSignChar s = false -> JS.startsWith s "+" = false.
Proof.
  unfold JS.startsWith. destruct s as [|c s]; [reflexivity|].
  rewrite prefix_plus. simpl. revert c.
  intros c; each_char c; vm_compute; intros H; try discriminate H; reflexivity.
Qed.

(** What [matchSignBody] returns as the sign. *)
Lemma matchSignBody_sign (text sg body : string) :
  matchSignBody text = Some (sg, body) ->
  (sg = "" /\ JS.startsWith text "+" = false)
  \/ (sg = "+" /\ JS.startsWith text "+" = true)
  \/ (sg = "-" /\ JS.startsWith text "+" = false).
Proof.
  unfold matchSignBody. destruct (test reSignBody text); [|discriminate].
  destruct text as [|c rest].
  - intros H. injection H as <- _. now left.
  - destruct (JS.isSignChar c) eqn:Hc; intros H; injection H as <- _.
    + apply sign_cases in Hc as [-> | ->]; [right; left | right; right];
        (split; [reflexivity | unfold JS.startsWith; now rewrite prefix_plus]).
    + left. split; [reflexivity|]. apply startsWith_plus_head. exact Hc.
Qed.

Lemma chars_Match_Star (p : ascii -> bool) (s : string) :
  JS.allChars p s = true -> Match (Star (Chr p)) s.
Proof.
  induction s as [|c s IH]; simpl; intros H; [constructor|].
  apply andb_true_iff in H as [Hc Hs].
  change (String c s) with (String c "" ++ s).
  constructor; [now constructor | now apply IH].
Qed.

Lemma signBody_char_any (c : ascii) :
  occurs reSignBody c = true -> JS.isAnyChar c = true.
Proof. each_char c; vm_compute; intros H; try discriminate H; reflexivity. Qed.

(** The two groups returned by [matchSignBody] are a match of the
    expression: an optional sign, then a line-terminator-free rest. *)
Lemma matchSignBody_parts (text sg body : string) :
  matchSignBody text = Some (sg, body) ->
  text = sg ++ body /\ Match (Opt sign) sg /\ Match (Star (Chr JS.isAnyChar)) body.
Proof.
  unfold matchSignBody. destruct (test reSignBody text) eqn:Ht; [|discriminate].
  apply test_Match, Match_occurs in Ht.
  apply (allChars_weaken _ _ _ signBody_char_any) in Ht.
  destruct text as [|c rest].
  - intros H. injection H as <- <-. repeat split; [apply MAltR|]; constructor.
  - simpl in Ht. apply andb_true_iff in Ht as [Hc Hrest].
    destruct (JS.isSignChar c) eqn:Hs; intros H; injection H as <- <-.
    + repeat split.
      * apply MAltL. now constructor.
      * now apply chars_Match_Star.
    + repeat split.
      * apply MAltR. constructor.
      * apply chars_Match_Star. simpl. now rewrite Hc, Hrest.
Qed.

(** A Valid result of [parseSpecial] is one of the two tokens. *)
Lemma parseSpecial_Valid (text : string) (o : RequiredOptions) (v : JS.number) (t : string) :
  parseSpecial text o = Some (Valid v t) ->
  exists sg,
    ((sg = "" /\ JS.startsWith text "+" = false)
     \/ (sg = "+" /\ JS.startsWith text "+" = true)
     \/ (sg = "-" /\ JS.startsWith text "+" = false))
    /\ ((v = JS.NaN /\ t = sg ++ "NaN" /\ allowNaN o = true)
        \/ (v = (if (sg =? "-")%string then JS.negInfinity else JS.Infinity)
            /\ t = sg ++ "Infinity" /\ allowInfinitySynonyms o = true)).
Proof.
  unfold parseSpecial.
  destruct (matchSignBody text) as [[sg body]|] eqn:Hm; [|discriminate].
  apply matchSignBody_sign in Hm.
  cbv zeta. rewrite strOr_empty. intros H. exists sg. split; [exact Hm|]. clear Hm.
  destruct (allowNaN o) eqn:Hnan, (allowInfinitySynonyms o) eqn:Hinf,
           (caseInsensitiveSpecials o) eqn:Hci;
    repeat match type of H with
      | context [if ?b then _ else _] =>
          lazymatch b with
          | context [if _ then _ else _] => fail
          | (sg =? "-")%string => fail
          | _ => destruct b eqn:?; simpl existsb in H; simpl orb in H
          end
      end; try discriminate H; injection H as <- <-; auto.
Qed.

(** A text that starts with a digit or a dot is no special token. *)
Lemma parseSpecial_unsigned (m : string) (o : RequiredOptions) :
  headIs isDigitOrDot m = true -> parseSpecial m o = None.
Proof.
  destruct m as [|c m']; [discriminate|]. simpl. intros Hc.
  destruct (digitOrDot_facts c Hc) as (Hlow & Hn & HN & Hi & HI & _ & _ & Halpha).
  assert (Hsign : JS.isSignChar c = false) by now apply digitOrDot_not_sign.
  assert (Hnotalpha : isAlphaOnly (String c m') = false).
  { destruct (isAlphaOnly (String c m')) eqn:E; [|reflexivity].
    apply test_Match, Match_Plus_chars in E as (c' & s' & E & Hc' & _).
    injection E as <- _. congruence. }
  unfold parseSpecial, matchSignBody.
  destruct (test reSignBody (String c m')); [|reflexivity].
  rewrite Hsign. cbv zeta. rewrite Hnotalpha.
  destruct (allowNaN o), (allowInfinitySynonyms o), (caseInsensitiveSpecials o);
    simpl; rewrite ?Hlow, ?Hn, ?HN, ?Hi, ?HI; simpl; rewrite ?andb_false_r; reflexivity.
Qed.

(** Dropping a leading plus keeps a text out of the two
    exponent-in-progress expressions. *)
Lemma plus_prefix_Match (R : re) (m : string) :
  headIs JS.isSignChar m = false ->
  Match (Cat (Opt sign) R) m -> Match (Cat (Opt sign) R) (String "+" m).
Proof.
  intros Hhead H.
  apply Match_Cat_inv in H as (s1 & s2 & -> & H1 & H2).
  apply Match_optsign in H1 as [-> | [-> | ->]]; try discriminate Hhead.
  change (String "+" ("" ++ s2)) with ("+" ++ s2).
  constructor; [|assumption]. apply MAltL. now constructor.
Qed.

Lemma plus_prefix_test (R : re) (m : string) :
  headIs JS.isSignChar m = false ->
  test (Cat (Opt sign) R) (String "+" m) = false ->
  test (Cat (Opt sign) R) m = false.
Proof.
  intros Hhead Hf.
  destruct (test (Cat (Opt sign) R) m) eqn:E; [|reflexivity].
  apply test_Match in E. apply (plus_prefix_Match R m Hhead), test_Match in E.
  congruence.
Qed.

Lemma isIncomplete_without_plus (m : string) (o : RequiredOptions) :
  headIs isDigitOrDot m = true ->
  allowLeadingPlus o = true ->
  isIncompleteNumberToken (String "+" m) o = None ->
  isIncompleteNumberToken m o = None.
Proof.
  destruct m as [|c m']; [discriminate|]. simpl headIs. intros Hc Hplus.
  destruct (digitOrDot_facts c Hc) as (_ & _ & _ & _ & _ & Hp & Hm & _).
  assert (Hsign : headIs JS.isSignChar (String c m') = false)
    by (simpl; now apply digitOrDot_not_sign).
  unfold isIncompleteNumberToken. rewrite Hplus.
  change (String "+" (String c m') =? "-")%string with false.
  change (String "+" (String c m') =? "+")%string with false.
  change (String "+" (String c m') =? ".")%string with false.
  change (String "+" (String c m') =? "-.")%string with false.
  change (String "+" (String c m') =? "+.")%string with (String c m' =? ".")%string.
  simpl orb. simpl andb. rewrite Hp, Hm. cbv iota. simpl orb.
  destruct (if (c =? ".")%char then (m' =? "")%string else false);
    [intros H; discriminate H|].
  destruct (test reExponentMarker (String "+" (String c m'))) eqn:E1;
    [intros H; discriminate H|].
  destruct (test reExponentSign (String "+" (String c m'))) eqn:E2;
    [intros H; discriminate H|].
  intros _. unfold reExponentMarker, reExponentSign in *.
  now rewrite (plus_prefix_test _ _ Hsign E1), (plus_prefix_test _ _ Hsign E2).
Qed.

Lemma ParseFloatingInput_trimmed (input : string) (opts : ParseOptions) :
  JS.trim (JS.trim input) = JS.trim input ->
  ParseFloatingInput (JS.trim input) opts = ParseFloatingInput input opts.
Proof. unfold ParseFloatingInput. cbv zeta. intros ->. reflexivity. Qed.


(** The two special tokens in normalized form are read back as
    themselves under every options value that let them through. *)
Lemma special_refeed (sg : string) (opts : ParseOptions) :
  sg = "" \/ sg = "+" \/ sg = "-" ->
  negb (allowLeadingPlus (spread defaultOptions opts)) && (sg =? "+")%string = false ->
  (allowNaN (spread defaultOptions opts) = true ->
     ParseFloatingInput (sg ++ "NaN") opts = Valid JS.NaN (sg ++ "NaN"))
  /\ (allowInfinitySynonyms (spread defaultOptions opts) = true ->
     ParseFloatingInput (sg ++ "Infinity") opts
       = Valid (if (sg =? "-")%string then JS.negInfinity else JS.Infinity)
               (sg ++ "Infinity")).
Proof.
  intros Hsg Hplus.
  destruct opts as [[[]|] [[]|] [[]|] [[]|]];
    destruct Hsg as [-> | [-> | ->]];
    vm_compute in Hplus; try discriminate Hplus;
    split; vm_compute; intros H; try discriminate H; reflexivity.
Qed.

(** The numeric text without its leading plus is read back with the
    same value. *)
Lemma unsigned_refeed (m : string) (opts : ParseOptions) :
  Match unsignedDecimal m ->
  allowLeadingPlus (spread defaultOptions opts) = true ->
  isIncompleteNumberToken (String "+" m) (spread defaultOptions opts) = None ->
  JS.isNaN (JS.Number (String "+" m)) = false ->
  negb (allowInfinitySynonyms (spread defaultOptions opts))
    && negb (JS.isFinite (JS.Number (String "+" m))) = false ->
  ParseFloatingInput m opts = Valid (JS.Number (String "+" m)) m.
Proof.
  intros HM Halp Hinc Hnan Hfin.
  assert (Hor : "" = "" \/ "" = "+" \/ "" = "-") by now left.
  assert (Hplus : "+" = "" \/ "+" = "+" \/ "+" = "-") by (right; now left).
  pose proof (reDecimal_join "" m Hor HM) as Hdec.
  change ("" ++ m) with m in Hdec.
  destruct (parseUnsignedDecimal_ok m HM) as (_ & Hhead).
  assert (Hnum : JS.Number m = JS.Number (String "+" m)).
  { destruct (Number_decimal "" m Hor HM) as (mm & ee & Hp & Hn).
    destruct (Number_decimal "+" m Hplus HM) as (mm' & ee' & Hp' & Hn').
    change ("" ++ m) with m in Hn. change ("+" ++ m) with (String "+" m) in Hn'.
    rewrite Hn, Hn'. rewrite Hp in Hp'. now injection Hp' as <- <-. }
  assert (Hsign : headIs JS.isSignChar m = false).
  { destruct m as [|c m']; [reflexivity|]. simpl in *. now apply digitOrDot_not_sign. }
  unfold ParseFloatingInput. cbv zeta.
  rewrite (decimal_trimmed m Hdec).
  destruct m as [|c m']; [discriminate Hhead|].
  change (JS.length (String c m') =? 0)%nat with false. cbv iota.
  rewrite Halp. cbn [negb andb].
  rewrite parseSpecial_unsigned by exact Hhead.
  rewrite (isIncomplete_without_plus _ _ Hhead Halp Hinc).
  unfold isValidDecimalNumberSyntax. rewrite Halp. cbn [negb andb].
  apply test_Match in Hdec. rewrite Hdec. cbn [negb].
  rewrite Hnum, Hnan, Hfin.
  unfold normalizeNumericText. rewrite (startsWith_plus_head _ Hsign).
  rewrite andb_false_r. reflexivity.
Qed.

(** C7.  Whenever an input is Valid with value v and normalized text t
    under some options, feeding t back under the same options is Valid
    again with the same value (NaN included) and the same normalized
    text. *)
Theorem C7_refeeding_normalized_text
        (s : string) (opts : ParseOptions) (v : JS.number) (t : string) :
  ParseFloatingInput s opts = Valid v t ->
  ParseFloatingInput t opts = Valid v t.
Proof.
  intros H. pose proof H as H0.
  unfold ParseFloatingInput in H. cbv zeta in H.
  destruct (JS.length (JS.trim s) =? 0)%nat; [discriminate H|].
  destruct (negb (allowLeadingPlus (spread defaultOptions opts))
            && JS.startsWith (JS.trim s) "+") eqn:Hplus; [discriminate H|].
  destruct (parseSpecial (JS.trim s) (spread defaultOptions opts)) as [special|] eqn:Hsp.
  - subst special. apply parseSpecial_Valid in Hsp as (sg & Hsg & Htok).
    assert (Hsg' : sg = "" \/ sg = "+" \/ sg = "-") by tauto.
    assert (Hplus' : negb (allowLeadingPlus (spread defaultOptions opts))
                     && (sg =? "+")%string = false).
    { destruct Hsg as [[-> _] | [[-> E] | [-> _]]];
        [apply andb_false_r | now rewrite E in Hplus | apply andb_false_r]. }
    destruct (special_refeed sg opts Hsg' Hplus') as [Hnan Hinf].
    destruct Htok as [(-> & -> & E) | (-> & -> & E)]; auto.
  - destruct (isIncompleteNumberToken (JS.trim s) (spread defaultOptions opts)) eqn:Hinc;
      [discriminate H|].
    destruct (isValidDecimalNumberSyntax (JS.trim s) (spread defaultOptions opts)) eqn:Hv;
      cbn [negb] in H; [|discriminate H].
    destruct (JS.isNaN (JS.Number (JS.trim s))) eqn:Hnan; [discriminate H|].
    destruct (negb (allowInfinitySynonyms (spread defaultOptions opts))
              && negb (JS.isFinite (JS.Number (JS.trim s)))) eqn:Hfin; [discriminate H|].
    injection H as <- <-.
    assert (HM : Match reDecimal (JS.trim s)).
    { unfold isValidDecimalNumberSyntax in Hv. rewrite Hplus in Hv.
      now apply test_Match. }
    pose proof (decimal_trimmed _ HM) as Htrim.
    unfold normalizeNumericText in *.
    destruct (allowLeadingPlus (spread defaultOptions opts)
              && JS.startsWith (JS.trim s) "+") eqn:Hstrip.
    + apply andb_true_iff in Hstrip as [Halp Hstart].
      apply startsWith_plus in Hstart as (rest & Erest).
      rewrite Erest in *. rewrite sliceFrom_tail.
      apply reDecimal_split in HM as (sg & m & E & Hsg & Hm).
      destruct (parseUnsignedDecimal_ok m Hm) as (_ & Hhead).
      destruct Hsg as [-> | [-> | ->]].
      * simpl in E. subst m. simpl in Hhead. discriminate Hhead.
      * simpl in E. injection E as ->. now apply unsigned_refeed.
      * discriminate E.
    + rewrite <- H0. now apply ParseFloatingInput_trimmed.
Qed.

Lemma C7_refeeding_normalized_text_witness :
  ParseFloatingInput " +1.5e3 " noOptions
    = Valid (S754_finite false 6597069766656000 (-42)) "1.5e3"
  /\ ParseFloatingInput "1.5e3" noOptions
    = Valid (S754_finite false 6597069766656000 (-42)) "1.5e3".
Proof.
  assert (H : ParseFloatingInput " +1.5e3 " noOptions
              = Valid (S754_finite false 6597069766656000 (-42)) "1.5e3")
    by (vm_compute; reflexivity).
  split; [exact H|].
  exact (C7_refeeding_normalized_text " +1.5e3 " noOptions _ _ H).
Defined.

End Idempotence.

(* ================================================================== *)
(** * Digits of an integer                                             *)
(* ================================================================== *)

Section Digits.

Import Render.
Local Open Scope Z_scope.

Lemma length_repeat (c : ascii) (n : nat) : String.length (JS.repeat c n) = n.
Proof. induction n as [|n IH]; simpl; [reflexivity | now rewrite IH]. Qed.

Lemma length_digitsFixed (radix : Z) (w : nat) (n : Z) :
  String.length (digitsFixed radix w n) = w.
Proof.
  revert n. induction w as [|w IH]; intros n; simpl; [reflexivity|].
  rewrite length_append, IH. simpl. lia.
Qed.

Lemma digitsFixed_zero (radix : Z) (w : nat) :
  digitsFixed radix w 0 = JS.repeat "0" w.
Proof.
  induction w as [|w IH]; simpl; [reflexivity|].
  rewrite Zdiv_0_l, Zmod_0_l, IH. change (JS.digitChar 0) with "0"%char.
  clear IH. induction w as [|w IH]; simpl; [reflexivity | now rewrite IH].
Qed.

Lemma repeat_app_tail (c : ascii) (z : nat) (s : string) :
  JS.repeat c z ++ String c s = JS.repeat c (S z) ++ s.
Proof. induction z as [|z IH]; simpl; [reflexivity | now rewrite IH]. Qed.

(** The digit loop: with enough turns it yields the shortest digit
    string of [n], which is [digitsFixed] at any sufficient width minus
    its leading zeros. *)
Lemma toDigits_fixed (radix : Z) :
  2 <= radix ->
  forall (fuel : nat) (n : Z) (acc : string) (w : nat),
    0 <= n < radix ^ Z.of_nat fuel -> n < radix ^ Z.of_nat w ->
    (1 <= fuel)%nat -> (1 <= w)%nat ->
    exists (z : nat) (out : string),
      JS.toDigits fuel radix n acc = out ++ acc
      /\ JS.repeat "0" z ++ out = digitsFixed radix w n.
Proof.
  intros Hr. induction fuel as [|fuel IH]; intros n acc w Hn Hw Hf Hw1; [lia|].
  destruct w as [|w]; [lia|].
  simpl JS.toDigits. simpl digitsFixed.
  assert (Hq : 0 <= n / radix) by (apply Z.div_pos; lia).
  destruct (n / radix =? 0) eqn:Eq.
  - apply Z.eqb_eq in Eq. rewrite Eq, digitsFixed_zero.
    exists w, (String (JS.digitChar (n mod radix)) ""). split; reflexivity.
  - apply Z.eqb_neq in Eq.
    assert (Hpow : forall k : nat, n < radix ^ Z.of_nat (S k) -> n / radix < radix ^ Z.of_nat k).
    { intros k Hk. apply Z.div_lt_upper_bound; [lia|].
      rewrite Nat2Z.inj_succ, Z.pow_succ_r in Hk by lia. exact Hk. }
    assert (Hfuel : (1 <= fuel)%nat).
    { destruct fuel; [|lia]. specialize (Hpow 0%nat (proj2 Hn)). simpl in Hpow. lia. }
    assert (Hw' : (1 <= w)%nat).
    { destruct w; [|lia]. specialize (Hpow 0%nat Hw). simpl in Hpow. lia. }
    destruct (IH (n / radix) (String (JS.digitChar (n mod radix)) acc) w
                 (conj Hq (Hpow fuel (proj2 Hn))) (Hpow w Hw) Hfuel Hw')
      as (z & out & Hout & Hfix).
    exists z, (out ++ String (JS.digitChar (n mod radix)) "").
    split.
    + rewrite Hout, append_assoc. reflexivity.
    + rewrite <- Hfix, append_assoc. reflexivity.
Qed.

(** [n.toString(radix).padStart(w, "0")] is the fixed-width rendering. *)
Lemma padStart_digitsOf (radix : Z) (w : nat) (n : Z) :
  2 <= radix -> (1 <= w)%nat -> 0 <= n < radix ^ Z.of_nat w ->
  JS.padStart (JS.digitsOf radix n) w "0" = digitsFixed radix w n.
Proof.
  intros Hr Hw Hn. unfold JS.digitsOf.
  assert (Hfuel : n < radix ^ Z.of_nat (S (Z.to_nat (Z.log2 n)))).
  { rewrite Nat2Z.inj_succ, Z2Nat.id by apply Z.log2_nonneg.
    destruct (Z.eq_dec n 0) as [-> | Hn0].
    - simpl. lia.
    - apply Z.lt_le_trans with (2 ^ Z.succ (Z.log2 n)).
      + apply Z.log2_spec. lia.
      + apply Z.pow_le_mono_l. lia. }
  destruct (toDigits_fixed radix Hr _ n "" w (conj (proj1 Hn) Hfuel) (proj2 Hn)
              ltac:(lia) Hw) as (z & out & Hout & Hfix).
  rewrite Hout, append_nil_r. unfold JS.padStart.
  assert (Hlen : (z + String.length out = w)%nat).
  { rewrite <- (length_digitsFixed radix w n), <- Hfix, length_append, length_repeat.
    reflexivity. }
  replace (w - String.length out)%nat with z by lia.
  exact Hfix.
Qed.

Lemma ushr_0 (u : Z) : JS.ushr u 0 = u mod 2 ^ 32.
Proof. unfold JS.ushr, JS.toUint32. now rewrite Z.land_0_l, Z.shiftr_0_r. Qed.

Lemma mod32_range (u : Z) : 0 <= u mod 2 ^ 32 < 2 ^ 32.
Proof. apply Z.mod_pos_bound. lia. Qed.

Lemma toBitsString32_fixed (u : Z) :
  Ieee754.toBitsString32 u = digitsFixed 2 32 (u mod 2 ^ 32).
Proof.
  unfold Ieee754.toBitsString32, JS.Number_toString. rewrite ushr_0.
  pose proof (mod32_range u) as Hu.
  destruct (u mod 2 ^ 32 <? 0) eqn:E; [apply Z.ltb_lt in E; lia|].
  apply padStart_digitsOf; [lia | lia | exact Hu].
Qed.

Lemma toHex32_fixed (u : Z) :
  Ieee754.toHex32 u = digitsFixed 16 8 (u mod 2 ^ 32).
Proof.
  unfold Ieee754.toHex32, JS.Number_toString. rewrite ushr_0.
  pose proof (mod32_range u) as Hu.
  destruct (u mod 2 ^ 32 <? 0) eqn:E; [apply Z.ltb_lt in E; lia|].
  apply padStart_digitsOf; [lia | lia | exact Hu].
Qed.

End Digits.

(* ================================================================== *)
(** * Slices and counted loops                                         *)
(* ================================================================== *)

Section Slices.

Import Render.

Lemma length_substring (s : string) :
  forall i n, String.length (substring i n s) = Nat.min n (String.length s - i).
Proof.
  induction s as [|c s IH]; intros i n.
  - destruct i, n; reflexivity.
  - destruct i as [|i].
    + destruct n as [|n]; [reflexivity|]. simpl. now rewrite IH, Nat.sub_0_r.
    + simpl. apply IH.
Qed.

Lemma allChars_substring (p : ascii -> bool) (s : string) :
  JS.allChars p s = true ->
  forall i n, JS.allChars p (substring i n s) = true.
Proof.
  induction s as [|c s IH]; intros H i n.
  - destruct i, n; reflexivity.
  - simpl in H. apply andb_true_iff in H as [Hc Hs].
    destruct i as [|i].
    + destruct n as [|n]; [reflexivity|]. simpl. now rewrite Hc, IH.
    + simpl. now apply IH.
Qed.

Lemma substring_split (s : string) :
  forall i a b,
    substring i (a + b) s = substring i a s ++ substring (i + a) b s.
Proof.
  induction s as [|c s IH]; intros i a b.
  - destruct i, a, b; reflexivity.
  - destruct i as [|i].
    + destruct a as [|a]; [reflexivity|].
      simpl. now rewrite IH.
    + simpl. apply IH.
Qed.

(** The pieces have the given sizes and make up the string again,
    when the sizes add up to its length. *)
Lemma chunksOf_spec (sizes : list nat) :
  forall s, String.length s = list_sum sizes ->
    map String.length (chunksOf sizes s) = sizes
    /\ fold_right append "" (chunksOf sizes s) = s.
Proof.
  induction sizes as [|k rest IH]; intros s Hs; simpl in *.
  - destruct s; [now split | discriminate Hs].
  - destruct (IH (substring k (String.length s - k) s)) as [Hl Hc].
    { rewrite length_substring. lia. }
    rewrite Hl, Hc, length_substring. split.
    + f_equal. lia.
    + transitivity (substring 0 (k + (String.length s - k)) s).
      * symmetry. apply (substring_split s 0 k).
      * replace (k + (String.length s - k))%nat with (String.length s) by lia.
        apply substring_all.
Qed.

Lemma groupedAs_intro (sizes : list nat) (s grouped : string) :
  String.length s = list_sum sizes ->
  grouped = JS.join " " (chunksOf sizes s) ->
  groupedAs sizes s grouped.
Proof.
  intros Hl Hg. destruct (chunksOf_spec sizes s Hl) as [H1 H2].
  repeat split; assumption.
Qed.

(** A counted loop with a positive step leaves by its test within
    [bound - i] turns: more fuel changes nothing. *)
Lemma forLoop_fuel {A : Type} (bound step : nat) (body : nat -> A -> A) :
  (0 < step)%nat ->
  forall fuel fuel' i acc,
    (bound - i <= fuel)%nat -> (bound - i <= fuel')%nat ->
    JS.forLoop fuel i bound step body acc = JS.forLoop fuel' i bound step body acc.
Proof.
  intros Hstep. induction fuel as [|fuel IH]; intros fuel' i acc Hf Hf'.
  - destruct fuel' as [|fuel']; [reflexivity|]. simpl.
    destruct (i <? bound)%nat eqn:E; [|reflexivity].
    apply Nat.ltb_lt in E. lia.
  - simpl. destruct (i <? bound)%nat eqn:E.
    + apply Nat.ltb_lt in E.
      destruct fuel' as [|fuel']; [lia|]. simpl.
      apply Nat.ltb_lt in E. rewrite E. apply IH; lia.
    + destruct fuel' as [|fuel']; [reflexivity|]. simpl. now rewrite E.
Qed.

End Slices.

(* ================================================================== *)
(** * Grouped serializations                                           *)
(* ================================================================== *)

Section Grouping.

Import Render Ieee754.

Lemma groupEvery_4_52 (m : string) :
  String.length m = 52%nat ->
  groupEvery m 4 " " = JS.join " " (chunksOf (List.repeat 4%nat 13) m).
Proof. intros H. explode m H. reflexivity. Qed.

Lemma groupEvery_4_23 (m : string) :
  String.length m = 23%nat ->
  groupWithRemainderAtEnd m 4 " " = JS.join " " (chunksOf [4; 4; 4; 4; 4; 3]%nat m).
Proof. intros H. explode m H. reflexivity. Qed.

Lemma groupEvery_2_16 (h : string) :
  String.length h = 16%nat ->
  groupEvery h 2 " " = JS.join " " (chunksOf (List.repeat 2%nat 8) h).
Proof. intros H. explode h H. reflexivity. Qed.

Lemma groupEvery_2_8 (h : string) :
  String.length h = 8%nat ->
  groupEvery h 2 " " = JS.join " " (chunksOf (List.repeat 2%nat 4) h).
Proof. intros H. explode h H. reflexivity. Qed.

Lemma exponent_3_4_4 (e : string) :
  String.length e = 11%nat ->
  JS.slice e 0 3 ++ " " ++ JS.slice e 3 7 ++ " " ++ JS.slice e 7 11
    = JS.join " " (chunksOf [3; 4; 4]%nat e).
Proof. intros H. explode e H. reflexivity. Qed.

Lemma bitsToHexPadded_52 (m : string) :
  String.length m = 52%nat ->
  bitsToHexPadded m
    = fold_left (fun hex nib => hex ++ nibbleHex nib) (chunksOf (List.repeat 4%nat 13) m) "".
Proof. intros H. explode m H. reflexivity. Qed.

Lemma bitsToHexPadded_23 (m : string) :
  String.length m = 23%nat ->
  bitsToHexPadded m
    = fold_left (fun hex nib => hex ++ nibbleHex nib)
                (chunksOf (List.repeat 4%nat 6) (String "0" m)) "".
Proof. intros H. explode m H. reflexivity. Qed.

Lemma bit_cases (c : ascii) : isBit c = true -> c = "0"%char \/ c = "1"%char.
Proof. each_char c; vm_compute; intros H; try discriminate H; auto. Qed.

(** Four binary digits are rendered as one hexadecimal digit. *)
Lemma nibbleHex_digit (nib : string) :
  String.length nib = 4%nat -> JS.allChars isBit nib = true ->
  exists c, nibbleHex nib = String c "" /\ isHexDigit c = true.
Proof.
  intros H Hb. explode nib H. simpl in Hb.
  repeat match type of Hb with
    | _ && _ = true => let Hc := fresh "Hc" in apply andb_true_iff in Hb as [Hc Hb]
    end.
  repeat match goal with
    | Hc : isBit _ = true |- _ => apply bit_cases in Hc as [-> | ->]
    end; vm_compute; eexists; split; reflexivity.
Qed.

Lemma chunksOf_allChars (p : ascii -> bool) (sizes : list nat) :
  forall s, JS.allChars p s = true ->
    Forall (fun ch => JS.allChars p ch = true) (chunksOf sizes s).
Proof.
  induction sizes as [|k rest IH]; intros s Hs; simpl; constructor.
  - now apply allChars_substring.
  - apply IH. now apply allChars_substring.
Qed.

Lemma fold_nibbles (chunks : list string) :
  Forall (fun ch => String.length ch = 4%nat) chunks ->
  Forall (fun ch => JS.allChars isBit ch = true) chunks ->
  forall acc,
    JS.allChars isHexDigit acc = true ->
    String.length (fold_left (fun hex nib => hex ++ nibbleHex nib) chunks acc)
      = (String.length acc + List.length chunks)%nat
    /\ JS.allChars isHexDigit
         (fold_left (fun hex nib => hex ++ nibbleHex nib) chunks acc) = true.
Proof.
  induction chunks as [|ch chunks IH]; intros Hl Hb acc Hacc; simpl.
  - split; [lia | exact Hacc].
  - inversion Hl as [|? ? Hl1 Hl2]; inversion Hb as [|? ? Hb1 Hb2]; subst.
    destruct (nibbleHex_digit ch Hl1 Hb1) as (c & Ec & Hc).
    destruct (IH Hl2 Hb2 (acc ++ nibbleHex ch)) as [IHl IHc].
    { rewrite allChars_app, Hacc, Ec. simpl. now rewrite Hc. }
    split; [|exact IHc].
    rewrite IHl, length_append, Ec. simpl. lia.
Qed.

Lemma lengths_Forall (k : nat) (chunks : list string) (n : nat) :
  map String.length chunks = List.repeat k n ->
  Forall (fun ch => String.length ch = k) chunks.
Proof.
  revert n. induction chunks as [|ch chunks IH]; intros n H; constructor;
    destruct n as [|n]; simpl in H; try discriminate H; injection H as H1 H2.
  - exact H1.
  - now apply IH with n.
Qed.

(** The zero-padded hexadecimal payload of a string of [4 * k] binary
    digits has exactly [k] hexadecimal digits. *)
Lemma nibbles_hex (k : nat) (s : string) :
  String.length s = (4 * k)%nat -> JS.allChars isBit s = true ->
  let out := fold_left (fun hex nib => hex ++ nibbleHex nib)
                       (chunksOf (List.repeat 4%nat k) s) "" in
  String.length out = k /\ JS.allChars isHexDigit out = true.
Proof.
  intros Hlen Hbits.
  assert (Hsum : String.length s = list_sum (List.repeat 4%nat k)).
  { rewrite Hlen. clear. induction k as [|k IH]; simpl; [reflexivity | lia]. }
  destruct (chunksOf_spec _ s Hsum) as [Hl _].
  destruct (fold_nibbles (chunksOf (List.repeat 4%nat k) s)
              (lengths_Forall 4 _ k Hl) (chunksOf_allChars isBit _ s Hbits)
              "" eq_refl) as [H1 H2].
  split; [|exact H2].
  rewrite H1. simpl.
  rewrite <- (length_map String.length), Hl. apply repeat_length.
Qed.

End Grouping.

Section GroupedShapes.

Import Render Ieee754.
Local Open Scope Z_scope.

Lemma allChars_bits (w : nat) (n : Z) :
  JS.allChars isBit (digitsFixed 2 w n) = true.
Proof.
  revert n. induction w as [|w IH]; intros n; simpl; [reflexivity|].
  rewrite allChars_app, IH. simpl.
  destruct (Z.mod_pos_bound n 2 ltac:(lia)) as [H0 H1].
  assert (E : n mod 2 = 0 \/ n mod 2 = 1) by lia.
  destruct E as [-> | ->]; reflexivity.
Qed.

Lemma allChars_hex (w : nat) (n : Z) :
  JS.allChars isHexDigit (digitsFixed 16 w n) = true.
Proof.
  revert n. induction w as [|w IH]; intros n; simpl; [reflexivity|].
  rewrite allChars_app, IH. simpl.
  destruct (Z.mod_pos_bound n 16 ltac:(lia)) as [H0 H1].
  assert (E : n mod 16 = 0 \/ n mod 16 = 1 \/ n mod 16 = 2 \/ n mod 16 = 3
              \/ n mod 16 = 4 \/ n mod 16 = 5 \/ n mod 16 = 6 \/ n mod 16 = 7
              \/ n mod 16 = 8 \/ n mod 16 = 9 \/ n mod 16 = 10 \/ n mod 16 = 11
              \/ n mod 16 = 12 \/ n mod 16 = 13 \/ n mod 16 = 14 \/ n mod 16 = 15) by lia.
  repeat (destruct E as [-> | E]; [reflexivity|]).
  rewrite E. reflexivity.
Qed.

Lemma bits32_shape (v : JS.number) :
  String.length (bits32 (float32Bits v)) = 32%nat
  /\ JS.allChars isBit (bits32 (float32Bits v)) = true.
Proof.
  unfold float32Bits. cbv zeta. cbn [bits32].
  rewrite toBitsString32_fixed. split.
  - apply length_digitsFixed.
  - apply allChars_bits.
Qed.

Lemma bits64_shape (v : JS.number) :
  String.length (bits (float64Bits v)) = 64%nat
  /\ JS.allChars isBit (bits (float64Bits v)) = true.
Proof.
  unfold float64Bits. cbv zeta. cbn [bits].
  unfold toBitsString64. rewrite !toBitsString32_fixed. split.
  - now rewrite length_append, !length_digitsFixed.
  - now rewrite allChars_app, !allChars_bits.
Qed.

Lemma hex32_shape (v : JS.number) :
  String.length (hex32 (float32Bits v)) = 8%nat
  /\ JS.allChars isHexDigit (hex32 (float32Bits v)) = true.
Proof.
  unfold float32Bits. cbv zeta. cbn [hex32].
  rewrite toHex32_fixed. split.
  - apply length_digitsFixed.
  - apply allChars_hex.
Qed.

Lemma hex64_shape (v : JS.number) :
  String.length (hex (float64Bits v)) = 16%nat
  /\ JS.allChars isHexDigit (hex (float64Bits v)) = true.
Proof.
  unfold float64Bits. cbv zeta. cbn [hex].
  unfold toHex64. rewrite !toHex32_fixed. split.
  - now rewrite length_append, !length_digitsFixed.
  - now rewrite allChars_app, !allChars_hex.
Qed.

Lemma mantissa64_shape (v : JS.number) :
  String.length (mantissaBitsStr (float64Bits v)) = 52%nat
  /\ JS.allChars isBit (mantissaBitsStr (float64Bits v)) = true.
Proof.
  destruct (bits64_shape v) as [Hl Hb].
  change (mantissaBitsStr (float64Bits v))
    with (JS.sliceFrom (bits (float64Bits v)) 12).
  unfold JS.sliceFrom. split.
  - rewrite length_substring, Hl. reflexivity.
  - now apply allChars_substring.
Qed.

Lemma mantissa32_shape (v : JS.number) :
  String.length (mantissaBitsStr32 (float32Bits v)) = 23%nat
  /\ JS.allChars isBit (mantissaBitsStr32 (float32Bits v)) = true.
Proof.
  destruct (bits32_shape v) as [Hl Hb].
  change (mantissaBitsStr32 (float32Bits v))
    with (JS.sliceFrom (bits32 (float32Bits v)) 9).
  unfold JS.sliceFrom. split.
  - rewrite length_substring, Hl. reflexivity.
  - now apply allChars_substring.
Qed.

Lemma exponent64_shape (v : JS.number) :
  String.length (exponentBitsStr (float64Bits v)) = 11%nat
  /\ JS.allChars isBit (exponentBitsStr (float64Bits v)) = true.
Proof.
  destruct (bits64_shape v) as [Hl Hb].
  change (exponentBitsStr (float64Bits v))
    with (JS.slice (bits (float64Bits v)) 1 12).
  unfold JS.slice. split.
  - rewrite length_substring, Hl. reflexivity.
  - now apply allChars_substring.
Qed.

Lemma padStart_full (s : string) (n : nat) (c : ascii) :
  String.length s = n -> JS.padStart s n c = s.
Proof. intros <-. unfold JS.padStart. now rewrite Nat.sub_diag. Qed.

Lemma payload64_shape (v : JS.number) :
  String.length (payloadHexPadded (float64Bits v)) = 13%nat
  /\ JS.allChars isHexDigit (payloadHexPadded (float64Bits v)) = true.
Proof.
  destruct (mantissa64_shape v) as [Hl Hb].
  change (payloadHexPadded (float64Bits v))
    with (JS.padStart (bitsToHexPadded (mantissaBitsStr (float64Bits v))) 13 "0").
  rewrite (bitsToHexPadded_52 _ Hl).
  destruct (nibbles_hex 13 _ Hl Hb) as [H1 H2].
  rewrite (padStart_full _ _ _ H1). now split.
Qed.

Lemma payload32_shape (v : JS.number) :
  String.length (payloadHexPadded32 (float32Bits v)) = 6%nat
  /\ JS.allChars isHexDigit (payloadHexPadded32 (float32Bits v)) = true.
Proof.
  destruct (mantissa32_shape v) as [Hl Hb].
  change (payloadHexPadded32 (float32Bits v))
    with (JS.padStart (bitsToHexPadded (mantissaBitsStr32 (float32Bits v))) 6 "0").
  rewrite (bitsToHexPadded_23 _ Hl).
  generalize dependent (mantissaBitsStr32 (float32Bits v)). intros m Hl Hb.
  destruct (nibbles_hex 6 (String "0" m)) as [H1 H2].
  - simpl. now rewrite Hl.
  - simpl. exact Hb.
  - rewrite (padStart_full _ _ _ H1). now split.
Qed.

(** C8.  The grouped serializations have fixed shapes: the 11-bit
    exponent string of float64Bits is grouped as 3+4+4; its 52-bit
    mantissa string as thirteen groups of 4 and its padded payload has
    exactly 13 hexadecimal digits; the 23-bit mantissa string of
    float32Bits is grouped as five groups of 4 and a last group of 3 and
    its padded payload has exactly 6 hexadecimal digits; the payload bit
    strings and groupings are the mantissa ones; hexGrouped is the hex
    string in 2-character bytes joined by single spaces, "3f 80 00 00"
    for float32Bits(1.0). *)
Theorem C8_grouped_shapes (v : JS.number) :
  (groupedAs [3; 4; 4]%nat (exponentBitsStr (float64Bits v)) (exponentGrouped4 (float64Bits v))
   /\ JS.allChars isBit (exponentBitsStr (float64Bits v)) = true)
  /\ (groupedAs (List.repeat 4%nat 13)
                (mantissaBitsStr (float64Bits v)) (mantissaGrouped4 (float64Bits v))
      /\ JS.allChars isBit (mantissaBitsStr (float64Bits v)) = true)
  /\ (String.length (payloadHexPadded (float64Bits v)) = 13%nat
      /\ JS.allChars isHexDigit (payloadHexPadded (float64Bits v)) = true)
  /\ (groupedAs [4; 4; 4; 4; 4; 3]%nat
                (mantissaBitsStr32 (float32Bits v)) (mantissaGrouped4_32 (float32Bits v))
      /\ JS.allChars isBit (mantissaBitsStr32 (float32Bits v)) = true)
  /\ (String.length (payloadHexPadded32 (float32Bits v)) = 6%nat
      /\ JS.allChars isHexDigit (payloadHexPadded32 (float32Bits v)) = true)
  /\ (payloadBitsStr (float64Bits v) = mantissaBitsStr (float64Bits v)
      /\ payloadGrouped4 (float64Bits v) = mantissaGrouped4 (float64Bits v)
      /\ payloadBitsStr32 (float32Bits v) = mantissaBitsStr32 (float32Bits v)
      /\ payloadGrouped4_32 (float32Bits v) = mantissaGrouped4_32 (float32Bits v))
  /\ (groupedAs (List.repeat 2%nat 8) (hex (float64Bits v)) (hexGrouped (float64Bits v))
      /\ JS.allChars isHexDigit (hex (float64Bits v)) = true)
  /\ (groupedAs (List.repeat 2%nat 4) (hex32 (float32Bits v)) (hexGrouped32 (float32Bits v))
      /\ JS.allChars isHexDigit (hex32 (float32Bits v)) = true)
  /\ hexGrouped32 (float32Bits (S754_finite false 4503599627370496 (-52))) = "3f 80 00 00".
Proof.
  destruct (exponent64_shape v) as [He1 He2].
  destruct (mantissa64_shape v) as [Hm1 Hm2].
  destruct (mantissa32_shape v) as [Hn1 Hn2].
  destruct (hex64_shape v) as [Hh1 Hh2].
  destruct (hex32_shape v) as [Hx1 Hx2].
  split; [split; [|exact He2]|].
  { apply groupedAs_intro; [exact He1|].
    change (exponentGrouped4 (float64Bits v))
      with (JS.slice (exponentBitsStr (float64Bits v)) 0 3 ++ " " ++
            JS.slice (exponentBitsStr (float64Bits v)) 3 7 ++ " " ++
            JS.slice (exponentBitsStr (float64Bits v)) 7 11).
    now apply exponent_3_4_4. }
  split; [split; [|exact Hm2]|].
  { apply groupedAs_intro; [exact Hm1|].
    change (mantissaGrouped4 (float64Bits v))
      with (groupEvery (mantissaBitsStr (float64Bits v)) 4 " ").
    now apply groupEvery_4_52. }
  split; [apply payload64_shape|].
  split; [split; [|exact Hn2]|].
  { apply groupedAs_intro; [exact Hn1|].
    change (mantissaGrouped4_32 (float32Bits v))
      with (groupWithRemainderAtEnd (mantissaBitsStr32 (float32Bits v)) 4 " ").
    now apply groupEvery_4_23. }
  split; [apply payload32_shape|].
  split; [repeat split|].
  split; [split; [|exact Hh2]|].
  { apply groupedAs_intro; [exact Hh1|].
    change (hexGrouped (float64Bits v)) with (groupEvery (hex (float64Bits v)) 2 " ").
    now apply groupEvery_2_16. }
  split; [split; [|exact Hx2]|].
  { apply groupedAs_intro; [exact Hx1|].
    change (hexGrouped32 (float32Bits v)) with (groupEvery (hex32 (float32Bits v)) 2 " ").
    now apply groupEvery_2_8. }
  vm_compute. reflexivity.
Qed.

End GroupedShapes.

(* ================================================================== *)
(** * The 64-bit pattern and its fields                                *)
(* ================================================================== *)

Section Pattern.

Import Render Ieee754.
Local Open Scope Z_scope.

Lemma bytes_lo (p : Z) :
  JS.ofBytesLE (firstn 4 (JS.bytesLE 8 p)) = p mod 2 ^ 32.
Proof.
  unfold JS.bytesLE, JS.ofBytesLE.
  cbn [seq map firstn fold_right]. unfold JS.byteOf.
  change (2 ^ (8 * Z.of_nat 0)) with 1. change (2 ^ (8 * Z.of_nat 1)) with 256.
  change (2 ^ (8 * Z.of_nat 2)) with 65536. change (2 ^ (8 * Z.of_nat 3)) with 16777216.
  change (2 ^ 32) with 4294967296.
  Z.div_mod_to_equations. lia.
Qed.

Lemma bytes_hi (p : Z) :
  JS.ofBytesLE (firstn 4 (skipn 4 (JS.bytesLE 8 p))) = (p / 2 ^ 32) mod 2 ^ 32.
Proof.
  unfold JS.bytesLE, JS.ofBytesLE.
  cbn [seq map firstn skipn fold_right]. unfold JS.byteOf.
  change (2 ^ (8 * Z.of_nat 4)) with 4294967296.
  change (2 ^ (8 * Z.of_nat 5)) with 1099511627776.
  change (2 ^ (8 * Z.of_nat 6)) with 281474976710656.
  change (2 ^ (8 * Z.of_nat 7)) with 72057594037927936.
  change (2 ^ 32) with 4294967296.
  Z.div_mod_to_equations. lia.
Qed.

Lemma bytes_32 (p : Z) :
  JS.ofBytesLE (firstn 4 (JS.bytesLE 4 p)) = p mod 2 ^ 32.
Proof.
  unfold JS.bytesLE, JS.ofBytesLE.
  cbn [seq map firstn fold_right]. unfold JS.byteOf.
  change (2 ^ (8 * Z.of_nat 0)) with 1. change (2 ^ (8 * Z.of_nat 1)) with 256.
  change (2 ^ (8 * Z.of_nat 2)) with 65536. change (2 ^ (8 * Z.of_nat 3)) with 16777216.
  change (2 ^ 32) with 4294967296.
  Z.div_mod_to_equations. lia.
Qed.

(** Reading back what [setFloat64] and [setFloat32] wrote. *)
Lemma getUint32_lo (v : JS.number) :
  JS.getUint32 (JS.setFloat64 (JS.ArrayBuffer 8) 0 v true) 0 true
    = JS.encode64 v mod 2 ^ 32.
Proof. exact (bytes_lo (JS.encode64 v)). Qed.

Lemma getUint32_hi (v : JS.number) :
  JS.getUint32 (JS.setFloat64 (JS.ArrayBuffer 8) 0 v true) 4 true
    = (JS.encode64 v / 2 ^ 32) mod 2 ^ 32.
Proof. exact (bytes_hi (JS.encode64 v)). Qed.

Lemma getUint32_f32 (v : JS.number) :
  JS.getUint32 (JS.setFloat32 (JS.ArrayBuffer 4) 0 v true) 0 true
    = JS.encode32 (JS.toFloat32 v) mod 2 ^ 32.
Proof. exact (bytes_32 (JS.encode32 (JS.toFloat32 v))). Qed.


(** The masks and shifts of the source on a 32-bit word. *)
Lemma toInt32_mod (a k : Z) :
  0 <= k <= 32 -> JS.toInt32 a mod 2 ^ k = a mod 2 ^ k.
Proof.
  intros Hk. unfold JS.toInt32.
  assert (E : 2 ^ 32 = 2 ^ (32 - k) * 2 ^ k).
  { rewrite <- Z.pow_add_r by lia. f_equal. lia. }
  assert (Hpos : 0 < 2 ^ k) by (apply Z.pow_pos_nonneg; lia).
  assert (Hm : (a mod 2 ^ 32) mod 2 ^ k = a mod 2 ^ k).
  { apply Z.mod_mod_divide. exists (2 ^ (32 - k)). exact E. }
  destruct (a mod 2 ^ 32 <? 2 ^ 31); [exact Hm|].
  rewrite <- Hm.
  replace (a mod 2 ^ 32 - 2 ^ 32) with (a mod 2 ^ 32 + (- 2 ^ (32 - k)) * 2 ^ k) by lia.
  apply Z.mod_add. lia.
Qed.

Lemma band_ones (a k : Z) :
  0 <= k <= 31 -> JS.band a (2 ^ k - 1) = a mod 2 ^ k.
Proof.
  intros Hk. unfold JS.band.
  assert (Hlt : 2 ^ k <= 2 ^ 31) by (apply Z.pow_le_mono_r; lia).
  assert (Hpos : 0 < 2 ^ k) by (apply Z.pow_pos_nonneg; lia).
  assert (Hmask : JS.toInt32 (2 ^ k - 1) = Z.ones k).
  { unfold JS.toInt32. rewrite Z.mod_small by lia.
    destruct (2 ^ k - 1 <? 2 ^ 31) eqn:E; [|apply Z.ltb_ge in E; lia].
    rewrite Z.ones_equiv. lia. }
  rewrite Hmask, Z.land_ones by lia. apply toInt32_mod. lia.
Qed.

Lemma ushr_div (a k : Z) :
  0 <= k <= 31 -> JS.ushr a k = (a mod 2 ^ 32) / 2 ^ k.
Proof.
  intros Hk. unfold JS.ushr, JS.toUint32.
  change 31 with (Z.ones 5). rewrite Z.land_ones by lia.
  rewrite (Z.mod_small k) by (change (2 ^ 5) with 32; lia).
  apply Z.shiftr_div_pow2. lia.
Qed.

Lemma digitsFixed_app (radix : Z) (a b : nat) (n : Z) :
  0 < radix ->
  digitsFixed radix (a + b) n
    = digitsFixed radix a (n / radix ^ Z.of_nat b) ++ digitsFixed radix b n.
Proof.
  intros Hr. revert n. induction b as [|b IH]; intros n.
  - rewrite Nat.add_0_r. simpl. now rewrite Z.div_1_r, append_nil_r.
  - rewrite Nat.add_succ_r. cbn [digitsFixed]. rewrite IH, append_assoc.
    rewrite Z.div_div by (try apply Z.pow_pos_nonneg; lia).
    rewrite Nat2Z.inj_succ, Z.pow_succ_r by lia. reflexivity.
Qed.

Lemma digitsFixed_mod (radix : Z) (w : nat) (n : Z) :
  0 < radix ->
  digitsFixed radix w (n mod radix ^ Z.of_nat w) = digitsFixed radix w n.
Proof.
  intros Hr. revert n. induction w as [|w IH]; intros n; [reflexivity|].
  cbn [digitsFixed].
  assert (Hp : 0 < radix ^ Z.of_nat w) by (apply Z.pow_pos_nonneg; lia).
  rewrite Nat2Z.inj_succ, Z.pow_succ_r by lia.
  rewrite Z.rem_mul_r by lia.
  set (X := (n / radix) mod radix ^ Z.of_nat w).
  assert (E1 : (n mod radix + radix * X) / radix = X).
  { rewrite (Z.mul_comm radix X), Z.div_add by lia.
    rewrite (Z.div_small (n mod radix)) by (apply Z.mod_pos_bound; lia). lia. }
  assert (E2 : (n mod radix + radix * X) mod radix = n mod radix).
  { rewrite (Z.mul_comm radix X), Z.mod_add by lia. apply Z.mod_mod. lia. }
  rewrite E1, E2. subst X. now rewrite IH.
Qed.

Lemma bits32_mod (n : Z) :
  digitsFixed 2 32 (n mod 2 ^ 32) = digitsFixed 2 32 n.
Proof. apply (digitsFixed_mod 2 32 n). lia. Qed.

Lemma hex32_mod (n : Z) :
  digitsFixed 16 8 (n mod 2 ^ 32) = digitsFixed 16 8 n.
Proof. apply (digitsFixed_mod 16 8 n). lia. Qed.

(** The bits and hex strings render the pattern that was written. *)
Lemma bits64_render (v : JS.number) :
  bits (float64Bits v) = digitsFixed 2 64 (JS.encode64 v).
Proof.
  unfold float64Bits. cbv zeta. cbn [bits].
  rewrite getUint32_lo, getUint32_hi. unfold toBitsString64.
  rewrite !toBitsString32_fixed, !bits32_mod.
  symmetry. apply (digitsFixed_app 2 32 32). lia.
Qed.

Lemma hex64_render (v : JS.number) :
  hex (float64Bits v) = digitsFixed 16 16 (JS.encode64 v).
Proof.
  unfold float64Bits. cbv zeta. cbn [hex].
  rewrite getUint32_lo, getUint32_hi. unfold toHex64.
  rewrite !toHex32_fixed, !hex32_mod.
  symmetry. apply (digitsFixed_app 16 8 8). lia.
Qed.

(** Width of a positive number, after [digits2_pos]. *)
Lemma digits2_pos_bound (m : positive) : Zpos m < 2 ^ Zpos (digits2_pos m).
Proof.
  induction m as [m IH | m IH |]; simpl digits2_pos.
  - rewrite Pos2Z.inj_succ, Z.pow_succ_r by lia. lia.
  - rewrite Pos2Z.inj_succ, Z.pow_succ_r by lia. lia.
  - reflexivity.
Qed.

(** A binary64 value has a 64-bit pattern. *)
Lemma encode64_range (v : JS.number) :
  valid_binary 53 1024 v = true -> 0 <= JS.encode64 v < 2 ^ 64.
Proof.
  unfold JS.encode64, JS.encode, JS.joinBits.
  destruct v as [s | s | | s m e]; simpl valid_binary; intros Hv.
  - destruct s; vm_compute; split; congruence.
  - destruct s; vm_compute; split; congruence.
  - vm_compute; split; congruence.
  - unfold bounded, canonical_mantissa, fexp, emin in Hv.
    apply andb_true_iff in Hv as [Hc He].
    apply Z.eqb_eq in Hc. apply Z.leb_le in He.
    pose proof (digits2_pos_bound m) as Hm.
    assert (Hd : Zpos (digits2_pos m) <= 53) by lia.
    assert (Hm53 : Zpos m < 2 ^ 53).
    { eapply Z.lt_le_trans; [exact Hm|]. apply Z.pow_le_mono_r; lia. }
    change (2 ^ (52 + 11)) with 9223372036854775808.
    change (2 ^ (11 - 1)) with 1024. change (2 ^ 52) with 4503599627370496 in *.
    change (2 ^ 53) with 9007199254740992 in *.
    change (2 ^ 64) with 18446744073709551616.
    destruct (4503599627370496 <=? Zpos m) eqn:E;
      [apply Z.leb_le in E | apply Z.leb_gt in E]; destruct s; lia.
Qed.

End Pattern.

Section HexOfBits.

Import Render Ieee754.
Local Open Scope Z_scope.

Lemma bitsToHexPadded_64 (s : string) :
  String.length s = 64%nat ->
  bitsToHexPadded s
    = fold_left (fun hex nib => hex ++ nibbleHex nib) (chunksOf (List.repeat 4%nat 16) s) "".
Proof. intros H. explode s H. reflexivity. Qed.

Lemma substring_app_l (s1 s2 : string) :
  forall i n, (i + n <= String.length s1)%nat ->
    substring i n (s1 ++ s2) = substring i n s1.
Proof.
  induction s1 as [|c s1 IH]; intros i n H; simpl in H.
  - assert (i = 0%nat) by lia. assert (n = 0%nat) by lia. subst.
    destruct s2; reflexivity.
  - destruct i as [|i].
    + destruct n as [|n]; [reflexivity|]. simpl. rewrite IH by lia. reflexivity.
    + simpl. apply IH. lia.
Qed.

Lemma substring_app_r (s1 s2 : string) :
  forall i, (i <= String.length s1)%nat ->
    substring i (String.length (s1 ++ s2) - i) (s1 ++ s2)
      = substring i (String.length s1 - i) s1 ++ s2.
Proof.
  induction s1 as [|c s1 IH]; intros i H; simpl in H.
  - assert (i = 0%nat) by lia. subst. simpl. rewrite Nat.sub_0_r. apply substring_all.
  - destruct i as [|i].
    + rewrite !Nat.sub_0_r, !substring_all. reflexivity.
    + simpl. apply IH. lia.
Qed.

Lemma chunksOf_app (sizes1 sizes2 : list nat) :
  forall s1 s2, String.length s1 = list_sum sizes1 ->
    chunksOf (sizes1 ++ sizes2) (s1 ++ s2) = (chunksOf sizes1 s1 ++ chunksOf sizes2 s2)%list.
Proof.
  induction sizes1 as [|k rest IH]; intros s1 s2 H; simpl in H.
  - destruct s1; [reflexivity | discriminate H].
  - simpl. rewrite substring_app_l by lia. f_equal.
    rewrite substring_app_r by lia. apply IH.
    rewrite length_substring. lia.
Qed.

Lemma nibble_value (n : Z) :
  nibbleHex (digitsFixed 2 4 n) = String (JS.digitChar (n mod 16)) "".
Proof.
  rewrite <- (digitsFixed_mod 2 4 n) by lia. change (2 ^ Z.of_nat 4) with 16.
  destruct (Z.mod_pos_bound n 16 ltac:(lia)) as [H0 H1].
  assert (E : n mod 16 = 0 \/ n mod 16 = 1 \/ n mod 16 = 2 \/ n mod 16 = 3
              \/ n mod 16 = 4 \/ n mod 16 = 5 \/ n mod 16 = 6 \/ n mod 16 = 7
              \/ n mod 16 = 8 \/ n mod 16 = 9 \/ n mod 16 = 10 \/ n mod 16 = 11
              \/ n mod 16 = 12 \/ n mod 16 = 13 \/ n mod 16 = 14 \/ n mod 16 = 15) by lia.
  repeat (destruct E as [-> | E]; [vm_compute; reflexivity|]).
  rewrite E. vm_compute. reflexivity.
Qed.

(** Reading a rendering in base 2 four digits at a time gives the
    rendering in base 16. *)
Lemma fold_hex (k : nat) :
  forall (n : Z) (acc : string),
    fold_left (fun hex nib => hex ++ nibbleHex nib)
              (chunksOf (List.repeat 4%nat k) (digitsFixed 2 (4 * k) n)) acc
    = acc ++ digitsFixed 16 k n.
Proof.
  induction k as [|k IH]; intros n acc.
  - simpl. now rewrite append_nil_r.
  - replace (4 * S k)%nat with (4 * k + 4)%nat by lia.
    rewrite (digitsFixed_app 2 (4 * k) 4) by lia.
    change (2 ^ Z.of_nat 4) with 16.
    change (List.repeat 4%nat (S k)) with (4%nat :: List.repeat 4%nat k).
    rewrite repeat_cons, chunksOf_app.
    2:{ rewrite length_digitsFixed. clear.
        induction k as [|k IH]; simpl; [reflexivity | simpl in IH; lia]. }
    rewrite fold_left_app, IH.
    cbn [chunksOf fold_left].
    replace (substring 0 4 (digitsFixed 2 4 n)) with (digitsFixed 2 4 n).
    2:{ symmetry. rewrite <- (length_digitsFixed 2 4 n) at 1. apply substring_all. }
    rewrite nibble_value, append_assoc. reflexivity.
Qed.

Lemma bitsToHexPadded_render (p : Z) :
  bitsToHexPadded (digitsFixed 2 64 p) = digitsFixed 16 16 p.
Proof.
  rewrite bitsToHexPadded_64 by apply length_digitsFixed.
  apply (fold_hex 16 p "").
Qed.

Lemma slices_rejoin (s : string) :
  JS.slice s 0 1 ++ JS.slice s 1 12 ++ JS.sliceFrom s 12 = s.
Proof.
  unfold JS.slice, JS.sliceFrom.
  change (1 - 0)%nat with 1%nat. change (12 - 1)%nat with 11%nat.
  rewrite <- (substring_split s 1 11), <- (substring_split s 0 1).
  destruct (Nat.le_gt_cases 12 (String.length s)) as [H | H].
  - replace (1 + (11 + (String.length s - 12)))%nat with (String.length s) by lia.
    apply substring_all.
  - replace (String.length s - 12)%nat with 0%nat by lia.
    rewrite <- (substring_all s) at 2.
    assert (E : forall n, (String.length s <= n)%nat -> substring 0 n s = s).
    { clear. induction s as [|c s IH]; intros n H.
      - destruct n; reflexivity.
      - destruct n as [|n]; simpl in *; [lia|]. rewrite IH by lia. reflexivity. }
    rewrite substring_all. apply E. lia.
Qed.

Lemma fields64 (v : JS.number) :
  let r := float64Bits v in
  let p := JS.encode64 v in
  signBit r = ((p / 2 ^ 32) mod 2 ^ 32 / 2 ^ 31) mod 2
  /\ exponentBits r = ((p / 2 ^ 32) mod 2 ^ 32 / 2 ^ 20) mod 2 ^ 11
  /\ mantissaHigh r = ((p / 2 ^ 32) mod 2 ^ 32) mod 2 ^ 20
  /\ mantissaLow r = p mod 2 ^ 32.
Proof.
  unfold float64Bits. cbv zeta.
  cbn [signBit exponentBits mantissaHigh mantissaLow].
  rewrite getUint32_lo, getUint32_hi.
  change 1 with (2 ^ 1 - 1) at 1. change 2047 with (2 ^ 11 - 1).
  change 1048575 with (2 ^ 20 - 1).
  rewrite ushr_0, !band_ones, !ushr_div, !Z.mod_mod by lia.
  change (2 ^ 1) with 2. repeat split.
Qed.

(** C2.  For every binary64 value the numeric fields of float64Bits
    rebuild its 64-bit pattern: signBit * 2^63 + exponentBits * 2^52 +
    mantissaHigh * 2^32 + mantissaLow is the pattern, each field within
    its width; the sign, exponent and mantissa bit strings concatenate to
    the bits string, which is the pattern in 64 binary digits, the hex
    string is the pattern in 16 hexadecimal digits, and reading the
    concatenated bit strings four at a time gives the hex string. *)
Theorem C2_fields_rebuild_pattern (v : JS.number) :
  valid_binary 53 1024 v = true ->
  (signBit (float64Bits v) * 2 ^ 63 + exponentBits (float64Bits v) * 2 ^ 52
   + mantissaHigh (float64Bits v) * 2 ^ 32 + mantissaLow (float64Bits v)
   = JS.encode64 v)
  /\ (0 <= signBit (float64Bits v) <= 1
      /\ 0 <= exponentBits (float64Bits v) < 2 ^ 11
      /\ 0 <= mantissaHigh (float64Bits v) < 2 ^ 20
      /\ 0 <= mantissaLow (float64Bits v) < 2 ^ 32)
  /\ signBitsStr (float64Bits v) ++ exponentBitsStr (float64Bits v)
       ++ mantissaBitsStr (float64Bits v) = bits (float64Bits v)
  /\ bits (float64Bits v) = digitsFixed 2 64 (JS.encode64 v)
  /\ hex (float64Bits v) = digitsFixed 16 16 (JS.encode64 v)
  /\ bitsToHexPadded (signBitsStr (float64Bits v) ++ exponentBitsStr (float64Bits v)
                        ++ mantissaBitsStr (float64Bits v))
     = hex (float64Bits v).
Proof.
  intros Hv. pose proof (encode64_range v Hv) as Hp.
  destruct (fields64 v) as (Es & Ee & Eh & El).
  assert (Hjoin : signBitsStr (float64Bits v) ++ exponentBitsStr (float64Bits v)
                    ++ mantissaBitsStr (float64Bits v) = bits (float64Bits v)).
  { change (signBitsStr (float64Bits v)) with (JS.slice (bits (float64Bits v)) 0 1).
    change (exponentBitsStr (float64Bits v)) with (JS.slice (bits (float64Bits v)) 1 12).
    change (mantissaBitsStr (float64Bits v)) with (JS.sliceFrom (bits (float64Bits v)) 12).
    apply slices_rejoin. }
  split; [|split; [|split; [exact Hjoin
                          |split; [apply bits64_render
                                  |split; [apply hex64_render|]]]]].
  - rewrite Es, Ee, Eh, El. clear Es Ee Eh El Hjoin.
    generalize dependent (JS.encode64 v). intros p Hp.
    change (2 ^ 63) with 9223372036854775808.
    change (2 ^ 52) with 4503599627370496.
    change (2 ^ 32) with 4294967296.
    change (2 ^ 31) with 2147483648.
    change (2 ^ 20) with 1048576.
    change (2 ^ 11) with 2048.
    change (2 ^ 64) with 18446744073709551616 in Hp.
    Z.div_mod_to_equations. lia.
  - rewrite Es, Ee, Eh, El. clear Es Ee Eh El Hjoin.
    generalize dependent (JS.encode64 v). intros p Hp.
    change (2 ^ 32) with 4294967296.
    change (2 ^ 31) with 2147483648.
    change (2 ^ 20) with 1048576.
    change (2 ^ 11) with 2048.
    repeat split; Z.div_mod_to_equations; lia.
  - rewrite Hjoin, bits64_render, hex64_render. apply bitsToHexPadded_render.
Qed.

Lemma C2_fields_rebuild_pattern_witness :
  signBit (float64Bits (S754_finite true 5629499534213120 (-52))) * 2 ^ 63
  + exponentBits (float64Bits (S754_finite true 5629499534213120 (-52))) * 2 ^ 52
  + mantissaHigh (float64Bits (S754_finite true 5629499534213120 (-52))) * 2 ^ 32
  + mantissaLow (float64Bits (S754_finite true 5629499534213120 (-52)))
  = JS.encode64 (S754_finite true 5629499534213120 (-52)).
Proof.
  exact (proj1 (C2_fields_rebuild_pattern (S754_finite true 5629499534213120 (-52)) eq_refl)).
Defined.

End HexOfBits.

(* ================================================================== *)
(** * Classification and unbiased exponent                             *)
(* ================================================================== *)

Section Classification.

Import Ieee754.
Local Open Scope Z_scope.

Lemma fields32 (v : JS.number) :
  let r := float32Bits v in
  let u := JS.encode32 (JS.toFloat32 v) mod 2 ^ 32 in
  signBit32 r = (u / 2 ^ 31) mod 2
  /\ exponentBits32 r = (u / 2 ^ 23) mod 2 ^ 8
  /\ mantissaBits32 r = u mod 2 ^ 23.
Proof.
  unfold float32Bits. cbv zeta.
  cbn [signBit32 exponentBits32 mantissaBits32].
  rewrite getUint32_f32.
  change 1 with (2 ^ 1 - 1) at 1. change 255 with (2 ^ 8 - 1).
  change 8388607 with (2 ^ 23 - 1).
  rewrite !band_ones, !ushr_div, !Z.mod_mod by lia.
  change (2 ^ 1) with 2. repeat split.
Qed.

(** C1.  At both widths the kind is a function of the extracted
    exponent and mantissa fields alone: exponent all-zero gives Zero or
    Subnormal as the mantissa is zero or not, exponent all-one (255 of
    0..255, 2047 of 0..2047) gives Infinity or NaN as the mantissa is zero
    or not, and any other exponent gives Normal. *)
Theorem C1_kind_from_fields (v : JS.number) :
  (kind32 (float32Bits v)
     = (let e := exponentBits32 (float32Bits v) in
        let mantissaZero := mantissaBits32 (float32Bits v) =? 0 in
        if e =? 0 then (if mantissaZero then Zero else Subnormal)
        else if e =? 255 then (if mantissaZero then Infinity else NaN)
        else Normal)
   /\ 0 <= exponentBits32 (float32Bits v) <= 255
   /\ 0 <= mantissaBits32 (float32Bits v) < 2 ^ 23)
  /\ (kind (float64Bits v)
       = (let e := exponentBits (float64Bits v) in
          let mantissaZero :=
            (mantissaHigh (float64Bits v) =? 0) && (mantissaLow (float64Bits v) =? 0) in
          if e =? 0 then (if mantissaZero then Zero else Subnormal)
          else if e =? 2047 then (if mantissaZero then Infinity else NaN)
          else Normal)
      /\ 0 <= exponentBits (float64Bits v) <= 2047
      /\ 0 <= mantissaHigh (float64Bits v) < 2 ^ 20
      /\ 0 <= mantissaLow (float64Bits v) < 2 ^ 32).
Proof.
  split.
  - split.
    + unfold float32Bits. cbv zeta.
      cbn [kind32 exponentBits32 mantissaBits32].
      unfold classifyFloat32. reflexivity.
    + destruct (fields32 v) as (_ & -> & ->).
      change (2 ^ 8) with 256. change (2 ^ 23) with 8388608.
      split; Z.div_mod_to_equations; lia.
  - split.
    + unfold float64Bits. cbv zeta.
      cbn [kind exponentBits mantissaHigh mantissaLow].
      unfold classifyFloat64. reflexivity.
    + destruct (fields64 v) as (_ & -> & -> & ->).
      change (2 ^ 11) with 2048. change (2 ^ 20) with 1048576.
      change (2 ^ 32) with 4294967296.
      repeat split; Z.div_mod_to_equations; lia.
Qed.

(** C6.  The unbiased exponent is exponentBits - 127 (resp. - 1023)
    for a Normal value, the fixed -126 (resp. -1022) for a Subnormal
    one, and absent (null, not zero) for Zero, Infinity and NaN. *)
Theorem C6_exponent_unbiased (v : JS.number) :
  exponentUnbiased32 (float32Bits v)
    = match kind32 (float32Bits v) with
      | Normal => Some (exponentBits32 (float32Bits v) - 127)
      | Subnormal => Some (-126)
      | Zero | Infinity | NaN => None
      end
  /\ exponentUnbiased (float64Bits v)
    = match kind (float64Bits v) with
      | Normal => Some (exponentBits (float64Bits v) - 1023)
      | Subnormal => Some (-1022)
      | Zero | Infinity | NaN => None
      end.
Proof.
  split.
  - unfold float32Bits. cbv zeta.
    cbn [kind32 exponentBits32 exponentUnbiased32]. reflexivity.
  - unfold float64Bits. cbv zeta.
    cbn [kind exponentBits exponentUnbiased]. reflexivity.
Qed.

End Classification.

(* ================================================================== *)
(** * Trimming                                                         *)
(* ================================================================== *)

Section Trimming.

Import Parse Notions Words.

Lemma trimStart_split (s : string) :
  exists w, s = w ++ JS.trimStart s /\ JS.allChars JS.isWhiteSpace w = true.
Proof.
  induction s as [|c s (w & Hw & Hall)]; simpl.
  - exists "". now split.
  - destruct (JS.isWhiteSpace c) eqn:Hc.
    + exists (String c w). simpl. rewrite Hc, Hall. split; [now f_equal | reflexivity].
    + exists "". now split.
Qed.

Lemma trimStart_head (s : string) : headIs JS.isWhiteSpace (JS.trimStart s) = false.
Proof.
  induction s as [|c s IH]; simpl; [reflexivity|].
  destruct (JS.isWhiteSpace c) eqn:Hc; [exact IH | simpl; exact Hc].
Qed.

Lemma trimEnd_head (s : string) :
  headIs JS.isWhiteSpace s = false -> headIs JS.isWhiteSpace (JS.trimEnd s) = false.
Proof.
  destruct s as [|c s]; simpl; [reflexivity|]. intros Hc.
  destruct (JS.trimEnd s); [rewrite Hc; exact Hc | exact Hc].
Qed.

Lemma trimEnd_idem (s : string) : JS.trimEnd (JS.trimEnd s) = JS.trimEnd s.
Proof.
  induction s as [|c s IH]; simpl; [reflexivity|].
  destruct (JS.trimEnd s) as [|d r] eqn:Et.
  - destruct (JS.isWhiteSpace c) eqn:Hc; simpl; [reflexivity | now rewrite Hc].
  - simpl in IH |- *. destruct r as [|e r'].
    + destruct (JS.isWhiteSpace d) eqn:Hd; [discriminate IH|]. reflexivity.
    + destruct (JS.trimEnd (String e r')); [|now rewrite IH].
      destruct (JS.isWhiteSpace d); [discriminate IH | now rewrite IH].
Qed.

(** [trim] is idempotent. *)
Lemma trim_idem (s : string) : JS.trim (JS.trim s) = JS.trim s.
Proof.
  unfold JS.trim.
  rewrite (trimStart_id (JS.trimEnd (JS.trimStart s))).
  - apply trimEnd_idem.
  - apply trimEnd_head, trimStart_head.
Qed.

Lemma trimStart_space_l (w s : string) :
  JS.allChars JS.isWhiteSpace w = true -> JS.trimStart (w ++ s) = JS.trimStart s.
Proof.
  induction w as [|c w IH]; simpl; intros H; [reflexivity|].
  apply andb_true_iff in H as [Hc Hw]. rewrite Hc. now apply IH.
Qed.

Lemma trimEnd_space_r (s w : string) :
  JS.allChars JS.isWhiteSpace w = true -> JS.trimEnd (s ++ w) = JS.trimEnd s.
Proof.
  intros Hw.
  assert (Hnil : JS.trimEnd w = "").
  { clear s. induction w as [|c w IH]; simpl; [reflexivity|].
    simpl in Hw. apply andb_true_iff in Hw as [Hc Hw]. now rewrite (IH Hw), Hc. }
  induction s as [|c s IH]; simpl; [exact Hnil|]. now rewrite IH.
Qed.

Lemma trimStart_app (s w : string) :
  JS.trimStart s <> "" -> JS.trimStart (s ++ w) = JS.trimStart s ++ w.
Proof.
  induction s as [|c s IH]; simpl; intros H; [contradiction|].
  destruct (JS.isWhiteSpace c); [now apply IH | reflexivity].
Qed.

Lemma trim_padded (w1 s w2 : string) :
  JS.allChars JS.isWhiteSpace w1 = true ->
  JS.allChars JS.isWhiteSpace w2 = true ->
  JS.trim (w1 ++ s ++ w2) = JS.trim s.
Proof.
  intros H1 H2. unfold JS.trim. rewrite (trimStart_space_l w1 _ H1).
  destruct (JS.trimStart s) as [|c t] eqn:Et.
  - destruct (trimStart_split s) as (w & Es & Hw). rewrite Et, append_nil_r in Es.
    subst w. rewrite <- (append_nil_r w2), <- append_assoc.
    rewrite trimStart_space_l by (rewrite allChars_app, Hw, H2; reflexivity).
    reflexivity.
  - rewrite trimStart_app by (rewrite Et; discriminate).
    rewrite Et. now apply trimEnd_space_r.
Qed.

(** X1.  White space around the input never changes the result. *)
Theorem ParseFloatingInput_ignores_outer_space
        (w1 s w2 : string) (opts : ParseOptions) :
  JS.allChars JS.isWhiteSpace w1 = true ->
  JS.allChars JS.isWhiteSpace w2 = true ->
  ParseFloatingInput (w1 ++ s ++ w2) opts = ParseFloatingInput s opts.
Proof.
  intros H1 H2.
  rewrite <- (ParseFloatingInput_trimmed (w1 ++ s ++ w2)) by apply trim_idem.
  rewrite <- (ParseFloatingInput_trimmed s) by apply trim_idem.
  now rewrite trim_padded.
Qed.

Lemma ParseFloatingInput_ignores_outer_space_witness :
  ParseFloatingInput (" " ++ "-1.5e3" ++ "  ") noOptions
    = ParseFloatingInput "-1.5e3" noOptions.
Proof.
  exact (ParseFloatingInput_ignores_outer_space " " "-1.5e3" "  " noOptions
           eq_refl eq_refl).
Defined.

End Trimming.

(** The branches of [ParseFloatingInput], one goal for each. *)
Ltac pfi_cases input opts :=
  unfold Parse.ParseFloatingInput; cbv zeta;
  set (o := Parse.spread Parse.defaultOptions opts) in *;
  set (text := JS.trim input) in *;
  destruct (JS.length text =? 0)%nat eqn:Hlen;
  [| destruct (negb (Parse.allowLeadingPlus o) && JS.startsWith text "+") eqn:Hplus;
     [| destruct (Parse.parseSpecial text o) as [special|] eqn:Hsp;
        [| destruct (Parse.isIncompleteNumberToken text o) as [inc|] eqn:Hinc;
           [| destruct (Parse.isValidDecimalNumberSyntax text o) eqn:Hsyn;
              cbn [negb]; cbv iota;
              [ rewrite (valid_syntax_not_nan text o Hsyn); cbv iota;
                destruct (negb (Parse.allowInfinitySynonyms o)
                          && negb (JS.isFinite (JS.Number text))) eqn:Hfin |]]]]].

Section Outcomes.

Import Regex Parse Notions Words.

Lemma parseSpecial_Incomplete (text : string) (o : RequiredOptions) (reason nt : string) :
  parseSpecial text o = Some (Incomplete reason nt) ->
  nt = text /\ caseInsensitiveSpecials o = true
  /\ exists sg body,
       matchSignBody text = Some (sg, body) /\ isAlphaOnly body = true
       /\ ((reason = "incomplete NaN token" /\ allowNaN o = true
            /\ JS.startsWith "nan" (JS.toLowerCase body) = true
            /\ (JS.length (JS.toLowerCase body) < 3)%nat)
           \/ (reason = "incomplete Infinity token" /\ allowInfinitySynonyms o = true
               /\ JS.startsWith "infinity" (JS.toLowerCase body) = true
               /\ (JS.length (JS.toLowerCase body) < 8)%nat)).
Proof.
  unfold parseSpecial.
  destruct (matchSignBody text) as [[sg body]|]; [|discriminate].
  cbv zeta. intros H.
  repeat match type of H with
    | context [if ?b then _ else _] =>
        lazymatch b with
        | context [if _ then _ else _] => fail
        | _ => destruct b eqn:?; simpl existsb in H; simpl orb in H
        end
    end; try discriminate H.
  all: injection H as <- <-.
  all: repeat match goal with
    | Hc : _ && _ = true |- _ => apply andb_true_iff in Hc as [? ?]
    | Hc : (_ <? _)%nat = true |- _ => apply Nat.ltb_lt in Hc
    end; try discriminate.
  all: split; [reflexivity|]; split; [reflexivity|]; exists sg, body;
    split; [reflexivity|]; split; [assumption|].
  all: first [ left; repeat split; assumption
             | right; repeat split; assumption
             | idtac ].
  all: match goal with
    | Hp : JS.startsWith "inf" ?c = true, Hl : (JS.length ?c < 3)%nat,
      Hi : JS.startsWith "infinity" ?c && _ = false |- _ =>
        apply Nat.ltb_lt in Hl;
        rewrite (inf_prefix_is_infinity_prefix c Hp Hl) in Hi; discriminate Hi
    end.
Qed.

Lemma decimal_no_space (text : string) :
  test reDecimal text = true -> JS.allChars notWhiteSpace text = true.
Proof.
  intros H. apply test_Match, Match_occurs in H.
  revert H. apply allChars_weaken, decimal_char_not_space.
Qed.

Lemma syntax_decimal (text : string) (o : RequiredOptions) :
  isValidDecimalNumberSyntax text o = true -> test reDecimal text = true.
Proof.
  unfold isValidDecimalNumberSyntax.
  destruct (negb (allowLeadingPlus o) && JS.startsWith text "+"); [discriminate|auto].
Qed.

Lemma decimal_parts (text : string) :
  test reDecimal text = true ->
  exists sg m, text = sg ++ m /\ (sg = "" \/ sg = "+" \/ sg = "-")
               /\ Match unsignedDecimal m /\ headIs isDigitOrDot m = true.
Proof.
  intros H. apply test_Match, reDecimal_split in H as (sg & m & -> & Hsg & Hm).
  exists sg, m. repeat split; try assumption.
  apply (parseUnsignedDecimal_ok m Hm).
Qed.

Lemma normalize_cases (text : string) (o : RequiredOptions) :
  test reDecimal text = true ->
  exists sg m, text = sg ++ m /\ (sg = "" \/ sg = "+" \/ sg = "-")
               /\ Match unsignedDecimal m /\ headIs isDigitOrDot m = true
               /\ ((normalizeNumericText text o = text
                    /\ (allowLeadingPlus o = false \/ JS.startsWith text "+" = false))
                   \/ (sg = "+" /\ allowLeadingPlus o = true
                       /\ normalizeNumericText text o = m)).
Proof.
  intros H. destruct (decimal_parts text H) as (sg & m & -> & Hsg & Hm & Hh).
  exists sg, m. repeat split; try assumption.
  unfold normalizeNumericText.
  destruct (allowLeadingPlus o); [|left; split; [reflexivity | now left]].
  cbn [andb].
  destruct m as [|c m]; [discriminate Hh|].
  destruct Hsg as [-> | [-> | ->]].
  - assert (E : JS.startsWith ("" ++ String c m) "+" = false).
    { apply startsWith_plus_head. simpl in *. now apply digitOrDot_not_sign. }
    rewrite E. left. split; [reflexivity | now right].
  - right. repeat split.
    change ("+" ++ String c m) with (String "+" (String c m)).
    unfold JS.startsWith. rewrite prefix_plus. cbn [Ascii.eqb Bool.eqb andb].
    cbv iota. apply sliceFrom_tail.
  - assert (E : JS.startsWith ("-" ++ String c m) "+" = false).
    { change ("-" ++ String c m) with (String "-" (String c m)).
      unfold JS.startsWith. now rewrite prefix_plus. }
    rewrite E. left. split; [reflexivity | now right].
Qed.

(** X2.  The normalized text of an Incomplete or Invalid result is the
    trimmed input.  The normalized text of a Valid result is not
    empty and holds no white space, and for a finite value it does not
    start with a plus sign. *)
Theorem normalizedText_of_result (input : string) (opts : ParseOptions) :
  match ParseFloatingInput input opts with
  | Valid v t =>
      t <> "" /\ JS.allChars notWhiteSpace t = true
      /\ (JS.isFinite v = true -> JS.startsWith t "+" = false)
  | Incomplete _ nt => nt = JS.trim input
  | Invalid _ nt => nt = JS.trim input
  end.
Proof.
  pfi_cases input opts.
  - destruct text; [reflexivity | discriminate Hlen].
  - reflexivity.
  - destruct special as [v t | r nt | r nt].
    + apply parseSpecial_Valid in Hsp as (sg & Hsg & [(-> & -> & _) | (-> & -> & _)]);
        destruct Hsg as [(-> & _) | [(-> & _) | (-> & _)]];
        (split; [discriminate | split; [reflexivity | discriminate]]).
    + now apply parseSpecial_Incomplete in Hsp as (-> & _).
    + now apply parseSpecial_not_Invalid in Hsp.
  - reflexivity.
  - reflexivity.
  - apply syntax_decimal in Hsyn.
    pose proof (decimal_no_space text Hsyn) as Hns.
    destruct (normalize_cases text o Hsyn)
      as (sg & m & E & Hsg & Hm & Hh & [(-> & Hp) | (-> & _ & ->)]).
    + split; [|split; [exact Hns|]].
      * intros E0. rewrite E0 in Hlen. discriminate Hlen.
      * intros _. destruct Hp as [Hp | Hp]; [|exact Hp].
        rewrite Hp in Hplus. exact Hplus.
    + rewrite E in Hns. split; [|split].
      * destruct m; [discriminate Hh | discriminate].
      * rewrite allChars_app in Hns. now apply andb_true_iff in Hns as [_ ?].
      * intros _. apply startsWith_plus_head.
        destruct m as [|c m]; [discriminate Hh|]. simpl in *.
        now apply digitOrDot_not_sign.
  - reflexivity.
Qed.

End Outcomes.

(* ================================================================== *)
(** * The decimal grammar, read from the end of the text               *)
(* ================================================================== *)

Section LastCharacter.

Import Regex Parse Notions Words.

Lemma snoc_cases (s : string) :
  s = "" \/ exists s' c, s = s' ++ String c "".
Proof.
  induction s as [|a s IH]; [now left|]. right.
  destruct IH as [-> | (s' & c & ->)].
  - now exists "", a.
  - now exists (String a s'), c.
Qed.

Lemma snoc_inj (s1 s2 : string) (c1 c2 : ascii) :
  s1 ++ String c1 "" = s2 ++ String c2 "" -> s1 = s2 /\ c1 = c2.
Proof.
  revert s2. induction s1 as [|a s1 IH]; intros [|b s2] H; simpl in H.
  - now injection H.
  - injection H as _ H. destruct s2; discriminate H.
  - injection H as _ H. destruct s1; discriminate H.
  - injection H as -> H. apply IH in H as [-> ->]. now split.
Qed.

Lemma snoc_app (s s1 s2 : string) (c : ascii) :
  s ++ String c "" = s1 ++ s2 ->
  (s2 = "" /\ s1 = s ++ String c "")
  \/ exists s2', s2 = s2' ++ String c "" /\ s = s1 ++ s2'.
Proof.
  intros H. destruct (snoc_cases s2) as [-> | (s2' & c' & ->)].
  - left. rewrite append_nil_r in H. now split.
  - right. rewrite <- append_assoc in H. apply snoc_inj in H as [-> ->].
    now exists s2'.
Qed.

Lemma lastIs_snoc (p : ascii -> bool) (s : string) (c : ascii) :
  lastIs p (s ++ String c "") = p c.
Proof.
  induction s as [|a s IH]; [reflexivity|].
  simpl. rewrite IH. destruct (s ++ String c "") eqn:E; [|reflexivity].
  destruct s; discriminate E.
Qed.

Lemma lastIs_app (p : ascii -> bool) (s1 s2 : string) :
  s2 <> "" -> lastIs p (s1 ++ s2) = lastIs p s2.
Proof.
  intros H. destruct (snoc_cases s2) as [-> | (s' & c & ->)]; [contradiction|].
  now rewrite <- append_assoc, !lastIs_snoc.
Qed.

Lemma lastIs_all (p : ascii -> bool) (s : string) :
  s <> "" -> JS.allChars p s = true -> lastIs p s = true.
Proof.
  intros H Hall. destruct (snoc_cases s) as [-> | (s' & c & ->)]; [contradiction|].
  rewrite lastIs_snoc. rewrite allChars_app in Hall.
  apply andb_true_iff in Hall as [_ Hc]. simpl in Hc. now rewrite andb_true_r in Hc.
Qed.

Lemma lastIs_excl (p q : ascii -> bool) (s : string) :
  (forall c, p c = true -> q c = false) ->
  lastIs p s = true -> lastIs q s = false.
Proof.
  intros Hpq. destruct (snoc_cases s) as [-> | (s' & c & ->)]; [discriminate|].
  rewrite !lastIs_snoc. apply Hpq.
Qed.

(** ** Shapes of the mantissa group *)

Lemma chars_Plus (p : ascii -> bool) (s : string) :
  s <> "" -> JS.allChars p s = true -> Match (Plus (Chr p)) s.
Proof.
  destruct s as [|c s]; [contradiction|]. intros _ H. simpl in H.
  apply andb_true_iff in H as [Hc Hs].
  change (String c s) with (String c "" ++ s).
  constructor; [now constructor | now apply chars_Match_Star].
Qed.

Lemma Plus_chars (p : ascii -> bool) (s : string) :
  Match (Plus (Chr p)) s -> s <> "" /\ JS.allChars p s = true.
Proof.
  intros H. apply Match_Plus_chars in H as (c & s' & -> & Hc & Hs).
  split; [discriminate|]. simpl. now rewrite Hc, Hs.
Qed.

Lemma digits_Plus (ds : string) :
  ds <> "" -> JS.allChars JS.isDigit ds = true -> Match (Plus digit) ds.
Proof.
  destruct ds as [|c ds]; [contradiction|]. intros _ H. simpl in H.
  apply andb_true_iff in H as [Hc Hds].
  change (String c ds) with (String c "" ++ ds).
  constructor; [now constructor | now apply chars_Match_Star].
Qed.

Lemma Plus_digits (ds : string) :
  Match (Plus digit) ds -> ds <> "" /\ JS.allChars JS.isDigit ds = true.
Proof.
  intros H. apply Match_Plus_chars in H as (c & s' & -> & Hc & Hs).
  split; [discriminate|]. simpl. now rewrite Hc, Hs.
Qed.

Lemma mantissa_shape (m : string) :
  Match mantissa m <->
  (exists ip fp, m = ip ++ fp
     /\ ip <> "" /\ JS.allChars JS.isDigit ip = true
     /\ (fp = "" \/ exists ds, fp = String "." ds /\ JS.allChars JS.isDigit ds = true))
  \/ (exists ds, m = String "." ds /\ ds <> "" /\ JS.allChars JS.isDigit ds = true).
Proof.
  split.
  - unfold mantissa. inversion 1; subst.
    + left.
      match goal with Hc : Match (Cat _ _) _ |- _ =>
        apply Match_Cat_inv in Hc as (ip & fp & -> & Hip & Hfp) end.
      apply Plus_digits in Hip as [Hn Hd].
      exists ip, fp. repeat split; try assumption.
      apply Match_Opt_inv in Hfp as [Hfp | ->]; [|now left]. right.
      apply Match_Cat_inv in Hfp as (d & ds & -> & Hdot & Hds).
      apply Match_Chr_inv in Hdot as (c & -> & Hc).
      assert (c = "."%char) as -> by (revert Hc; each_char c; vm_compute; congruence).
      exists ds. split; [reflexivity|]. now apply Match_Star_chars.
    + right.
      match goal with Hc : Match (Cat _ _) _ |- _ =>
        apply Match_Cat_inv in Hc as (d & ds & -> & Hdot & Hds) end.
      apply Match_Chr_inv in Hdot as (c & -> & Hc).
      assert (c = "."%char) as -> by (revert Hc; each_char c; vm_compute; congruence).
      apply Plus_digits in Hds as [Hn Hd]. now exists ds.
  - intros [(ip & fp & -> & Hn & Hd & Hfp) | (ds & -> & Hn & Hd)].
    + apply MAltL. constructor; [now apply digits_Plus|].
      destruct Hfp as [-> | (ds & -> & Hds)]; [apply MAltR; constructor|].
      apply MAltL. change (String "." ds) with ("." ++ ds).
      constructor; [now constructor | now apply chars_Match_Star].
    + apply MAltR. change (String "." ds) with ("." ++ ds).
      constructor; [now constructor | now apply digits_Plus].
Qed.

Lemma allChars_snoc (p : ascii -> bool) (s : string) (c : ascii) :
  JS.allChars p (s ++ String c "") = JS.allChars p s && p c.
Proof. rewrite allChars_app. simpl. now rewrite andb_true_r. Qed.

Lemma mantissa_last (m : string) :
  Match mantissa m -> lastIs isDigitOrDot m = true.
Proof.
  intros H. apply mantissa_shape in H
    as [(ip & fp & -> & Hn & Hd & [-> | (ds & -> & Hds)]) | (ds & -> & Hn & Hd)].
  - rewrite append_nil_r. apply lastIs_all; [assumption|].
    revert Hd. apply allChars_weaken. intros c Hc. unfold isDigitOrDot. now rewrite Hc.
  - rewrite lastIs_app by discriminate.
    destruct (snoc_cases ds) as [-> | (ds' & c & ->)]; [reflexivity|].
    change (String "." (ds' ++ String c "")) with (String "." ds' ++ String c "").
    rewrite lastIs_snoc. rewrite allChars_snoc in Hds.
    apply andb_true_iff in Hds as [_ Hc]. unfold isDigitOrDot. now rewrite Hc.
  - change (String "." ds) with ("." ++ ds). rewrite lastIs_app by assumption.
    apply lastIs_all; [assumption|].
    revert Hd. apply allChars_weaken. intros c Hc. unfold isDigitOrDot. now rewrite Hc.
Qed.

(** Taking the last character off a mantissa leaves a mantissa, the
    empty text or the lone dot. *)
Lemma mantissa_snoc (m : string) (c : ascii) :
  Match mantissa (m ++ String c "") -> Match mantissa m \/ m = "" \/ m = ".".
Proof.
  intros H. apply mantissa_shape in H
    as [(ip & fp & E & Hn & Hd & [-> | (ds & -> & Hds)]) | (ds & E & Hn & Hd)].
  - rewrite append_nil_r in E. subst ip. rewrite allChars_snoc in Hd.
    apply andb_true_iff in Hd as [Hd _].
    destruct m as [|a m]; [now right; left|]. left.
    apply mantissa_shape. left. exists (String a m), "".
    rewrite append_nil_r. repeat split; try assumption; [discriminate | now left].
  - left. apply mantissa_shape. left.
    change (String "." ds) with ("." ++ ds) in E.
    destruct (snoc_cases ds) as [-> | (ds' & c' & ->)].
    + apply snoc_inj in E as [-> _]. exists ip, "".
      rewrite append_nil_r. repeat split; try assumption. now left.
    + change ("." ++ ds' ++ String c' "") with (String "." ds' ++ String c' "") in E.
      rewrite <- append_assoc in E. apply snoc_inj in E as [-> _].
      rewrite allChars_snoc in Hds. apply andb_true_iff in Hds as [Hds _].
      exists ip, (String "." ds'). repeat split; try assumption.
      right. now exists ds'.
  - destruct (snoc_cases ds) as [-> | (ds' & c' & ->)]; [contradiction|].
    change (String "." (ds' ++ String c' "")) with (String "." ds' ++ String c' "") in E.
    apply snoc_inj in E as [-> _].
    rewrite allChars_snoc in Hd. apply andb_true_iff in Hd as [Hd _].
    destruct ds' as [|a ds']; [now right; right|]. left.
    apply mantissa_shape. right. exists (String a ds').
    repeat split; [discriminate | assumption].
Qed.

(** ** Shapes of the exponent part and of the unsigned decimal *)

Lemma exponent_shape (ex : string) :
  Match exponentPart ex <->
  exists c sg ds, ex = String c (sg ++ ds) /\ JS.isExpChar c = true
    /\ (sg = "" \/ sg = "+" \/ sg = "-")
    /\ ds <> "" /\ JS.allChars JS.isDigit ds = true.
Proof.
  split.
  - intros H. apply Match_Cat_inv in H as (e & r & -> & He & Hr).
    apply Match_Chr_inv in He as (c & -> & Hc).
    apply Match_Cat_inv in Hr as (sg & ds & -> & Hsg & Hds).
    apply Match_optsign in Hsg. apply Plus_digits in Hds as [Hn Hd].
    now exists c, sg, ds.
  - intros (c & sg & ds & -> & Hc & Hsg & Hn & Hd).
    change (String c (sg ++ ds)) with (String c "" ++ (sg ++ ds)).
    constructor; [now constructor|]. constructor; [|now apply digits_Plus].
    destruct Hsg as [-> | [-> | ->]];
      [apply MAltR; constructor | apply MAltL; now constructor
       | apply MAltL; now constructor].
Qed.

Lemma unsigned_shape (u : string) :
  Match unsignedDecimal u <->
  exists m ex, u = m ++ ex /\ Match mantissa m /\ (ex = "" \/ Match exponentPart ex).
Proof.
  split.
  - intros H. apply Match_Cat_inv in H as (m & ex & -> & Hm & Hex).
    exists m, ex. repeat split; [assumption|].
    apply Match_Opt_inv in Hex as [H | ->]; [now right | now left].
  - intros (m & ex & -> & Hm & Hex). constructor; [assumption|].
    destruct Hex as [-> | Hex]; [apply MAltR; constructor | now apply MAltL].
Qed.

Lemma unsigned_nonempty (u : string) : Match unsignedDecimal u -> u <> "".
Proof.
  intros H E. subst u. apply parseUnsignedDecimal_ok in H as [_ H]. discriminate H.
Qed.

Lemma digit_digitOrDot (c : ascii) : JS.isDigit c = true -> isDigitOrDot c = true.
Proof. intros H. unfold isDigitOrDot. now rewrite H. Qed.

Lemma unsigned_last (u : string) :
  Match unsignedDecimal u -> lastIs isDigitOrDot u = true.
Proof.
  intros H. apply unsigned_shape in H as (m & ex & -> & Hm & [-> | Hex]).
  - rewrite append_nil_r. now apply mantissa_last.
  - apply exponent_shape in Hex as (c & sg & ds & -> & Hc & Hsg & Hn & Hd).
    change (String c (sg ++ ds)) with (String c sg ++ ds).
    rewrite <- append_assoc, lastIs_app by assumption.
    apply lastIs_all; [assumption|].
    revert Hd. apply allChars_weaken, digit_digitOrDot.
Qed.

Lemma decimal_last (text : string) :
  Match reDecimal text -> lastIs isDigitOrDot text = true.
Proof.
  intros H. apply reDecimal_split in H as (sg & m & -> & _ & Hm).
  rewrite lastIs_app by now apply unsigned_nonempty.
  now apply unsigned_last.
Qed.

Lemma exponentMarker_last (text : string) :
  Match reExponentMarker text -> lastIs JS.isExpChar text = true.
Proof.
  intros H. apply Match_Cat_inv in H as (sg & r & -> & _ & H).
  apply Match_Cat_inv in H as (m & e & -> & _ & He).
  apply Match_Chr_inv in He as (c & -> & Hc).
  now rewrite <- append_assoc, lastIs_snoc.
Qed.

Lemma exponentSign_last (text : string) :
  Match reExponentSign text -> lastIs JS.isSignChar text = true.
Proof.
  intros H. apply Match_Cat_inv in H as (sg & r & -> & _ & H).
  apply Match_Cat_inv in H as (m & e & -> & _ & He).
  apply Match_Cat_inv in He as (e1 & e2 & -> & _ & He).
  apply Match_Chr_inv in He as (c & -> & Hc).
  now rewrite <- !append_assoc, lastIs_snoc.
Qed.

Lemma digitOrDot_not_exp (c : ascii) : isDigitOrDot c = true -> JS.isExpChar c = false.
Proof. each_char c; vm_compute; congruence. Qed.

(** A text of the decimal grammar is none of the incomplete tokens. *)
Lemma decimal_not_incomplete (text : string) (o : RequiredOptions) :
  test reDecimal text = true -> isIncompleteNumberToken text o = None.
Proof.
  intros H. pose proof H as HM. apply test_Match in HM.
  pose proof (decimal_last text HM) as Hlast.
  unfold isIncompleteNumberToken.
  assert (Hlit : forall lit, test reDecimal lit = false -> (text =? lit)%string = false).
  { intros lit Hl. destruct (text =? lit)%string eqn:E; [|reflexivity].
    apply String.eqb_eq in E. subst lit. congruence. }
  rewrite (Hlit "-"), (Hlit "+"), (Hlit "."), (Hlit "-."), (Hlit "+.") by reflexivity.
  rewrite !andb_false_r. cbn [orb].
  destruct (test reExponentMarker text) eqn:E1.
  { apply test_Match, exponentMarker_last in E1.
    rewrite (lastIs_excl _ _ text digitOrDot_not_exp Hlast) in E1. discriminate E1. }
  destruct (test reExponentSign text) eqn:E2.
  { apply test_Match, exponentSign_last in E2.
    rewrite (lastIs_excl _ _ text digitOrDot_not_sign Hlast) in E2. discriminate E2. }
  reflexivity.
Qed.

(** A text whose body starts with a digit or a dot is no special
    token. *)
Lemma parseSpecial_numeric (sg m : string) (o : RequiredOptions) :
  sg = "" \/ sg = "+" \/ sg = "-" ->
  headIs isDigitOrDot m = true -> parseSpecial (sg ++ m) o = None.
Proof.
  intros Hsg Hh. destruct Hsg as [-> | Hsg]; [now apply parseSpecial_unsigned|].
  destruct m as [|c m']; [discriminate|]. simpl in Hh.
  destruct (digitOrDot_facts c Hh) as (Hlow & Hn & HN & Hi & HI & _ & _ & Halpha).
  assert (Hnotalpha : isAlphaOnly (String c m') = false).
  { destruct (isAlphaOnly (String c m')) eqn:E; [|reflexivity].
    apply test_Match, Match_Plus_chars in E as (c' & s' & E & Hc' & _).
    injection E as <- _. congruence. }
  unfold parseSpecial, matchSignBody.
  destruct Hsg as [-> | ->].
  - change ("+" ++ String c m') with (String "+" (String c m')).
    destruct (test reSignBody (String "+" (String c m'))); [|reflexivity].
    change (JS.isSignChar "+") with true. cbv iota zeta. rewrite Hnotalpha.
    destruct (allowNaN o), (allowInfinitySynonyms o), (caseInsensitiveSpecials o);
      simpl; rewrite ?Hlow, ?Hn, ?HN, ?Hi, ?HI; simpl; rewrite ?andb_false_r; reflexivity.
  - change ("-" ++ String c m') with (String "-" (String c m')).
    destruct (test reSignBody (String "-" (String c m'))); [|reflexivity].
    change (JS.isSignChar "-") with true. cbv iota zeta. rewrite Hnotalpha.
    destruct (allowNaN o), (allowInfinitySynonyms o), (caseInsensitiveSpecials o);
      simpl; rewrite ?Hlow, ?Hn, ?HN, ?Hi, ?HI; simpl; rewrite ?andb_false_r; reflexivity.
Qed.

End LastCharacter.

(* ================================================================== *)
(** * What the outcome says about the text and the value              *)
(* ================================================================== *)

Section Completeness.

Import Regex Parse Notions Words.

Lemma decimal_outcome (text : string) (opts : ParseOptions) :
  test reDecimal text = true ->
  ParseFloatingInput text opts
  = let o := spread defaultOptions opts in
    if negb (allowLeadingPlus o) && JS.startsWith text "+" then
      Invalid "leading plus is not allowed" text
    else if negb (allowInfinitySynonyms o) && negb (JS.isFinite (JS.Number text)) then
      Invalid "infinity is not allowed" text
    else Valid (JS.Number text) (normalizeNumericText text o).
Proof.
  intros H. cbv zeta.
  destruct (decimal_parts text H) as (sg & m & E & Hsg & Hm & Hh).
  pose proof H as Htrim. apply test_Match, decimal_trimmed in Htrim.
  unfold ParseFloatingInput. cbv zeta. rewrite Htrim.
  set (o := spread defaultOptions opts).
  assert (Hlen : (JS.length text =? 0)%nat = false).
  { rewrite E. destruct sg, m; try discriminate Hh; reflexivity. }
  rewrite Hlen.
  destruct (negb (allowLeadingPlus o) && JS.startsWith text "+") eqn:Hplus; [reflexivity|].
  rewrite E at 1. rewrite (parseSpecial_numeric sg m o Hsg Hh).
  rewrite (decimal_not_incomplete text o H).
  unfold isValidDecimalNumberSyntax. rewrite Hplus, H. cbn [negb]. cbv iota.
  assert (Hsyn : isValidDecimalNumberSyntax text o = true)
    by (unfold isValidDecimalNumberSyntax; now rewrite Hplus).
  now rewrite (valid_syntax_not_nan text o Hsyn).
Qed.

(** X3.  A text of the decimal grammar is never Incomplete and never
    a syntax error: it is Valid with the value [Number(text)] and the
    text without its leading plus, unless it starts with a plus that
    the options forbid or it overflows to an infinity that the options
    forbid. *)
Theorem decimal_text_outcome (text : string) (opts : ParseOptions) :
  test reDecimal text = true ->
  ParseFloatingInput text opts
  = let o := spread defaultOptions opts in
    if negb (allowLeadingPlus o) && JS.startsWith text "+" then
      Invalid "leading plus is not allowed" text
    else if negb (allowInfinitySynonyms o) && negb (JS.isFinite (JS.Number text)) then
      Invalid "infinity is not allowed" text
    else Valid (JS.Number text) (normalizeNumericText text o).
Proof. exact (decimal_outcome text opts). Qed.

Lemma decimal_text_outcome_witness :
  ParseFloatingInput "+.5e-3" noOptions
  = let o := spread defaultOptions noOptions in
    if negb (allowLeadingPlus o) && JS.startsWith "+.5e-3" "+" then
      Invalid "leading plus is not allowed" "+.5e-3"
    else if negb (allowInfinitySynonyms o) && negb (JS.isFinite (JS.Number "+.5e-3")) then
      Invalid "infinity is not allowed" "+.5e-3"
    else Valid (JS.Number "+.5e-3") (normalizeNumericText "+.5e-3" o).
Proof. exact (decimal_text_outcome "+.5e-3" noOptions eq_refl). Defined.

Lemma normalizedText_value
        (input : string) (opts : ParseOptions) (v : JS.number) (t : string) :
  ParseFloatingInput input opts = Valid v t -> JS.Number t = v.
Proof.
  pfi_cases input opts; intros H; try discriminate H.
  - subst special.
    apply parseSpecial_Valid in Hsp as (sg & Hsg & [(-> & -> & _) | (-> & -> & _)]);
      destruct Hsg as [(-> & _) | [(-> & _) | (-> & _)]]; reflexivity.
  - injection H as <- <-. apply syntax_decimal in Hsyn.
    destruct (normalize_cases text o Hsyn)
      as (sg & m & E & Hsg & Hm & Hh & [(-> & _) | (-> & _ & ->)]); [reflexivity|].
    rewrite E.
    destruct (Number_decimal "" m (or_introl eq_refl) Hm) as (mm & ee & Hp & H0).
    destruct (Number_decimal "+" m (or_intror (or_introl eq_refl)) Hm)
      as (mm' & ee' & Hp' & H1).
    rewrite Hp in Hp'. injection Hp' as <- <-.
    change ("" ++ m) with m in H0. now rewrite H0, H1.
Qed.

(** X4.  The normalized text of a Valid result is a numeric literal of
    its value: [Number(normalizedText)] is the value. *)
Theorem normalizedText_reads_as_value
        (input : string) (opts : ParseOptions) (v : JS.number) (t : string) :
  ParseFloatingInput input opts = Valid v t -> JS.Number t = v.
Proof. exact (normalizedText_value input opts v t). Qed.

Lemma normalizedText_reads_as_value_witness :
  ParseFloatingInput " +1.5e3 " noOptions
    = Valid (S754_finite false 6597069766656000 (-42)) "1.5e3"
  /\ JS.Number "1.5e3" = S754_finite false 6597069766656000 (-42).
Proof.
  split; [reflexivity|].
  exact (normalizedText_reads_as_value " +1.5e3 " noOptions
           (S754_finite false 6597069766656000 (-42)) "1.5e3" eq_refl).
Defined.

(** X5.  A switched-off option keeps its values out of every Valid
    result: without [allowNaN] the value is never NaN, without
    [allowInfinitySynonyms] it is never an infinity. *)
Theorem options_restrict_values
        (input : string) (opts : ParseOptions) (v : JS.number) (t : string) :
  ParseFloatingInput input opts = Valid v t ->
  (allowNaN (spread defaultOptions opts) = false -> JS.isNaN v = false)
  /\ (allowInfinitySynonyms (spread defaultOptions opts) = false ->
      forall s, v <> S754_infinity s).
Proof.
  pfi_cases input opts; intros H; try discriminate H.
  - subst special.
    apply parseSpecial_Valid in Hsp as (sg & _ & [(-> & _ & Hn) | (-> & _ & Hi)]).
    + split; [congruence | discriminate].
    + split; [destruct (sg =? "-")%string; reflexivity | congruence].
  - injection H as <- _. split.
    + intros _. now apply (valid_syntax_not_nan text o).
    + intros Hoff s E. rewrite Hoff, E in Hfin. discriminate Hfin.
Qed.

Lemma options_restrict_values_witness :
  ParseFloatingInput "-0.5" (mkParseOptions None (Some false) (Some false) None)
    = Valid (S754_finite true 4503599627370496 (-53)) "-0.5"
  /\ JS.isNaN (S754_finite true 4503599627370496 (-53)) = false
  /\ (forall s, S754_finite true 4503599627370496 (-53) <> S754_infinity s).
Proof.
  split; [reflexivity|].
  split.
  - exact (proj1 (options_restrict_values "-0.5"
                    (mkParseOptions None (Some false) (Some false) None)
                    (S754_finite true 4503599627370496 (-53)) "-0.5" eq_refl) eq_refl).
  - exact (proj2 (options_restrict_values "-0.5"
                    (mkParseOptions None (Some false) (Some false) None)
                    (S754_finite true 4503599627370496 (-53)) "-0.5" eq_refl) eq_refl).
Defined.

Lemma incomplete_token_reason (text : string) (o : RequiredOptions) (r : string) :
  isIncompleteNumberToken text o = Some r ->
  In r ["sign only"; "dot only"; "exponent marker only"; "exponent sign only"].
Proof.
  unfold isIncompleteNumberToken.
  repeat match goal with
    | |- context [if ?b then Some _ else _] => destruct b
    end; intros H; try discriminate H; injection H as <-; simpl; auto.
Qed.

(** X6.  The reason of a result comes from a fixed list: seven reasons
    for Incomplete, of which the two about special tokens need
    [caseInsensitiveSpecials], and three for Invalid. *)
Theorem reasons_of_result (input : string) (opts : ParseOptions) :
  match ParseFloatingInput input opts with
  | Valid _ _ => True
  | Incomplete r _ =>
      In r ["empty"; "sign only"; "dot only"; "exponent marker only";
            "exponent sign only"]
      \/ (caseInsensitiveSpecials (spread defaultOptions opts) = true
          /\ ((r = "incomplete NaN token" /\ allowNaN (spread defaultOptions opts) = true)
              \/ (r = "incomplete Infinity token"
                  /\ allowInfinitySynonyms (spread defaultOptions opts) = true)))
  | Invalid r _ =>
      (r = "leading plus is not allowed"
       /\ allowLeadingPlus (spread defaultOptions opts) = false)
      \/ r = "invalid numeric syntax"
      \/ (r = "infinity is not allowed"
          /\ allowInfinitySynonyms (spread defaultOptions opts) = false)
  end.
Proof.
  pfi_cases input opts.
  - left. simpl. auto.
  - left. split; [reflexivity|]. fold o.
    destruct (allowLeadingPlus o); [discriminate Hplus | reflexivity].
  - destruct special as [v t | r nt | r nt]; [exact I | |].
    + right. fold o.
      apply parseSpecial_Incomplete in Hsp
        as (_ & Hc & sg & body & _ & _ & [(-> & Hn & _) | (-> & Hi & _)]).
      * split; [assumption|]. now left.
      * split; [assumption|]. now right.
    + now apply parseSpecial_not_Invalid in Hsp.
  - left. apply incomplete_token_reason in Hinc. simpl in *. tauto.
  - right. right. split; [reflexivity|]. fold o.
    destruct (allowInfinitySynonyms o); [discriminate Hfin | reflexivity].
  - exact I.
  - right. now left.
Qed.

End Completeness.

(* ================================================================== *)
(** * A minus sign in front of the text                                *)
(* ================================================================== *)

Section SignSymmetry.

Import Regex Parse Notions Words.

Lemma Valid_inv (input : string) (opts : ParseOptions) (v : JS.number) (t : string) :
  ParseFloatingInput input opts = Valid v t ->
  JS.trim input <> ""
  /\ negb (allowLeadingPlus (spread defaultOptions opts))
       && JS.startsWith (JS.trim input) "+" = false
  /\ (parseSpecial (JS.trim input) (spread defaultOptions opts) = Some (Valid v t)
      \/ (parseSpecial (JS.trim input) (spread defaultOptions opts) = None
          /\ test reDecimal (JS.trim input) = true
          /\ v = JS.Number (JS.trim input)
          /\ t = normalizeNumericText (JS.trim input) (spread defaultOptions opts)
          /\ negb (allowInfinitySynonyms (spread defaultOptions opts))
               && negb (JS.isFinite v) = false)).
Proof.
  pfi_cases input opts; intros H; try discriminate H.
  - subst special. split; [intros E; rewrite E in Hlen; discriminate Hlen|].
    split; [reflexivity | now left].
  - injection H as <- <-. split; [intros E; rewrite E in Hlen; discriminate Hlen|].
    split; [reflexivity|]. right. repeat split; try assumption.
    now apply syntax_decimal in Hsyn.
Qed.

Lemma binary_round_aux_opp (prec emax : Z) (s : bool) (m e : Z) (l : location) :
  binary_round_aux prec emax (negb s) m e l
  = SFopp (binary_round_aux prec emax s m e l).
Proof.
  unfold binary_round_aux.
  destruct (shr_fexp prec emax m e l) as [mrs' e'].
  destruct (shr_fexp prec emax _ e' loc_Exact) as [mrs'' e''].
  destruct (shr_m mrs''); try reflexivity.
  destruct (e'' <=? emax - prec)%Z; reflexivity.
Qed.




Lemma reSignBody_any (s : string) : test reSignBody s = JS.allChars JS.isAnyChar s.
Proof.
  destruct (test reSignBody s) eqn:E.
  - apply test_Match, Match_occurs in E. symmetry.
    revert E. apply allChars_weaken, signBody_char_any.
  - destruct (JS.allChars JS.isAnyChar s) eqn:E'; [|reflexivity].
    assert (H : Match reSignBody ("" ++ s)).
    { constructor; [apply MAltR; constructor | now apply chars_Match_Star]. }
    apply test_Match in H. simpl in H. congruence.
Qed.






End SignSymmetry.

(* ================================================================== *)
(** * Typing a text character by character                             *)
(* ================================================================== *)

Section Typing.

Import Regex Parse Notions Words.

(** ** The numeric prefixes are closed under dropping the last character *)

Lemma numericPrefix_unsigned (u : string) : Match unsignedDecimal u -> numericPrefix u.
Proof. intros H. right. right. right. now right. Qed.

Lemma numericPrefix_mantissa (m : string) : Match mantissa m -> numericPrefix m.
Proof.
  intros H. apply numericPrefix_unsigned, unsigned_shape.
  exists m, "". rewrite append_nil_r. repeat split; [assumption | now left].
Qed.

Lemma numericPrefix_snoc (b : string) (c : ascii) :
  numericPrefix (b ++ String c "") -> numericPrefix b.
Proof.
  intros [H | [H | [H | [H | H]]]].
  - destruct b; discriminate H.
  - change "." with ("" ++ ".") in H. apply snoc_inj in H as [-> _]. now left.
  - apply Match_Cat_inv in H as (m & e & E & Hm & He).
    apply Match_Chr_inv in He as (c' & -> & _).
    apply snoc_inj in E as [-> _]. now apply numericPrefix_mantissa.
  - apply Match_Cat_inv in H as (m & e & E & Hm & He).
    apply Match_Cat_inv in He as (e1 & e2 & -> & He1 & He2).
    apply Match_Chr_inv in He2 as (c' & -> & _).
    rewrite <- append_assoc in E. apply snoc_inj in E as [-> _].
    right. right. left. now constructor.
  - apply unsigned_shape in H as (m & ex & E & Hm & [-> | Hex]).
    + rewrite append_nil_r in E. subst m.
      apply mantissa_snoc in Hm as [Hm | [-> | ->]].
      * now apply numericPrefix_mantissa.
      * now left.
      * right. now left.
    + apply exponent_shape in Hex as (e & sg & ds & -> & He & Hsg & Hn & Hd).
      destruct (snoc_cases ds) as [-> | (ds' & c' & ->)]; [contradiction|].
      change (String e (sg ++ ds' ++ String c' ""))
        with (String e "" ++ sg ++ ds' ++ String c' "") in E.
      rewrite <- !append_assoc in E. apply snoc_inj in E as [-> _].
      rewrite allChars_snoc in Hd. apply andb_true_iff in Hd as [Hd _].
      destruct ds' as [|d ds'].
      * rewrite append_nil_r.
        destruct Hsg as [-> | Hsg].
        -- rewrite append_nil_r. right. right. left.
           constructor; [assumption | now constructor].
        -- right. right. right. left. rewrite append_assoc.
           constructor; [assumption|]. constructor; [now constructor|].
           destruct Hsg as [-> | ->]; now constructor.
      * apply numericPrefix_unsigned, unsigned_shape.
        exists m, (String e (sg ++ String d ds')).
        split; [now rewrite !append_assoc|]. split; [assumption|]. right.
        apply exponent_shape. exists e, sg, (String d ds').
        repeat split; try assumption. discriminate.
Qed.

(** ** The special prefixes *)

Lemma toLowerCase_app (s1 s2 : string) :
  JS.toLowerCase (s1 ++ s2) = JS.toLowerCase s1 ++ JS.toLowerCase s2.
Proof. induction s1 as [|c s1 IH]; simpl; [reflexivity | now rewrite IH]. Qed.

Lemma prefix_app_l (p q s : string) : prefix (p ++ q) s = true -> prefix p s = true.
Proof.
  revert s. induction p as [|a p IH]; intros s; [now destruct s|].
  destruct s as [|b s]; [discriminate|].
  simpl. destruct (ascii_dec a b); [apply IH | discriminate].
Qed.

Lemma specialPrefix_snoc (o : RequiredOptions) (b : string) (c : ascii) :
  specialPrefix o (b ++ String c "") -> b = "" \/ specialPrefix o b.
Proof.
  intros (_ & Ha & Hp). destruct b as [|a b]; [now left|]. right.
  rewrite allChars_snoc in Ha. apply andb_true_iff in Ha as [Ha _].
  split; [discriminate|]. split; [assumption|].
  rewrite toLowerCase_app in Hp.
  destruct Hp as [(Hn & Hp) | (Hi & Hp)]; [left | right];
    (split; [assumption|]); now apply prefix_app_l in Hp.
Qed.

Lemma startsWith_snoc (t : string) (c : ascii) :
  t <> "" -> JS.startsWith (t ++ String c "") "+" = JS.startsWith t "+".
Proof.
  destruct t as [|a t]; [contradiction|]. intros _.
  unfold JS.startsWith. simpl append. now rewrite !prefix_plus.
Qed.

(** Dropping the last character of a typable text leaves a typable
    text. *)
Lemma typable_snoc (o : RequiredOptions) (t : string) (c : ascii) :
  typable o (t ++ String c "") -> typable o t.
Proof.
  intros [H | (Hplus & sg & body & E & Hsg & Hb)]; [destruct t; discriminate H|].
  destruct t as [|a t]; [now left|]. right.
  split; [now rewrite startsWith_snoc in Hplus|].
  apply snoc_app in E as [(-> & E) | (body' & -> & ->)].
  - exfalso. destruct Hsg as [Hs | [Hs | Hs]]; rewrite Hs in E;
      try discriminate E; injection E as _ E; destruct t; discriminate E.
  - exists sg, body'. split; [reflexivity|]. split; [assumption|].
    destruct Hb as [Hb | Hb]; [left; now apply numericPrefix_snoc in Hb|].
    apply specialPrefix_snoc in Hb as [-> | Hb]; [left; now left | now right].
Qed.

(** ** A typable text holds no white space *)

Lemma alpha_not_space (c : ascii) : JS.isAlpha c = true -> notWhiteSpace c = true.
Proof. each_char c; vm_compute; congruence. Qed.

Lemma marker_char_not_space (c : ascii) :
  occurs (Cat mantissa expMarker) c = true -> notWhiteSpace c = true.
Proof. each_char c; vm_compute; congruence. Qed.

Lemma marker_sign_char_not_space (c : ascii) :
  occurs (Cat mantissa (Cat expMarker sign)) c = true -> notWhiteSpace c = true.
Proof. each_char c; vm_compute; congruence. Qed.

Lemma unsigned_char_not_space (c : ascii) :
  occurs unsignedDecimal c = true -> notWhiteSpace c = true.
Proof. each_char c; vm_compute; congruence. Qed.

Lemma typable_no_space (o : RequiredOptions) (text : string) :
  typable o text -> JS.allChars notWhiteSpace text = true.
Proof.
  intros [-> | (_ & sg & body & -> & Hsg & Hb)]; [reflexivity|].
  rewrite allChars_app. apply andb_true_iff. split.
  - destruct Hsg as [-> | [-> | ->]]; reflexivity.
  - destruct Hb as [[-> | [-> | [H | [H | H]]]] | (_ & Ha & _)]; try reflexivity.
    + apply Match_occurs in H. revert H.
      apply allChars_weaken, marker_char_not_space.
    + apply Match_occurs in H. revert H.
      apply allChars_weaken, marker_sign_char_not_space.
    + apply Match_occurs in H. revert H.
      apply allChars_weaken, unsigned_char_not_space.
    + revert Ha. apply allChars_weaken, alpha_not_space.
Qed.

(** ** Every result other than Invalid comes from a typable text *)

Lemma lower_alpha (c : ascii) :
  JS.inRange 97 122 (JS.toLowerChar c) = true -> JS.isAlpha c = true.
Proof. each_char c; vm_compute; congruence. Qed.

Lemma lowerCase_alpha (body : string) :
  JS.allChars (JS.inRange 97 122) (JS.toLowerCase body) = true ->
  JS.allChars JS.isAlpha body = true.
Proof.
  induction body as [|c body IH]; simpl; intros H; [reflexivity|].
  apply andb_true_iff in H as [Hc H]. now rewrite (lower_alpha c Hc), IH.
Qed.

Lemma parseSpecial_Valid_body (text : string) (o : RequiredOptions)
      (v : JS.number) (t : string) :
  parseSpecial text o = Some (Valid v t) ->
  exists sg body,
    matchSignBody text = Some (sg, body)
    /\ ((allowNaN o = true /\ JS.toLowerCase body = "nan")
        \/ (allowInfinitySynonyms o = true
            /\ (JS.toLowerCase body = "inf" \/ JS.toLowerCase body = "infinity"))).
Proof.
  unfold parseSpecial.
  destruct (matchSignBody text) as [[sg body]|]; [|discriminate].
  cbv zeta. intros H. exists sg, body. split; [reflexivity|].
  repeat match type of H with
    | context [if ?b then _ else _] =>
        lazymatch b with
        | context [if _ then _ else _] => fail
        | _ => destruct b eqn:?; simpl existsb in H; simpl orb in H
        end
    end; try discriminate H.
  all: repeat match goal with
    | Hc : _ || _ = true |- _ => apply orb_true_iff in Hc as [Hc | Hc]
    | Hc : (_ =? _)%string = true |- _ => apply String.eqb_eq in Hc
    end; try discriminate.
  all: first [ left; split; [reflexivity|]; first [assumption | subst body; reflexivity]
             | right; split; [reflexivity|];
               first [ left; first [assumption | subst body; reflexivity]
                     | right; first [assumption | subst body; reflexivity] ] ].
Qed.

Lemma special_typable (text : string) (o : RequiredOptions) (r : ParseResult) :
  parseSpecial text o = Some r ->
  exists sg body, text = sg ++ body /\ (sg = "" \/ sg = "+" \/ sg = "-")
                  /\ specialPrefix o body.
Proof.
  intros H. destruct r as [v t | reason nt | reason nt].
  - apply parseSpecial_Valid_body in H as (sg & body & Hm & Hb).
    apply matchSignBody_parts in Hm as (-> & Hsg & _). apply Match_optsign in Hsg.
    exists sg, body. split; [reflexivity|]. split; [assumption|].
    destruct Hb as [(Hn & E) | (Hi & [E | E])].
    + split; [intros ->; discriminate E|].
      split; [apply lowerCase_alpha; now rewrite E|]. left. now rewrite E.
    + split; [intros ->; discriminate E|].
      split; [apply lowerCase_alpha; now rewrite E|]. right. now rewrite E.
    + split; [intros ->; discriminate E|].
      split; [apply lowerCase_alpha; now rewrite E|]. right. now rewrite E.
  - apply parseSpecial_Incomplete in H as (_ & _ & sg & body & Hm & Ha & Hb).
    apply matchSignBody_parts in Hm as (-> & Hsg & _). apply Match_optsign in Hsg.
    exists sg, body. split; [reflexivity|]. split; [assumption|].
    apply test_Match, Plus_chars in Ha as [Hne Ha].
    split; [assumption|]. split; [assumption|].
    destruct Hb as [(_ & Hn & Hp & _) | (_ & Hi & Hp & _)]; [left | right]; now split.
  - now apply parseSpecial_not_Invalid in H.
Qed.

Lemma incomplete_typable (text : string) (o : RequiredOptions) (r : string) :
  isIncompleteNumberToken text o = Some r ->
  exists sg body, text = sg ++ body /\ (sg = "" \/ sg = "+" \/ sg = "-")
                  /\ (body = "" \/ body = "."
                      \/ Match (Cat mantissa expMarker) body
                      \/ Match (Cat mantissa (Cat expMarker sign)) body).
Proof.
  unfold isIncompleteNumberToken.
  destruct ((text =? "-")%string || allowLeadingPlus o && (text =? "+")%string) eqn:E1.
  { intros _. apply orb_true_iff in E1 as [E | E].
    - apply String.eqb_eq in E as ->. exists "-", "". split; [reflexivity|]. split; auto 6.
    - apply andb_true_iff in E as [_ E]. apply String.eqb_eq in E as ->.
      exists "+", "". split; [reflexivity|]. split; auto 6. }
  destruct ((text =? ".")%string || (text =? "-.")%string
            || allowLeadingPlus o && (text =? "+.")%string) eqn:E2.
  { intros _. apply orb_true_iff in E2 as [E | E];
      [apply orb_true_iff in E as [E | E] | apply andb_true_iff in E as [_ E]];
      apply String.eqb_eq in E as ->.
    - exists "", ".". split; [reflexivity|]. split; auto 6.
    - exists "-", ".". split; [reflexivity|]. split; auto 6.
    - exists "+", ".". split; [reflexivity|]. split; auto 6. }
  destruct (test reExponentMarker text) eqn:E3.
  { intros _. apply test_Match, Match_Cat_inv in E3 as (sg & body & -> & Hsg & Hb).
    apply Match_optsign in Hsg. exists sg, body. split; [reflexivity|]. split; auto 6. }
  destruct (test reExponentSign text) eqn:E4; [|discriminate].
  intros _. apply test_Match, Match_Cat_inv in E4 as (sg & body & -> & Hsg & Hb).
  apply Match_optsign in Hsg. exists sg, body. split; [reflexivity|]. split; auto 6.
Qed.

Lemma notInvalid_typable (input : string) (opts : ParseOptions) :
  notInvalid (ParseFloatingInput input opts) = true ->
  typable (spread defaultOptions opts) (JS.trim input).
Proof.
  pfi_cases input opts; intros H; try discriminate H.
  - left. destruct text; [reflexivity | discriminate Hlen].
  - right. split; [assumption|].
    destruct (special_typable text o special Hsp) as (sg & body & E & Hsg & Hb).
    exists sg, body. auto.
  - right. split; [assumption|].
    destruct (incomplete_typable text o inc Hinc) as (sg & body & E & Hsg & Hb).
    exists sg, body. split; [assumption|]. split; [assumption|]. left.
    unfold numericPrefix. tauto.
  - right. split; [assumption|]. apply syntax_decimal in Hsyn.
    destruct (decimal_parts text Hsyn) as (sg & m & E & Hsg & Hm & _).
    exists sg, m. split; [assumption|]. split; [assumption|]. left.
    now apply numericPrefix_unsigned.
Qed.

(** ** Every typable text gives a result other than Invalid *)

Lemma alpha_any (c : ascii) : JS.isAlpha c = true -> JS.isAnyChar c = true.
Proof. each_char c; vm_compute; congruence. Qed.

Lemma alpha_not_sign (c : ascii) : JS.isAlpha c = true -> JS.isSignChar c = false.
Proof. each_char c; vm_compute; congruence. Qed.

Lemma matchSignBody_alpha (sg body : string) :
  sg = "" \/ sg = "+" \/ sg = "-" ->
  JS.allChars JS.isAlpha body = true ->
  matchSignBody (sg ++ body) = Some (sg, body).
Proof.
  intros Hsg Ha. unfold matchSignBody. rewrite reSignBody_any.
  assert (Hany : JS.allChars JS.isAnyChar (sg ++ body) = true).
  { rewrite allChars_app. apply andb_true_iff. split.
    - destruct Hsg as [-> | [-> | ->]]; reflexivity.
    - revert Ha. apply allChars_weaken, alpha_any. }
  rewrite Hany. destruct Hsg as [-> | [-> | ->]]; try reflexivity.
  destruct body as [|c body]; [reflexivity|]. simpl in *.
  apply andb_true_iff in Ha as [Hc _]. now rewrite (alpha_not_sign c Hc).
Qed.

Lemma prefix_of_nan (L : string) :
  prefix L "nan" = true -> In L [""; "n"; "na"; "nan"].
Proof.
  intros H. simpl.
  destruct L as [|c1 L]; [auto|]. simpl in H.
  destruct (ascii_dec c1 "n") as [->|]; [|discriminate H].
  destruct L as [|c2 L]; [auto|]. simpl in H.
  destruct (ascii_dec c2 "a") as [->|]; [|discriminate H].
  destruct L as [|c3 L]; [auto|]. simpl in H.
  destruct (ascii_dec c3 "n") as [->|]; [|discriminate H].
  destruct L as [|c4 L]; [auto 6|]. discriminate H.
Qed.

Lemma prefix_cons (a b : ascii) (p s : string) :
  prefix (String a p) (String b s) = true -> a = b /\ prefix p s = true.
Proof. simpl. destruct (ascii_dec a b); [auto | discriminate]. Qed.

Lemma prefix_nil (p : string) : prefix p "" = true -> p = "".
Proof. destruct p; [reflexivity | discriminate]. Qed.

Lemma prefix_of_infinity (L : string) :
  prefix L "infinity" = true ->
  In L [""; "i"; "in"; "inf"; "infi"; "infin"; "infini"; "infinit"; "infinity"].
Proof.
  intros H. simpl.
  repeat (destruct L as [|? L]; [tauto|]; apply prefix_cons in H as [-> H]).
  apply prefix_nil in H as ->. tauto.
Qed.

Lemma alpha_only (body : string) :
  body <> "" -> JS.allChars JS.isAlpha body = true -> isAlphaOnly body = true.
Proof. intros Hn Ha. apply test_Match. now apply chars_Plus. Qed.

(** What [parseSpecial] answers when the lower-cased letters after the
    sign are known. *)
Ltac special_by_letters Hsg Ha Hn Hc E :=
  unfold parseSpecial;
  rewrite (matchSignBody_alpha _ _ Hsg Ha); cbv zeta;
  rewrite Hc, (alpha_only _ Hn Ha), E.

Lemma special_some (o : RequiredOptions) (sg body : string) :
  caseInsensitiveSpecials o = true ->
  sg = "" \/ sg = "+" \/ sg = "-" ->
  specialPrefix o body ->
  parseSpecial (sg ++ body) o <> None.
Proof.
  intros Hc Hsg (Hn & Ha & Hp).
  assert (Hl : JS.toLowerCase body <> "").
  { destruct body; [contradiction | discriminate]. }
  destruct Hp as [(Hnan & Hp) | (Hinf & Hp)].
  - apply prefix_of_nan in Hp. simpl in Hp.
    destruct Hp as [E | [E | [E | [E | []]]]]; symmetry in E; try contradiction;
      special_by_letters Hsg Ha Hn Hc E; rewrite Hnan; discriminate.
  - apply prefix_of_infinity in Hp. simpl in Hp.
    destruct Hp as [E | [E | [E | [E | [E | [E | [E | [E | [E | []]]]]]]]]];
      symmetry in E; try contradiction;
      special_by_letters Hsg Ha Hn Hc E; rewrite Hinf;
      destruct (allowNaN o); discriminate.
Qed.

Lemma special_full (o : RequiredOptions) (sg body : string) :
  caseInsensitiveSpecials o = true ->
  sg = "" \/ sg = "+" \/ sg = "-" ->
  JS.allChars JS.isAlpha body = true ->
  (allowNaN o = true /\ JS.toLowerCase body = "nan")
  \/ (allowInfinitySynonyms o = true /\ JS.toLowerCase body = "infinity") ->
  exists v t, parseSpecial (sg ++ body) o = Some (Valid v t).
Proof.
  intros Hc Hsg Ha Hp.
  assert (Hn : body <> "").
  { destruct Hp as [(_ & E) | (_ & E)]; intros ->; discriminate E. }
  destruct Hp as [(Hnan & E) | (Hinf & E)].
  - special_by_letters Hsg Ha Hn Hc E. rewrite Hnan. cbv. eauto.
  - special_by_letters Hsg Ha Hn Hc E. rewrite Hinf.
    destruct (allowNaN o); simpl; eauto.
Qed.

Lemma optsign_Match (sg : string) :
  sg = "" \/ sg = "+" \/ sg = "-" -> Match (Opt sign) sg.
Proof.
  intros [-> | [-> | ->]];
    [apply MAltR; constructor | apply MAltL; now constructor
     | apply MAltL; now constructor].
Qed.

Lemma incomplete_intro (text : string) (o : RequiredOptions) :
  text = "-" \/ (allowLeadingPlus o = true /\ text = "+")
  \/ text = "." \/ text = "-." \/ (allowLeadingPlus o = true /\ text = "+.")
  \/ test reExponentMarker text = true \/ test reExponentSign text = true ->
  isIncompleteNumberToken text o <> None.
Proof.
  unfold isIncompleteNumberToken. intros H.
  destruct ((text =? "-")%string || allowLeadingPlus o && (text =? "+")%string) eqn:E1;
    [discriminate|].
  destruct ((text =? ".")%string || (text =? "-.")%string
            || allowLeadingPlus o && (text =? "+.")%string) eqn:E2; [discriminate|].
  destruct (test reExponentMarker text) eqn:E3; [discriminate|].
  destruct (test reExponentSign text) eqn:E4; [discriminate|].
  exfalso.
  destruct H as [-> | [(Hp & ->) | [-> | [-> | [(Hp & ->) | [H | H]]]]]];
    try rewrite Hp in *; try discriminate.
Qed.

Lemma plus_flag_allows (o : RequiredOptions) (rest : string) :
  negb (allowLeadingPlus o) && JS.startsWith ("+" ++ rest) "+" = false ->
  allowLeadingPlus o = true.
Proof.
  change ("+" ++ rest) with (String "+" rest).
  unfold JS.startsWith. rewrite prefix_plus.
  destruct (allowLeadingPlus o); [reflexivity | discriminate].
Qed.

Lemma typable_notInvalid (input : string) (opts : ParseOptions) :
  caseInsensitiveSpecials (spread defaultOptions opts) = true ->
  allowInfinitySynonyms (spread defaultOptions opts) = true ->
  typable (spread defaultOptions opts) (JS.trim input) ->
  notInvalid (ParseFloatingInput input opts) = true.
Proof.
  intros Hc Hi Ht. pfi_cases input opts; try reflexivity.
  - destruct Ht as [E | (Hp & _)]; [rewrite E in Hlen; discriminate Hlen | congruence].
  - destruct special; try reflexivity. now apply parseSpecial_not_Invalid in Hsp.
  - rewrite Hi in Hfin. discriminate Hfin.
  - exfalso.
    destruct Ht as [E | (_ & sg & body & E & Hsg & Hb)];
      [rewrite E in Hlen; discriminate Hlen|].
    destruct Hb as [[-> | [-> | [H | [H | H]]]] | Hb].
    + apply (incomplete_intro text o); [|exact Hinc].
      rewrite E in *. destruct Hsg as [-> | [-> | ->]];
        [discriminate Hlen | right; left; split; [|reflexivity] | now left].
      now apply (plus_flag_allows o "").
    + apply (incomplete_intro text o); [|exact Hinc].
      rewrite E in *. destruct Hsg as [-> | [-> | ->]];
        [auto | do 4 right; left; split; [|reflexivity] | auto 6].
      now apply (plus_flag_allows o ".").
    + apply (incomplete_intro text o); [|exact Hinc].
      do 5 right. left. apply test_Match. rewrite E.
      constructor; [now apply optsign_Match | assumption].
    + apply (incomplete_intro text o); [|exact Hinc].
      do 6 right. apply test_Match. rewrite E.
      constructor; [now apply optsign_Match | assumption].
    + unfold isValidDecimalNumberSyntax in Hsyn. rewrite Hplus in Hsyn.
      cbv iota in Hsyn.
      assert (Hd : test reDecimal text = true)
        by (apply test_Match; rewrite E; now apply reDecimal_join).
      congruence.
    + rewrite E in Hsp. now apply (special_some o sg body Hc Hsg Hb).
Qed.

(** ** One character less *)

Lemma trimEnd_snoc (x : string) (c : ascii) :
  JS.isWhiteSpace c = false -> JS.trimEnd (x ++ String c "") = x ++ String c "".
Proof.
  intros Hc. induction x as [|a x IH]; simpl; [now rewrite Hc|].
  rewrite IH. destruct (x ++ String c "") eqn:E; [|reflexivity].
  destruct x; discriminate E.
Qed.

Lemma trim_snoc (p : string) (c : ascii) :
  JS.isWhiteSpace c = false ->
  JS.trim (p ++ String c "") = JS.trimStart p ++ String c "".
Proof.
  intros Hc. unfold JS.trim.
  assert (E : JS.trimStart (p ++ String c "") = JS.trimStart p ++ String c "").
  { destruct (JS.trimStart p) eqn:Et.
    - destruct (trimStart_split p) as (w & Ep & Hw).
      rewrite Et, append_nil_r in Ep. subst w.
      rewrite (trimStart_space_l p _ Hw). simpl. now rewrite Hc.
    - rewrite trimStart_app by (rewrite Et; discriminate). now rewrite Et. }
  rewrite E. now apply trimEnd_snoc.
Qed.

Lemma one_character_less (p : string) (c : ascii) (opts : ParseOptions) :
  caseInsensitiveSpecials (spread defaultOptions opts) = true ->
  allowInfinitySynonyms (spread defaultOptions opts) = true ->
  notInvalid (ParseFloatingInput (p ++ String c "") opts) = true ->
  notInvalid (ParseFloatingInput p opts) = true.
Proof.
  intros Hc Hi H. destruct (JS.isWhiteSpace c) eqn:Hw.
  - rewrite <- (ParseFloatingInput_trimmed p) by apply trim_idem.
    rewrite <- (ParseFloatingInput_trimmed (p ++ String c "")) in H by apply trim_idem.
    change (p ++ String c "") with ("" ++ p ++ String c "") in H.
    rewrite (trim_padded "" p (String c "")) in H; [exact H | reflexivity|].
    simpl. now rewrite Hw.
  - apply notInvalid_typable in H. rewrite (trim_snoc p c Hw) in H.
    apply typable_snoc in H.
    apply typable_notInvalid; try assumption.
    unfold JS.trim. rewrite trimEnd_id; [exact H|].
    now apply (typable_no_space (spread defaultOptions opts)).
Qed.

Lemma prefix_notInvalid (r p : string) (opts : ParseOptions) :
  caseInsensitiveSpecials (spread defaultOptions opts) = true ->
  allowInfinitySynonyms (spread defaultOptions opts) = true ->
  notInvalid (ParseFloatingInput (p ++ r) opts) = true ->
  notInvalid (ParseFloatingInput p opts) = true.
Proof.
  intros Hc Hi. revert p. induction r as [|c r IH]; intros p H.
  - now rewrite append_nil_r in H.
  - apply (one_character_less p c opts Hc Hi). apply IH.
    now rewrite append_assoc.
Qed.

(** X8.  With case-insensitive special tokens and infinities allowed
    (both are defaults), a text that is not Invalid was not Invalid at
    any moment while it was typed: every text it starts with gives
    Valid or Incomplete.  Read the other way, no continuation repairs
    an Invalid text. *)
Theorem prefixes_never_invalid (p r : string) (opts : ParseOptions) :
  caseInsensitiveSpecials (spread defaultOptions opts) = true ->
  allowInfinitySynonyms (spread defaultOptions opts) = true ->
  notInvalid (ParseFloatingInput (p ++ r) opts) = true ->
  notInvalid (ParseFloatingInput p opts) = true.
Proof. exact (prefix_notInvalid r p opts). Qed.

Lemma prefixes_never_invalid_witness :
  notInvalid (ParseFloatingInput ("-1.5e" ++ "+3 ") noOptions) = true
  /\ notInvalid (ParseFloatingInput "-1.5e" noOptions) = true.
Proof.
  split; [reflexivity|].
  exact (prefixes_never_invalid "-1.5e" "+3 " noOptions eq_refl eq_refl eq_refl).
Defined.

(** ** Every Incomplete text can be finished *)

Lemma startsWith_app (t r : string) :
  t <> "" -> JS.startsWith (t ++ r) "+" = JS.startsWith t "+".
Proof.
  destruct t as [|a t]; [contradiction|]. intros _.
  unfold JS.startsWith. simpl append. now rewrite !prefix_plus.
Qed.

Lemma decimal_valid (text : string) (opts : ParseOptions) :
  test reDecimal text = true ->
  negb (allowLeadingPlus (spread defaultOptions opts)) && JS.startsWith text "+" = false ->
  allowInfinitySynonyms (spread defaultOptions opts) = true ->
  isValid (ParseFloatingInput text opts) = true.
Proof.
  intros Hd Hp Hi. rewrite (decimal_outcome text opts Hd). cbv zeta.
  now rewrite Hp, Hi.
Qed.

Lemma special_valid (sg body : string) (opts : ParseOptions) :
  caseInsensitiveSpecials (spread defaultOptions opts) = true ->
  sg = "" \/ sg = "+" \/ sg = "-" ->
  JS.allChars JS.isAlpha body = true ->
  (allowNaN (spread defaultOptions opts) = true /\ JS.toLowerCase body = "nan")
  \/ (allowInfinitySynonyms (spread defaultOptions opts) = true
      /\ JS.toLowerCase body = "infinity") ->
  negb (allowLeadingPlus (spread defaultOptions opts))
    && JS.startsWith (sg ++ body) "+" = false ->
  isValid (ParseFloatingInput (sg ++ body) opts) = true.
Proof.
  intros Hc Hsg Ha Hb Hp.
  destruct (special_full _ sg body Hc Hsg Ha Hb) as (v & t & Hsp).
  assert (Hn : body <> "").
  { destruct Hb as [(_ & E) | (_ & E)]; intros ->; discriminate E. }
  assert (Htrim : JS.trim (sg ++ body) = sg ++ body).
  { apply trim_id. rewrite allChars_app. apply andb_true_iff. split.
    - destruct Hsg as [-> | [-> | ->]]; reflexivity.
    - revert Ha. apply allChars_weaken, alpha_not_space. }
  unfold ParseFloatingInput. cbv zeta. rewrite Htrim, Hp, Hsp.
  destruct (JS.length (sg ++ body) =? 0)%nat eqn:Hlen; [|reflexivity].
  destruct sg, body; try contradiction; discriminate Hlen.
Qed.

Lemma zero_after_marker (sg body : string) :
  sg = "" \/ sg = "+" \/ sg = "-" ->
  body = "" \/ body = "."
  \/ Match (Cat mantissa expMarker) body
  \/ Match (Cat mantissa (Cat expMarker sign)) body ->
  test reDecimal ((sg ++ body) ++ "0") = true.
Proof.
  intros Hsg Hb. rewrite append_assoc. apply test_Match.
  apply reDecimal_join; [assumption|].
  destruct Hb as [-> | [-> | [H | H]]].
  - apply test_Match. reflexivity.
  - apply test_Match. reflexivity.
  - apply Match_Cat_inv in H as (m & e & -> & Hm & He).
    apply Match_Chr_inv in He as (c & -> & Hc).
    apply unsigned_shape. exists m, (String c ("" ++ "0")).
    split; [now rewrite append_assoc|]. split; [assumption|]. right.
    apply exponent_shape. exists c, "", "0". repeat split; auto. discriminate.
  - apply Match_Cat_inv in H as (m & e & -> & Hm & He).
    apply Match_Cat_inv in He as (e1 & e2 & -> & He1 & He2).
    apply Match_Chr_inv in He1 as (c & -> & Hc).
    apply Match_Chr_inv in He2 as (s & -> & Hs).
    apply unsigned_shape. exists m, (String c (String s "" ++ "0")).
    split; [now rewrite !append_assoc|]. split; [assumption|]. right.
    apply exponent_shape. exists c, (String s ""), "0".
    repeat split; auto; [|discriminate].
    apply sign_cases in Hs as [-> | ->]; auto.
Qed.

Lemma lower_suffix (body rest L T : string) :
  JS.toLowerCase body = L -> L ++ rest = T -> JS.toLowerCase rest = rest ->
  JS.toLowerCase (body ++ rest) = T.
Proof. intros <- <- Hr. now rewrite toLowerCase_app, Hr. Qed.

(** X9.  With infinities allowed (the default), Incomplete is never a
    dead end: some continuation of the normalized text of an
    Incomplete result is Valid. *)
Theorem incomplete_can_be_completed
      (input : string) (opts : ParseOptions) (r nt : string) :
  allowInfinitySynonyms (spread defaultOptions opts) = true ->
  ParseFloatingInput input opts = Incomplete r nt ->
  exists suffix, isValid (ParseFloatingInput (nt ++ suffix) opts) = true.
Proof.
  intros Hi. pfi_cases input opts; intros H; try discriminate H.
  - injection H as _ <-. exists "0".
    apply decimal_valid; [reflexivity | apply andb_false_r | exact Hi].
  - subst special.
    apply parseSpecial_Incomplete in Hsp
      as (-> & Hc & sg & body & Hm & Ha & Hb).
    apply matchSignBody_parts in Hm as (E & Hsg & _). apply Match_optsign in Hsg.
    apply test_Match, Plus_chars in Ha as [Hne Ha].
    assert (Htext : text <> "").
    { intros E0. rewrite E0 in Hlen. discriminate Hlen. }
    assert (Hfull : forall rest T,
               JS.toLowerCase body ++ rest = T ->
               JS.toLowerCase rest = rest -> JS.allChars JS.isAlpha rest = true ->
               (allowNaN o = true /\ T = "nan")
               \/ (allowInfinitySynonyms o = true /\ T = "infinity") ->
               exists suffix, isValid (ParseFloatingInput (text ++ suffix) opts) = true).
    { intros rest T HT Hr Har HTs. exists rest.
      assert (Hlow : JS.toLowerCase (body ++ rest) = T)
        by now apply (lower_suffix body rest (JS.toLowerCase body) T).
      rewrite E, append_assoc. apply special_valid; try assumption.
      - rewrite allChars_app. now rewrite Ha, Har.
      - destruct HTs as [(? & ->) | (? & ->)]; [left | right]; now split.
      - rewrite <- append_assoc, <- E. now rewrite startsWith_app. }
    destruct Hb as [(_ & Hn & Hp & _) | (_ & _ & Hp & Hl)].
    + apply prefix_of_nan in Hp. simpl in Hp.
      assert (Hl : JS.toLowerCase body <> "")
        by (destruct body; [contradiction | discriminate]).
      destruct Hp as [E0 | [E0 | [E0 | [E0 | []]]]]; symmetry in E0;
        try contradiction.
      * apply (Hfull "an" "nan"); auto. now rewrite E0.
      * apply (Hfull "n" "nan"); auto. now rewrite E0.
      * apply (Hfull "" "nan"); auto. now rewrite E0.
    + apply prefix_of_infinity in Hp. simpl in Hp.
      assert (Hl' : JS.toLowerCase body <> "")
        by (destruct body; [contradiction | discriminate]).
      destruct Hp as [E0 | [E0 | [E0 | [E0 | [E0 | [E0 | [E0 | [E0 | [E0 | []]]]]]]]]];
        symmetry in E0; try contradiction.
      * apply (Hfull "nfinity" "infinity"); auto. now rewrite E0.
      * apply (Hfull "finity" "infinity"); auto. now rewrite E0.
      * apply (Hfull "inity" "infinity"); auto. now rewrite E0.
      * apply (Hfull "nity" "infinity"); auto. now rewrite E0.
      * apply (Hfull "ity" "infinity"); auto. now rewrite E0.
      * apply (Hfull "ty" "infinity"); auto. now rewrite E0.
      * apply (Hfull "y" "infinity"); auto. now rewrite E0.
      * apply (Hfull "" "infinity"); auto. now rewrite E0.
  - injection H as _ <-. exists "0".
    assert (Htext : text <> "").
    { intros E0. rewrite E0 in Hlen. discriminate Hlen. }
    destruct (incomplete_typable text o inc Hinc) as (sg & body & E & Hsg & Hb).
    apply decimal_valid; try assumption.
    + rewrite E. now apply zero_after_marker.
    + now rewrite startsWith_app.
Qed.

Lemma incomplete_can_be_completed_witness :
  ParseFloatingInput " -iNfi" noOptions = Incomplete "incomplete Infinity token" "-iNfi"
  /\ exists suffix, isValid (ParseFloatingInput ("-iNfi" ++ suffix) noOptions) = true.
Proof.
  split; [reflexivity|].
  exact (incomplete_can_be_completed " -iNfi" noOptions
           "incomplete Infinity token" "-iNfi" eq_refl eq_refl).
Defined.

End Typing.

(* ================================================================== *)
(** * Rounding yields well-formed values                               *)
(* ================================================================== *)

Section WellFormed.

Local Open Scope Z_scope.

Variables prec emax : Z.
Hypothesis Hprec : 0 < prec.

Lemma digits2_log2 (p : positive) : Zpos (digits2_pos p) = Z.log2 (Zpos p) + 1.
Proof.
  assert (Hsize : forall q, digits2_pos q = Pos.size q).
  { induction q; simpl; congruence. }
  rewrite Hsize. destruct p; simpl; lia.
Qed.

Lemma Zdigits2_log2 (m : Z) : 0 < m -> Zdigits2 m = Z.log2 m + 1.
Proof. destruct m; try lia. intros _. apply digits2_log2. Qed.

Lemma Zdigits2_pos (m : Z) : 0 < m -> 0 < Zdigits2 m.
Proof. destruct m; simpl; lia. Qed.

Lemma Zdigits2_mono (a b : Z) : 0 <= a <= b -> Zdigits2 a <= Zdigits2 b.
Proof.
  intros [Ha Hab]. destruct (Z.eq_dec a 0) as [-> | Hne].
  - destruct b; simpl; lia.
  - rewrite !Zdigits2_log2 by lia.
    pose proof (Z.log2_le_mono a b Hab). lia.
Qed.

Lemma Zdigits2_shift (m n : Z) :
  0 < m -> 0 <= n ->
  (m / 2 ^ n = 0 /\ Zdigits2 m <= n)
  \/ (0 < m / 2 ^ n /\ Zdigits2 (m / 2 ^ n) = Zdigits2 m - n).
Proof.
  intros Hm Hn. rewrite (Zdigits2_log2 m Hm).
  pose proof (Z.log2_shiftr m n Hm) as Hs.
  rewrite Z.shiftr_div_pow2 in Hs by assumption.
  assert (Hq : 0 <= m / 2 ^ n) by (apply Z.div_pos; lia).
  destruct (Z.eq_dec (m / 2 ^ n) 0) as [E | Hne].
  - left. split; [assumption|].
    destruct (Z.lt_ge_cases (Z.log2 m) n) as [|Hge]; [lia|].
    exfalso.
    assert (2 ^ n <= m).
    { apply Z.le_trans with (2 ^ Z.log2 m).
      - apply Z.pow_le_mono_r; lia.
      - apply Z.log2_spec; lia. }
    assert (1 <= m / 2 ^ n).
    { apply Z.div_le_lower_bound; lia. }
    lia.
  - right. split; [lia|]. rewrite Zdigits2_log2 by lia.
    assert (Hlog : 0 <= Z.log2 m - n).
    { destruct (Z.lt_ge_cases (Z.log2 m) n) as [Hlt|]; [|lia]. exfalso.
      assert (m < 2 ^ n).
      { apply Z.log2_lt_pow2; lia. }
      rewrite Z.div_small in Hne; lia. }
    lia.
Qed.

Lemma fexp_mono (a b : Z) : a <= b -> fexp prec emax a <= fexp prec emax b.
Proof. unfold fexp. lia. Qed.

Lemma fexp_ge_emin (a : Z) : emin prec emax <= fexp prec emax a.
Proof. unfold fexp. lia. Qed.

Lemma shr_1_half (mrs : shr_record) :
  0 <= shr_m mrs -> shr_m (shr_1 mrs) = shr_m mrs / 2.
Proof.
  destruct mrs as [m r s]. simpl. intros Hm.
  rewrite <- Z.div2_div.
  destruct m as [|[p|p|]|p]; try reflexivity; lia.
Qed.

Lemma iter_shr_1_div (p : positive) :
  forall mrs, 0 <= shr_m mrs ->
    shr_m (iter_pos shr_1 p mrs) = shr_m mrs / 2 ^ Zpos p.
Proof.
  induction p as [p IH | p IH |]; intros mrs Hm; simpl iter_pos.
  - rewrite IH by (apply iter_shr_1_nonneg, shr_1_nonneg, Hm).
    rewrite IH by (apply shr_1_nonneg, Hm).
    rewrite shr_1_half by assumption.
    rewrite !Z.div_div by lia.
    f_equal. rewrite (Pos2Z.inj_xI p).
    replace (2 * Z.pos p + 1) with (1 + Z.pos p + Z.pos p) by lia.
    rewrite !Z.pow_add_r by lia. change (2 ^ 1) with 2. ring.
  - rewrite IH by (apply iter_shr_1_nonneg, Hm).
    rewrite IH by assumption.
    rewrite !Z.div_div by lia.
    f_equal. rewrite (Pos2Z.inj_xO p).
    replace (2 * Z.pos p) with (Z.pos p + Z.pos p) by lia.
    rewrite !Z.pow_add_r by lia. ring.
  - now rewrite shr_1_half.
Qed.

Lemma shr_record_of_loc_m (m : Z) (l : location) : shr_m (shr_record_of_loc m l) = m.
Proof. destruct l as [|[]]; reflexivity. Qed.

(** [shr_fexp] on a mantissa that has enough digits moves the exponent
    to [fexp] and divides the mantissa accordingly. *)
Lemma shr_fexp_spec (m e : Z) (l : location) :
  0 <= m -> e <= fexp prec emax (Zdigits2 m + e) ->
  snd (shr_fexp prec emax m e l) = fexp prec emax (Zdigits2 m + e)
  /\ shr_m (fst (shr_fexp prec emax m e l))
     = m / 2 ^ (fexp prec emax (Zdigits2 m + e) - e).
Proof.
  intros Hm He. unfold shr_fexp, shr.
  destruct (fexp prec emax (Zdigits2 m + e) - e) as [|p|p] eqn:En; try lia.
  - simpl. rewrite shr_record_of_loc_m. split; [lia|].
    now rewrite Z.div_1_r.
  - simpl. split; [lia|].
    rewrite iter_shr_1_div by (rewrite shr_record_of_loc_m; assumption).
    now rewrite shr_record_of_loc_m.
Qed.

(** After the shift the pair is zero at [emin], or canonical. *)
Lemma shifted_canonical (m e : Z) :
  0 <= m -> e <= fexp prec emax (Zdigits2 m + e) ->
  let e' := fexp prec emax (Zdigits2 m + e) in
  let m' := m / 2 ^ (e' - e) in
  (m' = 0 /\ e' = emin prec emax)
  \/ (0 < m' /\ fexp prec emax (Zdigits2 m' + e') = e').
Proof.
  intros Hm He e' m'.
  destruct (Z.eq_dec m 0) as [-> | Hne].
  - left. subst m' e'. split; [apply Z.div_0_l; apply Z.pow_nonzero; lia|].
    simpl Zdigits2 in *. unfold fexp in *. lia.
  - destruct (Zdigits2_shift m (e' - e)) as [(E0 & Hd) | (Hpos & Hd)]; try lia.
    + left. split; [exact E0|]. subst e'. unfold fexp in *. lia.
    + right. split; [exact Hpos|]. fold m' in Hd. rewrite Hd.
      replace (Zdigits2 m - (e' - e) + e') with (Zdigits2 m + e) by lia.
      reflexivity.
Qed.

Lemma round_nearest_even_range (m : Z) (l : location) :
  m <= round_nearest_even m l <= m + 1.
Proof.
  destruct l as [|[]]; simpl; try lia.
  destruct (Z.even m); lia.
Qed.

Lemma binary_round_aux_valid (sx : bool) (mx ex : Z) (lx : location) :
  0 <= mx -> ex <= fexp prec emax (Zdigits2 mx + ex) ->
  valid_binary prec emax (binary_round_aux prec emax sx mx ex lx) = true.
Proof.
  intros Hm He. unfold binary_round_aux.
  pose proof (shr_fexp_spec mx ex lx Hm He) as [H1e H1m].
  pose proof (shifted_canonical mx ex Hm He) as H1c. cbv zeta in H1c.
  destruct (shr_fexp prec emax mx ex lx) as [mrs' e'].
  simpl in H1e, H1m. rewrite <- H1e in H1c, H1m. rewrite <- H1m in H1c.
  set (m2 := round_nearest_even (shr_m mrs') (loc_of_shr_record mrs')).
  pose proof (round_nearest_even_range (shr_m mrs') (loc_of_shr_record mrs')) as Hr.
  fold m2 in Hr.
  assert (Hm1 : 0 <= shr_m mrs') by (destruct H1c; lia).
  assert (Hm2 : 0 <= m2) by lia.
  assert (He2 : e' <= fexp prec emax (Zdigits2 m2 + e')).
  { destruct H1c as [(_ & ->) | (Hpos & Hc)]; [apply fexp_ge_emin|].
    rewrite <- Hc at 1. apply fexp_mono.
    pose proof (Zdigits2_mono (shr_m mrs') m2). lia. }
  pose proof (shr_fexp_spec m2 e' loc_Exact Hm2 He2) as [H2e H2m].
  pose proof (shifted_canonical m2 e' Hm2 He2) as H2c. cbv zeta in H2c.
  destruct (shr_fexp prec emax m2 e' loc_Exact) as [mrs'' e''].
  simpl in H2e, H2m. rewrite <- H2e in H2c, H2m. rewrite <- H2m in H2c.
  destruct (shr_m mrs'') as [|p|p]; try reflexivity.
  destruct (e'' <=? emax - prec) eqn:Hle; [|reflexivity].
  simpl. unfold bounded, canonical_mantissa. rewrite Hle, andb_true_r.
  destruct H2c as [(H0 & _) | (_ & Hc)]; [discriminate H0|].
  simpl Zdigits2 in Hc. now apply Z.eqb_eq.
Qed.

Lemma digits2_shl (mx d : positive) :
  Zpos (digits2_pos (Pos.iter xO mx d)) = Zpos (digits2_pos mx) + Zpos d.
Proof.
  induction d as [|d IH] using Pos.peano_ind.
  - simpl. lia.
  - rewrite Pos.iter_succ. simpl digits2_pos. lia.
Qed.

Lemma binary_round_valid (sx : bool) (mx : positive) (ex : Z) :
  valid_binary prec emax (binary_round prec emax sx mx ex) = true.
Proof.
  unfold binary_round, shl_align.
  destruct (fexp prec emax (Zpos (digits2_pos mx) + ex) - ex) as [|d|d] eqn:E.
  - apply binary_round_aux_valid; [lia|]. simpl Zdigits2. lia.
  - apply binary_round_aux_valid; [lia|]. simpl Zdigits2. lia.
  - apply binary_round_aux_valid; [lia|]. simpl Zdigits2.
    rewrite digits2_shl.
    replace (Zpos (digits2_pos mx) + Zpos d
             + fexp prec emax (Zpos (digits2_pos mx) + ex))
      with (Zpos (digits2_pos mx) + ex) by lia.
    lia.
Qed.

Lemma Zdigits2_bounds (m : Z) :
  0 < m -> 2 ^ (Zdigits2 m - 1) <= m < 2 ^ Zdigits2 m.
Proof.
  intros Hm. rewrite (Zdigits2_log2 m Hm).
  replace (Z.log2 m + 1 - 1) with (Z.log2 m) by lia.
  apply Z.log2_spec, Hm.
Qed.

Lemma Zdigits2_lower (q k : Z) : 0 <= k -> 2 ^ k <= q -> k + 1 <= Zdigits2 q.
Proof.
  intros Hk Hq.
  assert (0 < q) by (pose proof (Z.pow_pos_nonneg 2 k); lia).
  rewrite Zdigits2_log2 by assumption.
  apply Z.log2_le_pow2 in Hq; lia.
Qed.

Lemma SFdiv_core_enough (m1 m2 : positive) (e1 e2 : Z) :
  let '(q, e, _) := SFdiv_core_binary prec emax (Zpos m1) e1 (Zpos m2) e2 in
  0 <= q /\ e <= fexp prec emax (Zdigits2 q + e).
Proof.
  unfold SFdiv_core_binary.
  set (d1 := Zdigits2 (Zpos m1)). set (d2 := Zdigits2 (Zpos m2)).
  set (x := d1 + e1 - (d2 + e2)).
  set (e' := Z.min (fexp prec emax x) (e1 - e2)).
  set (s := e1 - e2 - e').
  assert (Hs : 0 <= s) by (subst s e'; lia).
  set (m' := match s with
             | 0 => Zpos m1
             | Zpos _ => Z.shiftl (Zpos m1) s
             | Zneg _ => 0
             end).
  assert (Hm' : m' = Zpos m1 * 2 ^ s).
  { subst m'. destruct s as [|p|p] eqn:Es; try lia.
    now rewrite Z.shiftl_mul_pow2 by lia. }
  pose proof (Z_div_mod m' (Zpos m2) eq_refl) as Hdiv.
  destruct (Z.div_eucl m' (Zpos m2)) as [q r] eqn:Eqr.
  assert (Hq : q = m' / Zpos m2) by (unfold Z.div; now rewrite Eqr).
  pose proof (Zdigits2_bounds (Zpos m1) eq_refl) as [Hb1 _]. fold d1 in Hb1.
  pose proof (Zdigits2_bounds (Zpos m2) eq_refl) as [_ Hb2]. fold d2 in Hb2.
  assert (Hd1 : 0 < d1) by (apply Zdigits2_pos; reflexivity).
  assert (Hd2 : 0 < d2) by (apply Zdigits2_pos; reflexivity).
  assert (Hm'lo : 2 ^ (d1 - 1 + s) <= m').
  { rewrite Hm', Z.pow_add_r by lia.
    apply Z.mul_le_mono_nonneg_r; [apply Z.pow_nonneg; lia | assumption]. }
  assert (Hq0 : 0 <= q).
  { rewrite Hq. apply Z.div_pos; [|reflexivity].
    rewrite Hm'. apply Z.mul_nonneg_nonneg; [lia | apply Z.pow_nonneg; lia]. }
  split; [assumption|].
  assert (He' : e' <= fexp prec emax x) by (subst e'; lia).
  destruct (Z.eq_dec q 0) as [-> | Hne].
  - (* the quotient is zero: the exponent is at most [emin] *)
    assert (Hlt : m' < Zpos m2).
    { destruct (Z.lt_ge_cases m' (Zpos m2)) as [|Hge]; [assumption|]. exfalso.
      assert (1 <= m' / Zpos m2) by (apply Z.div_le_lower_bound; lia). lia. }
    assert (Hk : d1 - 1 + s < d2).
    { apply (Z.pow_lt_mono_r_iff 2); lia. }
    simpl Zdigits2. unfold fexp in *. subst s x. lia.
  - assert (Hdq : d1 + s - d2 <= Zdigits2 q).
    { destruct (Z.lt_ge_cases (d1 - 1 + s - d2) 0) as [Hneg | Hk].
      - pose proof (Zdigits2_pos q). lia.
      - replace (d1 + s - d2) with ((d1 - 1 + s - d2) + 1) by lia.
        apply Zdigits2_lower; [assumption|]. rewrite Hq.
        apply Z.le_trans with (m' / 2 ^ d2).
        + apply Z.div_le_lower_bound; [apply Z.pow_pos_nonneg; lia|].
          rewrite <- Z.pow_add_r by lia.
          replace (d2 + (d1 - 1 + s - d2)) with (d1 - 1 + s) by lia. assumption.
        + apply Z.div_le_compat_l; [|lia].
          pose proof (Z.pow_nonneg 2 (d1 - 1 + s)). lia. }
    apply Z.le_trans with (fexp prec emax x); [assumption|].
    apply fexp_mono. subst x s. lia.
Qed.

Lemma SFdiv_finite_valid (s1 s2 : bool) (m1 m2 : positive) (e1 e2 : Z) :
  valid_binary prec emax
    (SFdiv prec emax (S754_finite s1 m1 e1) (S754_finite s2 m2 e2)) = true.
Proof.
  unfold SFdiv.
  pose proof (SFdiv_core_enough m1 m2 e1 e2) as H.
  destruct (SFdiv_core_binary prec emax (Zpos m1) e1 (Zpos m2) e2) as [[q e] l].
  destruct H as [Hq He]. now apply binary_round_aux_valid.
Qed.

End WellFormed.

Section ParsedValues.

Import Regex Parse Notions Words.

Local Open Scope Z_scope.

Lemma roundDecimal_valid (neg : bool) (m e : Z) :
  valid_binary 53 1024 (JS.roundDecimal neg m e) = true.
Proof.
  unfold JS.roundDecimal. destruct (m <=? 0); [reflexivity|].
  apply SFdiv_finite_valid. reflexivity.
Qed.

Lemma Number_valid (s : string) : valid_binary 53 1024 (JS.Number s) = true.
Proof.
  unfold JS.Number. destruct (JS.trim s) as [|c t]; [reflexivity|].
  destruct (JS.parseSign (String c t)) as [neg u].
  destruct (u =? "Infinity")%string; [reflexivity|].
  destruct (JS.parseUnsignedDecimal u) as [[m e]|]; [apply roundDecimal_valid|].
  destruct (JS.parseNonDecimal (String c t)); [apply roundDecimal_valid | reflexivity].
Qed.

Lemma toFloat32_valid (v : JS.number) :
  valid_binary 24 128 (JS.toFloat32 v) = true.
Proof.
  destruct v; try reflexivity. apply binary_round_valid. reflexivity.
Qed.

Lemma parsed_valid (input : string) (opts : ParseOptions) (v : JS.number) (t : string) :
  ParseFloatingInput input opts = Valid v t -> valid_binary 53 1024 v = true.
Proof.
  intros H. apply Valid_inv in H as (_ & _ & [H | (_ & _ & -> & _)]).
  - apply parseSpecial_Valid in H as (sg & _ & [(-> & _) | (-> & _)]);
      [reflexivity | destruct (sg =? "-")%string; reflexivity].
  - apply Number_valid.
Qed.

End ParsedValues.

(* ================================================================== *)
(** * The fields decode the value                                      *)
(* ================================================================== *)

Section Decoding.

Import Render Ieee754.

Local Open Scope Z_scope.

(** Mantissa and exponent of a well-formed finite value. *)
Lemma bounded_range (prec emax : Z) (m : positive) (e : Z) :
  0 < prec -> bounded prec emax m e = true ->
  Zpos m < 2 ^ prec /\ emin prec emax <= e <= emax - prec
  /\ (Zpos m < 2 ^ (prec - 1) -> e = emin prec emax).
Proof.
  intros Hprec Hb. unfold bounded, canonical_mantissa in Hb.
  apply andb_true_iff in Hb as [Hc He].
  apply Z.eqb_eq in Hc. apply Z.leb_le in He.
  pose proof (Zdigits2_bounds (Zpos m) eq_refl) as [Hlo Hhi].
  simpl Zdigits2 in Hlo, Hhi.
  set (d := Zpos (digits2_pos m)) in *.
  assert (Hd : d <= prec) by (unfold fexp in Hc; lia).
  split; [|split].
  - eapply Z.lt_le_trans; [exact Hhi|]. apply Z.pow_le_mono_r; lia.
  - unfold fexp in Hc. lia.
  - intros Hsmall.
    assert (d - 1 < prec - 1).
    { apply (Z.pow_lt_mono_r_iff 2); lia. }
    unfold fexp in Hc. lia.
Qed.

Lemma split64 (S E M : Z) :
  0 <= S <= 1 -> 0 <= E < 2 ^ 11 -> 0 <= M < 2 ^ 52 ->
  let p := S * 2 ^ 63 + E * 2 ^ 52 + M in
  ((p / 2 ^ 32) mod 2 ^ 32 / 2 ^ 31) mod 2 = S
  /\ ((p / 2 ^ 32) mod 2 ^ 32 / 2 ^ 20) mod 2 ^ 11 = E
  /\ ((p / 2 ^ 32) mod 2 ^ 32) mod 2 ^ 20 = M / 2 ^ 32
  /\ p mod 2 ^ 32 = M mod 2 ^ 32.
Proof.
  intros HS HE HM p. subst p.
  change (2 ^ 63) with 9223372036854775808. change (2 ^ 52) with 4503599627370496 in *.
  change (2 ^ 32) with 4294967296. change (2 ^ 31) with 2147483648.
  change (2 ^ 20) with 1048576. change (2 ^ 11) with 2048 in *.
  repeat split; Z.div_mod_to_equations; lia.
Qed.

Lemma split32 (S E M : Z) :
  0 <= S <= 1 -> 0 <= E < 2 ^ 8 -> 0 <= M < 2 ^ 23 ->
  let u := (S * 2 ^ 31 + E * 2 ^ 23 + M) mod 2 ^ 32 in
  (u / 2 ^ 31) mod 2 = S /\ (u / 2 ^ 23) mod 2 ^ 8 = E /\ u mod 2 ^ 23 = M.
Proof.
  intros HS HE HM u. subst u.
  change (2 ^ 32) with 4294967296. change (2 ^ 31) with 2147483648.
  change (2 ^ 23) with 8388608 in *. change (2 ^ 8) with 256 in *.
  repeat split; Z.div_mod_to_equations; lia.
Qed.

Lemma kind_of_fields64 (v : JS.number) :
  kind (float64Bits v)
  = classifyFloat64 (exponentBits (float64Bits v)) (mantissaHigh (float64Bits v))
                    (mantissaLow (float64Bits v)).
Proof.
  unfold float64Bits. cbv zeta. cbn [kind exponentBits mantissaHigh mantissaLow].
  reflexivity.
Qed.

Lemma unbiased_of_kind64 (v : JS.number) :
  exponentUnbiased (float64Bits v)
  = match kind (float64Bits v) with
    | Normal => Some (exponentBits (float64Bits v) - 1023)
    | Subnormal => Some (-1022)
    | _ => None
    end.
Proof.
  unfold float64Bits. cbv zeta. cbn [kind exponentBits exponentUnbiased]. reflexivity.
Qed.

Lemma kind_of_fields32 (v : JS.number) :
  kind32 (float32Bits v)
  = classifyFloat32 (exponentBits32 (float32Bits v)) (mantissaBits32 (float32Bits v)).
Proof.
  unfold float32Bits. cbv zeta. cbn [kind32 exponentBits32 mantissaBits32].
  reflexivity.
Qed.

Lemma unbiased_of_kind32 (v : JS.number) :
  exponentUnbiased32 (float32Bits v)
  = match kind32 (float32Bits v) with
    | Normal => Some (exponentBits32 (float32Bits v) - 127)
    | Subnormal => Some (-126)
    | _ => None
    end.
Proof.
  unfold float32Bits. cbv zeta. cbn [kind32 exponentBits32 exponentUnbiased32].
  reflexivity.
Qed.

(** The fields of [float64Bits] in terms of the three parts of the
    pattern. *)
Lemma fields64_of_parts (v : JS.number) (S E M : Z) :
  JS.encode64 v = S * 2 ^ 63 + E * 2 ^ 52 + M ->
  0 <= S <= 1 -> 0 <= E < 2 ^ 11 -> 0 <= M < 2 ^ 52 ->
  signBit (float64Bits v) = S
  /\ exponentBits (float64Bits v) = E
  /\ mantissaHigh (float64Bits v) * 2 ^ 32 + mantissaLow (float64Bits v) = M
  /\ kind (float64Bits v)
     = (if E =? 0 then (if M =? 0 then Zero else Subnormal)
        else if E =? 2047 then (if M =? 0 then Infinity else NaN)
        else Normal).
Proof.
  intros Hp HS HE HM.
  rewrite kind_of_fields64.
  destruct (fields64 v) as (-> & -> & -> & ->). rewrite Hp.
  destruct (split64 S E M HS HE HM) as (-> & -> & -> & ->).
  split; [reflexivity|]. split; [reflexivity|].
  assert (HMsplit : M / 2 ^ 32 * 2 ^ 32 + M mod 2 ^ 32 = M).
  { pose proof (Z.div_mod M (2 ^ 32)). lia. }
  split; [exact HMsplit|].
  unfold classifyFloat64.
  assert (Hz : (M / 2 ^ 32 =? 0) && (M mod 2 ^ 32 =? 0) = (M =? 0)).
  { destruct (M =? 0) eqn:E0.
    - apply Z.eqb_eq in E0. subst M. reflexivity.
    - apply Z.eqb_neq in E0. apply andb_false_iff.
      destruct (Z.eq_dec (M / 2 ^ 32) 0) as [E1|E1];
        [right | left]; apply Z.eqb_neq; lia. }
  now rewrite Hz.
Qed.

Lemma fields32_of_parts (v : JS.number) (S E M : Z) :
  JS.encode32 (JS.toFloat32 v) = S * 2 ^ 31 + E * 2 ^ 23 + M ->
  0 <= S <= 1 -> 0 <= E < 2 ^ 8 -> 0 <= M < 2 ^ 23 ->
  signBit32 (float32Bits v) = S
  /\ exponentBits32 (float32Bits v) = E
  /\ mantissaBits32 (float32Bits v) = M
  /\ kind32 (float32Bits v)
     = (if E =? 0 then (if M =? 0 then Zero else Subnormal)
        else if E =? 255 then (if M =? 0 then Infinity else NaN)
        else Normal).
Proof.
  intros Hp HS HE HM.
  rewrite kind_of_fields32.
  destruct (fields32 v) as (-> & -> & ->). rewrite Hp.
  destruct (split32 S E M HS HE HM) as (-> & -> & ->).
  repeat split.
Qed.


Lemma encode64_parts (v : JS.number) :
  valid_binary 53 1024 v = true ->
  exists S E M,
    JS.encode64 v = S * 2 ^ 63 + E * 2 ^ 52 + M
    /\ 0 <= S <= 1 /\ 0 <= E < 2 ^ 11 /\ 0 <= M < 2 ^ 52
    /\ match v with
       | S754_zero s => S = (if s then 1 else 0) /\ E = 0 /\ M = 0
       | S754_infinity s => S = (if s then 1 else 0) /\ E = 2047 /\ M = 0
       | S754_nan => S = 0 /\ E = 2047 /\ M = 2 ^ 51
       | S754_finite s m e =>
           S = (if s then 1 else 0)
           /\ ((1 <= E <= 2046 /\ E = e + 1075 /\ 2 ^ 52 + M = Zpos m)
               \/ (E = 0 /\ e = -1074 /\ M = Zpos m))
       end.
Proof.
  intros Hv. unfold JS.encode64, JS.encode, JS.joinBits.
  change (2 ^ (52 + 11)) with (2 ^ 63). change (2 ^ (11 - 1)) with 1024.
  change (2 ^ 11 - 1) with 2047. change (2 ^ (52 - 1)) with (2 ^ 51).
  destruct v as [s | s | | s m e].
  - exists (if s then 1 else 0), 0, 0. destruct s; repeat split; try lia; reflexivity.
  - exists (if s then 1 else 0), 2047, 0. destruct s; repeat split; try lia; reflexivity.
  - exists 0, 2047, (2 ^ 51). repeat split; try lia; reflexivity.
  - simpl in Hv. apply bounded_range in Hv as (Hm & He & Hsub); [|lia].
    change (emin 53 1024) with (-1074) in *. change (53 - 1) with 52 in Hsub.
    destruct (2 ^ 52 <=? Zpos m) eqn:Hn;
      [apply Z.leb_le in Hn | apply Z.leb_gt in Hn].
    + exists (if s then 1 else 0), (e + 1075), (Zpos m - 2 ^ 52).
      change (2 ^ 53) with (2 * 2 ^ 52) in Hm.
      change (2 ^ 11) with 2048.
      split; [destruct s; lia|].
      repeat split; destruct s; lia.
    + exists (if s then 1 else 0), 0, (Zpos m).
      specialize (Hsub Hn).
      split; [destruct s; lia|].
      repeat split; destruct s; lia.
Qed.

(** X10.  The fields of [float64Bits] decode a well-formed binary64
    value: the kind is the class of the value, the sign bit is its
    sign, and for a finite value [m * 2^e] either the kind is Normal,
    the unbiased exponent is [e + 52] and the mantissa field is
    [m - 2^52], or the kind is Subnormal, [e] is -1074 and the
    mantissa field is [m]. *)
Theorem float64_fields_decode (v : JS.number) :
  valid_binary 53 1024 v = true ->
  match v with
  | S754_zero s =>
      kind (float64Bits v) = Zero /\ signBit (float64Bits v) = (if s then 1 else 0)
  | S754_infinity s =>
      kind (float64Bits v) = Infinity /\ signBit (float64Bits v) = (if s then 1 else 0)
  | S754_nan => kind (float64Bits v) = NaN
  | S754_finite s m e =>
      signBit (float64Bits v) = (if s then 1 else 0)
      /\ ((kind (float64Bits v) = Normal
           /\ exponentUnbiased (float64Bits v) = Some (e + 52)
           /\ 2 ^ 52 + (mantissaHigh (float64Bits v) * 2 ^ 32
                        + mantissaLow (float64Bits v)) = Zpos m)
          \/ (kind (float64Bits v) = Subnormal
              /\ exponentUnbiased (float64Bits v) = Some (-1022)
              /\ e = -1074
              /\ mantissaHigh (float64Bits v) * 2 ^ 32
                 + mantissaLow (float64Bits v) = Zpos m))
  end.
Proof.
  intros Hv.
  destruct (encode64_parts v Hv) as (S & E & M & Hp & HS & HE & HM & Hcase).
  destruct (fields64_of_parts v S E M Hp HS HE HM) as (Hs & He & Hm & Hk).
  pose proof (unbiased_of_kind64 v) as Hu. rewrite He in Hu.
  destruct v as [s | s | | s m e].
  - destruct Hcase as (-> & -> & ->). now split.
  - destruct Hcase as (-> & -> & ->). now split.
  - destruct Hcase as (-> & -> & ->). exact Hk.
  - destruct Hcase as (-> & [(HEr & -> & HMm) | (-> & -> & ->)]).
    + split; [exact Hs|]. left.
      assert (Hk' : kind (float64Bits (S754_finite s m e)) = Normal).
      { rewrite Hk.
        destruct (e + 1075 =? 0) eqn:E0; [apply Z.eqb_eq in E0; lia|].
        destruct (e + 1075 =? 2047) eqn:E1; [apply Z.eqb_eq in E1; lia|].
        reflexivity. }
      rewrite Hk' in Hu. split; [exact Hk'|]. split.
      * rewrite Hu. f_equal. lia.
      * rewrite Hm. exact HMm.
    + split; [exact Hs|]. right.
      assert (Hk' : kind (float64Bits (S754_finite s m (-1074))) = Subnormal).
      { rewrite Hk. reflexivity. }
      rewrite Hk' in Hu. repeat split; assumption.
Qed.

Lemma encode32_parts (w : JS.number) :
  valid_binary 24 128 w = true ->
  exists S E M,
    JS.encode32 w = S * 2 ^ 31 + E * 2 ^ 23 + M
    /\ 0 <= S <= 1 /\ 0 <= E < 2 ^ 8 /\ 0 <= M < 2 ^ 23
    /\ match w with
       | S754_zero s => S = (if s then 1 else 0) /\ E = 0 /\ M = 0
       | S754_infinity s => S = (if s then 1 else 0) /\ E = 255 /\ M = 0
       | S754_nan => S = 0 /\ E = 255 /\ M = 2 ^ 22
       | S754_finite s m e =>
           S = (if s then 1 else 0)
           /\ ((1 <= E <= 254 /\ E = e + 150 /\ 2 ^ 23 + M = Zpos m)
               \/ (E = 0 /\ e = -149 /\ M = Zpos m))
       end.
Proof.
  intros Hv. unfold JS.encode32, JS.encode, JS.joinBits.
  change (2 ^ (23 + 8)) with (2 ^ 31). change (2 ^ (8 - 1)) with 128.
  change (2 ^ 8 - 1) with 255. change (2 ^ (23 - 1)) with (2 ^ 22).
  destruct w as [s | s | | s m e].
  - exists (if s then 1 else 0), 0, 0. destruct s; repeat split; try lia; reflexivity.
  - exists (if s then 1 else 0), 255, 0. destruct s; repeat split; try lia; reflexivity.
  - exists 0, 255, (2 ^ 22). repeat split; try lia; reflexivity.
  - simpl in Hv. apply bounded_range in Hv as (Hm & He & Hsub); [|lia].
    change (emin 24 128) with (-149) in *. change (24 - 1) with 23 in Hsub.
    destruct (2 ^ 23 <=? Zpos m) eqn:Hn;
      [apply Z.leb_le in Hn | apply Z.leb_gt in Hn].
    + exists (if s then 1 else 0), (e + 150), (Zpos m - 2 ^ 23).
      change (2 ^ 24) with (2 * 2 ^ 23) in Hm.
      change (2 ^ 8) with 256.
      split; [destruct s; lia|].
      repeat split; destruct s; lia.
    + exists (if s then 1 else 0), 0, (Zpos m).
      specialize (Hsub Hn).
      split; [destruct s; lia|].
      repeat split; destruct s; lia.
Qed.

(** X11.  The fields of [float32Bits] decode the value narrowed to
    binary32, for every number: the kind is the class of the narrowed
    value, the sign bit is its sign, and for a finite narrowed value
    [m * 2^e] either the kind is Normal, the unbiased exponent is
    [e + 23] and the mantissa field is [m - 2^23], or the kind is
    Subnormal, [e] is -149 and the mantissa field is [m]. *)
Theorem float32_fields_decode (v : JS.number) :
  match JS.toFloat32 v with
  | S754_zero s =>
      kind32 (float32Bits v) = Zero /\ signBit32 (float32Bits v) = (if s then 1 else 0)
  | S754_infinity s =>
      kind32 (float32Bits v) = Infinity
      /\ signBit32 (float32Bits v) = (if s then 1 else 0)
  | S754_nan => kind32 (float32Bits v) = NaN
  | S754_finite s m e =>
      signBit32 (float32Bits v) = (if s then 1 else 0)
      /\ ((kind32 (float32Bits v) = Normal
           /\ exponentUnbiased32 (float32Bits v) = Some (e + 23)
           /\ 2 ^ 23 + mantissaBits32 (float32Bits v) = Zpos m)
          \/ (kind32 (float32Bits v) = Subnormal
              /\ exponentUnbiased32 (float32Bits v) = Some (-126)
              /\ e = -149
              /\ mantissaBits32 (float32Bits v) = Zpos m))
  end.
Proof.
  pose proof (toFloat32_valid v) as Hv.
  destruct (encode32_parts _ Hv) as (S & E & M & Hp & HS & HE & HM & Hcase).
  destruct (fields32_of_parts v S E M Hp HS HE HM) as (Hs & He & Hm & Hk).
  pose proof (unbiased_of_kind32 v) as Hu. rewrite He in Hu.
  destruct (JS.toFloat32 v) as [s | s | | s m e].
  - destruct Hcase as (-> & -> & ->). now split.
  - destruct Hcase as (-> & -> & ->). now split.
  - destruct Hcase as (-> & -> & ->). exact Hk.
  - destruct Hcase as (-> & [(HEr & -> & HMm) | (-> & -> & ->)]).
    + split; [exact Hs|]. left.
      assert (Hk' : kind32 (float32Bits v) = Normal).
      { rewrite Hk.
        destruct (e + 150 =? 0) eqn:E0; [apply Z.eqb_eq in E0; lia|].
        destruct (e + 150 =? 255) eqn:E1; [apply Z.eqb_eq in E1; lia|].
        reflexivity. }
      rewrite Hk' in Hu. split; [exact Hk'|]. split.
      * rewrite Hu. f_equal. lia.
      * rewrite Hm. exact HMm.
    + split; [exact Hs|]. right.
      assert (Hk' : kind32 (float32Bits v) = Subnormal).
      { rewrite Hk. reflexivity. }
      rewrite Hk' in Hu. repeat split; assumption.
Qed.

Lemma float64_fields_decode_witness :
  signBit (float64Bits (S754_finite true 5629499534213120 (-52))) = 1
  /\ ((kind (float64Bits (S754_finite true 5629499534213120 (-52))) = Normal
       /\ exponentUnbiased (float64Bits (S754_finite true 5629499534213120 (-52)))
          = Some (-52 + 52)
       /\ 2 ^ 52 + (mantissaHigh (float64Bits (S754_finite true 5629499534213120 (-52)))
                    * 2 ^ 32
                    + mantissaLow (float64Bits (S754_finite true 5629499534213120 (-52))))
          = 5629499534213120)
      \/ (kind (float64Bits (S754_finite true 5629499534213120 (-52))) = Subnormal
          /\ exponentUnbiased (float64Bits (S754_finite true 5629499534213120 (-52)))
             = Some (-1022)
          /\ -52 = -1074
          /\ mantissaHigh (float64Bits (S754_finite true 5629499534213120 (-52))) * 2 ^ 32
             + mantissaLow (float64Bits (S754_finite true 5629499534213120 (-52)))
             = 5629499534213120)).
Proof.
  exact (float64_fields_decode (S754_finite true 5629499534213120 (-52)) eq_refl).
Defined.

(** ** The 32-bit word *)

Lemma bits32_render (v : JS.number) :
  bits32 (float32Bits v) = digitsFixed 2 32 (JS.encode32 (JS.toFloat32 v)).
Proof.
  unfold float32Bits. cbv zeta. cbn [bits32].
  now rewrite getUint32_f32, toBitsString32_fixed, Z.mod_mod, bits32_mod by lia.
Qed.

Lemma hex32_render (v : JS.number) :
  hex32 (float32Bits v) = digitsFixed 16 8 (JS.encode32 (JS.toFloat32 v)).
Proof.
  unfold float32Bits. cbv zeta. cbn [hex32].
  now rewrite getUint32_f32, toHex32_fixed, Z.mod_mod, hex32_mod by lia.
Qed.

Lemma bitsToHexPadded_32 (s : string) :
  String.length s = 32%nat ->
  bitsToHexPadded s
    = fold_left (fun hex nib => hex ++ nibbleHex nib) (chunksOf (List.repeat 4%nat 8) s) "".
Proof. intros H. explode s H. reflexivity. Qed.

Lemma slices_rejoin32 (s : string) :
  String.length s = 32%nat ->
  JS.slice s 0 1 ++ JS.slice s 1 9 ++ JS.sliceFrom s 9 = s.
Proof.
  intros H. unfold JS.slice, JS.sliceFrom. rewrite H.
  change (1 - 0)%nat with 1%nat. change (9 - 1)%nat with 8%nat.
  change (32 - 9)%nat with 23%nat.
  rewrite <- (substring_split s 1 8), <- (substring_split s 0 1).
  rewrite <- H at 1. apply substring_all.
Qed.

Lemma rebuild32 (v : JS.number) :
  signBit32 (float32Bits v) * 2 ^ 31 + exponentBits32 (float32Bits v) * 2 ^ 23
  + mantissaBits32 (float32Bits v) = JS.encode32 (JS.toFloat32 v).
Proof.
  destruct (encode32_parts _ (toFloat32_valid v)) as (S & E & M & Hp & HS & HE & HM & _).
  destruct (fields32_of_parts v S E M Hp HS HE HM) as (-> & -> & -> & _).
  now rewrite Hp.
Qed.

Lemma rebuild64 (v : JS.number) :
  valid_binary 53 1024 v = true ->
  signBit (float64Bits v) * 2 ^ 63 + exponentBits (float64Bits v) * 2 ^ 52
  + mantissaHigh (float64Bits v) * 2 ^ 32 + mantissaLow (float64Bits v)
  = JS.encode64 v.
Proof.
  intros Hv.
  destruct (encode64_parts v Hv) as (S & E & M & Hp & HS & HE & HM & _).
  destruct (fields64_of_parts v S E M Hp HS HE HM) as (-> & -> & Hm & _).
  rewrite Hp. lia.
Qed.

(** X12.  For every number the numeric fields of [float32Bits]
    rebuild the 32-bit pattern of the value narrowed to binary32:
    signBit * 2^31 + exponentBits * 2^23 + mantissaBits is the pattern;
    the three bit strings concatenate to the bits string, which is the
    pattern in 32 binary digits; the hex string is the pattern in 8
    hexadecimal digits, and reading the bits four at a time gives the
    hex string. *)
Theorem float32_fields_rebuild_pattern (v : JS.number) :
  (signBit32 (float32Bits v) * 2 ^ 31 + exponentBits32 (float32Bits v) * 2 ^ 23
   + mantissaBits32 (float32Bits v) = JS.encode32 (JS.toFloat32 v))
  /\ 0 <= JS.encode32 (JS.toFloat32 v) < 2 ^ 32
  /\ signBitsStr32 (float32Bits v) ++ exponentBitsStr32 (float32Bits v)
       ++ mantissaBitsStr32 (float32Bits v) = bits32 (float32Bits v)
  /\ bits32 (float32Bits v) = digitsFixed 2 32 (JS.encode32 (JS.toFloat32 v))
  /\ hex32 (float32Bits v) = digitsFixed 16 8 (JS.encode32 (JS.toFloat32 v))
  /\ bitsToHexPadded (bits32 (float32Bits v)) = hex32 (float32Bits v).
Proof.
  split; [apply rebuild32|]. split.
  { destruct (encode32_parts _ (toFloat32_valid v)) as (S & E & M & -> & HS & HE & HM & _).
    change (2 ^ 31) with 2147483648. change (2 ^ 23) with 8388608 in *.
    change (2 ^ 8) with 256 in *. change (2 ^ 32) with 4294967296. lia. }
  split.
  { change (signBitsStr32 (float32Bits v)) with (JS.slice (bits32 (float32Bits v)) 0 1).
    change (exponentBitsStr32 (float32Bits v)) with (JS.slice (bits32 (float32Bits v)) 1 9).
    change (mantissaBitsStr32 (float32Bits v)) with (JS.sliceFrom (bits32 (float32Bits v)) 9).
    apply slices_rejoin32. rewrite bits32_render. apply length_digitsFixed. }
  split; [apply bits32_render|]. split; [apply hex32_render|].
  rewrite bits32_render, hex32_render.
  rewrite bitsToHexPadded_32 by apply length_digitsFixed.
  apply (fold_hex 8 _ "").
Qed.

End Decoding.

(* ================================================================== *)
(** * From the text to the bits                                        *)
(* ================================================================== *)

Section EndToEnd.

Import Render Parse Ieee754 Usecase.

Local Open Scope Z_scope.

Lemma buildViewModel_Valid (inputText : string) (p p' : Precision)
      (t : string) (v : JS.number) (b : BitsInfo) :
  buildViewModel inputText p = ViewValid t v p' b ->
  ParseFloatingInput inputText noOptions = Valid v t /\ p' = p
  /\ b = match p with
         | float => Bits32 (float32Bits v)
         | double => Bits64 (float64Bits v)
         end.
Proof.
  unfold buildViewModel. cbv zeta.
  destruct (ParseFloatingInput inputText noOptions) as [v' t' | r nt | r nt];
    try discriminate.
  intros H. injection H as <- <- <- <-. repeat split.
Qed.

(** X13.  From the text to the bits: whenever [buildViewModel] answers
    Valid, its normalized text reads back as its value, and its bits
    are those of that value at the requested precision: the numeric
    fields rebuild the pattern of the value (narrowed to binary32 for
    float) and the hex string is that pattern. *)
Theorem viewModel_shows_value (inputText : string) (p p' : Precision)
      (t : string) (v : JS.number) (b : BitsInfo) :
  buildViewModel inputText p = ViewValid t v p' b ->
  JS.Number t = v
  /\ match b with
     | Bits64 b64 =>
         p = double
         /\ signBit b64 * 2 ^ 63 + exponentBits b64 * 2 ^ 52
            + mantissaHigh b64 * 2 ^ 32 + mantissaLow b64 = JS.encode64 v
         /\ hex b64 = digitsFixed 16 16 (JS.encode64 v)
     | Bits32 b32 =>
         p = float
         /\ signBit32 b32 * 2 ^ 31 + exponentBits32 b32 * 2 ^ 23
            + mantissaBits32 b32 = JS.encode32 (JS.toFloat32 v)
         /\ hex32 b32 = digitsFixed 16 8 (JS.encode32 (JS.toFloat32 v))
     end.
Proof.
  intros H. apply buildViewModel_Valid in H as (Hparse & -> & ->).
  split; [apply (normalizedText_value inputText noOptions v t Hparse)|].
  destruct p.
  - split; [reflexivity|]. split; [apply rebuild32 | apply hex32_render].
  - split; [reflexivity|]. split; [|apply hex64_render].
    apply rebuild64. apply (parsed_valid inputText noOptions v t Hparse).
Qed.

Lemma viewModel_shows_value_witness :
  JS.Number "-1.25" = S754_finite true 5629499534213120 (-52)
  /\ double = double
  /\ signBit (float64Bits (S754_finite true 5629499534213120 (-52))) * 2 ^ 63
     + exponentBits (float64Bits (S754_finite true 5629499534213120 (-52))) * 2 ^ 52
     + mantissaHigh (float64Bits (S754_finite true 5629499534213120 (-52))) * 2 ^ 32
     + mantissaLow (float64Bits (S754_finite true 5629499534213120 (-52)))
     = JS.encode64 (S754_finite true 5629499534213120 (-52))
  /\ hex (float64Bits (S754_finite true 5629499534213120 (-52)))
     = digitsFixed 16 16 (JS.encode64 (S754_finite true 5629499534213120 (-52))).
Proof.
  exact (viewModel_shows_value " -1.25" double double "-1.25"
           (S754_finite true 5629499534213120 (-52))
           (Bits64 (float64Bits (S754_finite true 5629499534213120 (-52))))
           eq_refl).
Defined.

End EndToEnd.

(* ================================================================== *)
(** * The two loops over a string, for every length                    *)
(* ================================================================== *)

Section Loops.

Import Render Ieee754 Words.

Lemma substring_nil (i n : nat) : substring i n "" = "".
Proof. destruct i, n; reflexivity. Qed.

(** A substring of the rest of [s] from [i] is a substring of [s]. *)
Lemma substring_rest (s : string) :
  forall i a b,
    substring a b (substring i (String.length s - i) s) = substring (i + a) b s.
Proof.
  induction s as [|c s IH]; intros i a b.
  - now rewrite !substring_nil.
  - destruct i as [|i].
    + change (String.length (String c s) - 0)%nat with (String.length (String c s)).
      now rewrite substring_all.
    + simpl. apply IH.
Qed.

(** Asking for more characters than are left gives what is left. *)
Lemma substring_short (s : string) :
  forall i n, (String.length s - i <= n)%nat ->
    substring i n s = substring i (String.length s - i) s.
Proof.
  induction s as [|c s IH]; intros i n H.
  - now rewrite !substring_nil.
  - destruct i as [|i].
    + destruct n as [|n]; simpl in H; [lia|]. simpl.
      f_equal. rewrite (IH 0%nat n) by lia. now rewrite Nat.sub_0_r.
    + simpl in *. now apply IH.
Qed.

Lemma groupSizes_0 (n : nat) : (0 < n)%nat -> groupSizes 0 n = [].
Proof.
  intros Hn. unfold groupSizes.
  rewrite Nat.Div0.div_0_l, Nat.Div0.mod_0_l. reflexivity.
Qed.

Lemma groupSizes_small (r n : nat) :
  (0 < r < n)%nat -> groupSizes r n = [r].
Proof.
  intros H. unfold groupSizes.
  rewrite Nat.div_small, Nat.mod_small by lia.
  destruct (r =? 0)%nat eqn:E; [apply Nat.eqb_eq in E; lia | reflexivity].
Qed.

Lemma groupSizes_step (r n : nat) :
  (0 < n <= r)%nat -> groupSizes r n = n :: groupSizes (r - n) n.
Proof.
  intros H.
  assert (E1 : (r / n = S ((r - n) / n))%nat).
  { replace r with ((r - n) + 1 * n)%nat at 1 by lia.
    rewrite Nat.div_add by lia. lia. }
  assert (E2 : (r mod n = (r - n) mod n)%nat).
  { replace r with ((r - n) + 1 * n)%nat at 1 by lia.
    now rewrite Nat.Div0.mod_add. }
  unfold groupSizes. rewrite E1, E2. reflexivity.
Qed.

(** A counted loop that hands consecutive slices to [g] folds [g] over
    the pieces of the string. *)
Lemma forLoop_slices {A : Type} (g : A -> string -> A) (s : string) (n : nat) :
  (0 < n)%nat ->
  forall fuel i acc,
    (String.length s - i <= fuel)%nat ->
    JS.forLoop fuel i (JS.length s) n (fun i acc => g acc (JS.slice s i (i + n))) acc
    = fold_left g
        (chunksOf (groupSizes (String.length s - i) n)
                  (substring i (String.length s - i) s))
        acc.
Proof.
  intros Hn. unfold JS.length.
  induction fuel as [|fuel IH]; intros i acc Hf.
  - replace (String.length s - i)%nat with 0%nat by lia.
    now rewrite groupSizes_0.
  - simpl JS.forLoop.
    destruct (i <? String.length s)%nat eqn:Hi;
      [apply Nat.ltb_lt in Hi | apply Nat.ltb_ge in Hi].
    + rewrite IH by lia.
      assert (Hslice : JS.slice s i (i + n) = substring i n s).
      { unfold JS.slice. f_equal. lia. }
      rewrite Hslice.
      destruct (Nat.le_gt_cases n (String.length s - i)) as [Hge | Hlt].
      * rewrite (groupSizes_step (String.length s - i) n) by lia.
        cbn [chunksOf fold_left].
        rewrite !substring_rest, length_substring, Nat.min_id, Nat.add_0_r.
        replace (String.length s - (i + n))%nat
          with (String.length s - i - n)%nat by lia.
        reflexivity.
      * rewrite (groupSizes_small (String.length s - i) n) by lia.
        replace (String.length s - (i + n))%nat with 0%nat by lia.
        rewrite groupSizes_0 by assumption.
        cbn [chunksOf fold_left].
        rewrite substring_rest, Nat.add_0_r.
        now rewrite (substring_short s i n) by lia.
    + replace (String.length s - i)%nat with 0%nat by lia.
      now rewrite groupSizes_0.
Qed.

Lemma fold_left_snoc {A : Type} (l : list A) :
  forall acc, fold_left (fun out p => (out ++ [p])%list) l acc = (acc ++ l)%list.
Proof.
  induction l as [|x l IH]; intros acc; simpl.
  - now rewrite app_nil_r.
  - rewrite IH, <- app_assoc. reflexivity.
Qed.

Lemma list_sum_repeat (n k : nat) : list_sum (List.repeat n k) = (k * n)%nat.
Proof. induction k as [|k IH]; simpl; [reflexivity | now rewrite IH]. Qed.

Lemma groupSizes_sum (len n : nat) :
  (0 < n)%nat -> list_sum (groupSizes len n) = len.
Proof.
  intros Hn. unfold groupSizes. rewrite list_sum_app, list_sum_repeat.
  pose proof (Nat.div_mod_eq len n) as E.
  destruct (len mod n =? 0)%nat eqn:E0; simpl.
  - apply Nat.eqb_eq in E0. lia.
  - lia.
Qed.

Lemma groupEvery_chunks (s : string) (n : nat) (sep : string) :
  (0 < n)%nat ->
  groupEvery s n sep = JS.join sep (chunksOf (groupSizes (String.length s) n) s).
Proof.
  intros Hn. unfold groupEvery. cbv zeta. f_equal.
  rewrite (forLoop_slices (fun out p => (out ++ [p])%list) s n Hn)
    by (unfold JS.length; lia).
  rewrite fold_left_snoc, Nat.sub_0_r, substring_all. reflexivity.
Qed.

(** X14.  [groupEvery] for every string and every positive group
    size: the result joins, with the separator, the consecutive pieces
    of the string; every piece has the group size, a last shorter one
    holds the remainder, and the pieces together are the string.  The
    empty string gives no piece. *)
Theorem groupEvery_pieces (s : string) (n : nat) (sep : string) :
  (0 < n)%nat ->
  let sizes := groupSizes (String.length s) n in
  groupEvery s n sep = JS.join sep (chunksOf sizes s)
  /\ map String.length (chunksOf sizes s) = sizes
  /\ fold_right append "" (chunksOf sizes s) = s
  /\ groupWithRemainderAtEnd s n sep = groupEvery s n sep.
Proof.
  intros Hn sizes. split; [now apply groupEvery_chunks|].
  destruct (chunksOf_spec sizes s) as [H1 H2];
    [subst sizes; now rewrite groupSizes_sum|].
  repeat split; assumption.
Qed.

Lemma groupEvery_pieces_witness :
  groupEvery "12345678901" 4 " " = "1234 5678 901"
  /\ groupSizes 11 4 = [4; 4; 3]%nat.
Proof.
  split; [|reflexivity].
  exact (proj1 (groupEvery_pieces "12345678901" 4 " " (Nat.lt_0_succ 3))).
Defined.

(** ** Bit strings and their values *)

Local Open Scope Z_scope.

Lemma string_rev_ind (P : string -> Prop) :
  P "" -> (forall s c, P s -> P (s ++ String c "")) -> forall s, P s.
Proof.
  intros H0 Hs.
  assert (H : forall n s, String.length s = n -> P s).
  { induction n as [|n IH]; intros s Hl.
    - destruct s; [exact H0 | discriminate Hl].
    - destruct (snoc_cases s) as [-> | (s' & c & ->)]; [exact H0|].
      apply Hs, IH. rewrite length_append in Hl. simpl in Hl. lia. }
  intros s. now apply (H (String.length s)).
Qed.

Lemma digitsValueFrom_snoc (radix : Z) (s : string) (c : ascii) :
  forall acc,
    JS.digitsValueFrom radix acc (s ++ String c "")
    = JS.digitsValueFrom radix acc s * radix + JS.digitValue c.
Proof. induction s as [|a s IH]; intros acc; simpl; [reflexivity | apply IH]. Qed.

Lemma hexValueFrom_snoc (radix : Z) (s : string) (c : ascii) :
  forall acc,
    JS.hexValueFrom radix acc (s ++ String c "")
    = JS.hexValueFrom radix acc s * radix + JS.hexDigitValue c.
Proof. induction s as [|a s IH]; intros acc; simpl; [reflexivity | apply IH]. Qed.

Lemma length_snoc (s : string) (c : ascii) :
  String.length (s ++ String c "") = S (String.length s).
Proof. rewrite length_append. simpl. lia. Qed.

(** A bit string is the rendering of its value at its own width. *)
Lemma bits_value (s : string) :
  JS.allChars isBit s = true ->
  s = digitsFixed 2 (String.length s) (JS.digitsValueFrom 2 0 s)
  /\ 0 <= JS.digitsValueFrom 2 0 s < 2 ^ Z.of_nat (String.length s).
Proof.
  induction s as [|s c IH] using string_rev_ind; intros Hb.
  - split; [reflexivity | simpl; lia].
  - rewrite allChars_snoc in Hb. apply andb_true_iff in Hb as [Hs Hc].
    destruct (IH Hs) as [E Hr].
    rewrite digitsValueFrom_snoc, length_snoc.
    set (V := JS.digitsValueFrom 2 0 s) in *.
    assert (Hd : (JS.digitValue c = 0 \/ JS.digitValue c = 1)
                 /\ JS.digitChar (JS.digitValue c) = c).
    { apply bit_cases in Hc as [-> | ->]; split; auto. }
    destruct Hd as [Hd Hch].
    split.
    + cbn [digitsFixed].
      replace ((V * 2 + JS.digitValue c) / 2) with V
        by (destruct Hd as [-> | ->]; Z.div_mod_to_equations; lia).
      replace ((V * 2 + JS.digitValue c) mod 2) with (JS.digitValue c)
        by (destruct Hd as [-> | ->]; Z.div_mod_to_equations; lia).
      now rewrite Hch, <- E.
    + rewrite Nat2Z.inj_succ, Z.pow_succ_r by lia. lia.
Qed.

Lemma digitValue_digitChar (d : Z) : 0 <= d < 10 -> JS.digitValue (JS.digitChar d) = d.
Proof.
  intros H.
  assert (E : d = 0 \/ d = 1 \/ d = 2 \/ d = 3 \/ d = 4 \/ d = 5 \/ d = 6
              \/ d = 7 \/ d = 8 \/ d = 9) by lia.
  repeat (destruct E as [-> | E]; [reflexivity|]). now rewrite E.
Qed.

Lemma hexDigitValue_digitChar (d : Z) :
  0 <= d < 16 -> JS.hexDigitValue (JS.digitChar d) = d.
Proof.
  intros H.
  assert (E : d = 0 \/ d = 1 \/ d = 2 \/ d = 3 \/ d = 4 \/ d = 5 \/ d = 6
              \/ d = 7 \/ d = 8 \/ d = 9 \/ d = 10 \/ d = 11 \/ d = 12
              \/ d = 13 \/ d = 14 \/ d = 15) by lia.
  repeat (destruct E as [-> | E]; [reflexivity|]). now rewrite E.
Qed.

(** Reading a rendering back gives the number modulo the width. *)
Lemma value_of_bits (w : nat) :
  forall n, JS.digitsValueFrom 2 0 (digitsFixed 2 w n) = n mod 2 ^ Z.of_nat w.
Proof.
  induction w as [|w IH]; intros n.
  - simpl. now rewrite Z.mod_1_r.
  - cbn [digitsFixed]. rewrite digitsValueFrom_snoc, IH.
    rewrite digitValue_digitChar by (pose proof (Z.mod_pos_bound n 2); lia).
    rewrite Nat2Z.inj_succ, Z.pow_succ_r by lia.
    rewrite (Z.rem_mul_r n 2 (2 ^ Z.of_nat w)) by lia. lia.
Qed.

Lemma value_of_hex (w : nat) :
  forall n, JS.hexValueFrom 16 0 (digitsFixed 16 w n) = n mod 16 ^ Z.of_nat w.
Proof.
  induction w as [|w IH]; intros n.
  - simpl. now rewrite Z.mod_1_r.
  - cbn [digitsFixed]. rewrite hexValueFrom_snoc, IH.
    rewrite hexDigitValue_digitChar by (pose proof (Z.mod_pos_bound n 16); lia).
    rewrite Nat2Z.inj_succ, Z.pow_succ_r by lia.
    rewrite (Z.rem_mul_r n 16 (16 ^ Z.of_nat w)) by lia. lia.
Qed.

(** ** [bitsToHexPadded] for every length *)

Lemma padded_length (len : nat) :
  (((4 - len mod 4) mod 4 + len) = 4 * ((len + 3) / 4))%nat.
Proof.
  pose proof (Nat.div_mod_eq len 4) as E.
  pose proof (Nat.mod_upper_bound len 4 ltac:(lia)) as Hr.
  set (q := (len / 4)%nat) in *. set (r := (len mod 4)%nat) in *.
  assert (Hk : ((len + 3) / 4 = if (r =? 0)%nat then q else S q)%nat).
  { destruct r as [|[|[|[|r]]]]; try lia; simpl Nat.eqb; cbv iota;
      symmetry.
    - apply (Nat.div_unique _ 4 _ 3); lia.
    - apply (Nat.div_unique _ 4 _ 0); lia.
    - apply (Nat.div_unique _ 4 _ 1); lia.
    - apply (Nat.div_unique _ 4 _ 2); lia. }
  rewrite Hk.
  destruct r as [|[|[|[|r]]]]; try lia; simpl; lia.
Qed.

Lemma groupSizes_multiple (k n : nat) :
  (0 < n)%nat -> groupSizes (n * k) n = List.repeat n k.
Proof.
  intros Hn. unfold groupSizes.
  rewrite (Nat.mul_comm n k), Nat.div_mul, Nat.Div0.mod_mul by lia.
  simpl. apply app_nil_r.
Qed.

Lemma bitsToHexPadded_fold (bits : string) :
  let padded := JS.repeat "0" ((4 - String.length bits mod 4) mod 4) ++ bits in
  bitsToHexPadded bits
  = fold_left (fun hex nib => hex ++ nibbleHex nib)
      (chunksOf (groupSizes (String.length padded) 4) padded) "".
Proof.
  cbv zeta. unfold bitsToHexPadded, JS.length. cbv zeta.
  set (padded := JS.repeat "0" ((4 - String.length bits mod 4) mod 4) ++ bits).
  etransitivity;
    [apply (forLoop_slices (fun hex nib => hex ++ nibbleHex nib) padded 4);
     unfold JS.length; lia|].
  now rewrite Nat.sub_0_r, substring_all.
Qed.

Lemma bitsToHexPadded_digits (bits : string) :
  JS.allChars isBit bits = true ->
  bitsToHexPadded bits
  = digitsFixed 16 ((String.length bits + 3) / 4) (JS.digitsValueFrom 2 0 bits).
Proof.
  intros Hb. destruct (bits_value bits Hb) as [E Hr].
  rewrite bitsToHexPadded_fold. cbv zeta.
  set (pad := ((4 - String.length bits mod 4) mod 4)%nat).
  set (V := JS.digitsValueFrom 2 0 bits) in *.
  assert (Hp : JS.repeat "0" pad ++ bits
               = digitsFixed 2 (4 * ((String.length bits + 3) / 4)) V).
  { rewrite <- padded_length. fold pad.
    rewrite (digitsFixed_app 2 pad (String.length bits)) by lia.
    rewrite Z.div_small by lia. now rewrite digitsFixed_zero, <- E. }
  rewrite Hp, length_digitsFixed, groupSizes_multiple by lia.
  apply (fold_hex _ V "").
Qed.

(** X15.  [bitsToHexPadded] for a bit string of any length, padded on
    the left to whole nibbles: the result is the value of the bit
    string in ceil(length/4) hexadecimal digits, and reads back as that
    value.  The empty string gives the empty string. *)
Theorem bitsToHexPadded_value (bits : string) :
  JS.allChars isBit bits = true ->
  bitsToHexPadded bits
    = digitsFixed 16 ((String.length bits + 3) / 4) (JS.digitsValueFrom 2 0 bits)
  /\ String.length (bitsToHexPadded bits) = ((String.length bits + 3) / 4)%nat
  /\ JS.allChars isHexDigit (bitsToHexPadded bits) = true
  /\ JS.hexValueFrom 16 0 (bitsToHexPadded bits) = JS.digitsValueFrom 2 0 bits.
Proof.
  intros Hb. rewrite (bitsToHexPadded_digits bits Hb).
  split; [reflexivity|]. split; [apply length_digitsFixed|].
  split; [apply allChars_hex|].
  rewrite value_of_hex. apply Z.mod_small.
  destruct (bits_value bits Hb) as [_ [H0 H1]]. split; [assumption|].
  eapply Z.lt_le_trans; [exact H1|].
  change 16 with (2 ^ 4). rewrite <- Z.pow_mul_r by lia.
  apply Z.pow_le_mono_r; [lia|].
  pose proof (padded_length (String.length bits)) as Hp.
  set (k := ((String.length bits + 3) / 4)%nat) in *.
  set (pad := ((4 - String.length bits mod 4) mod 4)%nat) in *.
  lia.
Qed.

Lemma bitsToHexPadded_value_witness :
  bitsToHexPadded "10111001" = "b9"
  /\ JS.hexValueFrom 16 0 (bitsToHexPadded "10111001")
     = JS.digitsValueFrom 2 0 "10111001".
Proof.
  split.
  - exact (proj1 (bitsToHexPadded_value "10111001" eq_refl)).
  - exact (proj2 (proj2 (proj2 (bitsToHexPadded_value "10111001" eq_refl)))).
Defined.

End Loops.

(* ================================================================== *)
(** * The strings of a word and of the fields                          *)
(* ================================================================== *)

Section WordStrings.

Import Render Ieee754 Notions Words.

Local Open Scope Z_scope.









End WordStrings.

(** Arithmetic on quotients and remainders by constants, with the
    context out of the way. *)
Ltac divmod_lia :=
  repeat match goal with H : _ |- _ => clear H end;
  Z.div_mod_to_equations; lia.

Section FieldStrings.

Import Render Ieee754 Notions Words.

Local Open Scope Z_scope.

Lemma substring_app_skip (a x : string) :
  forall n, substring (String.length a) n (a ++ x) = substring 0 n x.
Proof. induction a as [|c a IH]; intros n; simpl; [reflexivity | apply IH]. Qed.

Lemma substring_app_head (a x : string) :
  substring 0 (String.length a) (a ++ x) = a.
Proof.
  rewrite substring_app_l by lia. apply substring_all.
Qed.

(** The three slices of a string made of three parts. *)
Lemma slices_of_parts (a b c : string) (la lb : nat) :
  String.length a = la -> String.length b = lb ->
  JS.slice (a ++ b ++ c) 0 la = a
  /\ JS.slice (a ++ b ++ c) la (la + lb) = b
  /\ JS.sliceFrom (a ++ b ++ c) (la + lb) = c.
Proof.
  intros <- <-. unfold JS.slice, JS.sliceFrom. split; [|split].
  - rewrite Nat.sub_0_r. apply substring_app_head.
  - replace (String.length a + String.length b - String.length a)%nat
      with (String.length b) by lia.
    rewrite substring_app_skip. apply substring_app_head.
  - rewrite <- append_assoc, <- length_append.
    rewrite substring_app_skip.
    rewrite length_append.
    replace (String.length (a ++ b) + String.length c - String.length (a ++ b))%nat
      with (String.length c) by lia.
    apply substring_all.
Qed.

Lemma digitsFixed_same (radix : Z) (w : nat) (n n' : Z) :
  0 < radix -> n mod radix ^ Z.of_nat w = n' mod radix ^ Z.of_nat w ->
  digitsFixed radix w n = digitsFixed radix w n'.
Proof.
  intros Hr E. rewrite <- (digitsFixed_mod radix w n), <- (digitsFixed_mod radix w n') by lia.
  now rewrite E.
Qed.

Lemma bitsToHexPadded_of_bits (w : nat) (n : Z) :
  bitsToHexPadded (digitsFixed 2 w n)
  = digitsFixed 16 ((w + 3) / 4) (n mod 2 ^ Z.of_nat w).
Proof.
  rewrite bitsToHexPadded_digits by apply allChars_bits.
  now rewrite length_digitsFixed, value_of_bits.
Qed.

Lemma field_strings64 (v : JS.number) :
  signBitsStr (float64Bits v) = digitsFixed 2 1 (signBit (float64Bits v))
  /\ exponentBitsStr (float64Bits v) = digitsFixed 2 11 (exponentBits (float64Bits v))
  /\ mantissaBitsStr (float64Bits v)
     = digitsFixed 2 20 (mantissaHigh (float64Bits v))
       ++ digitsFixed 2 32 (mantissaLow (float64Bits v))
  /\ payloadHexPadded (float64Bits v)
     = digitsFixed 16 5 (mantissaHigh (float64Bits v))
       ++ digitsFixed 16 8 (mantissaLow (float64Bits v)).
Proof.
  destruct (fields64 v) as (Es & Ee & Eh & El).
  set (p := JS.encode64 v) in *.
  assert (Hbits : bits (float64Bits v)
                  = digitsFixed 2 1 (p / 2 ^ 63)
                    ++ digitsFixed 2 11 (p / 2 ^ 52) ++ digitsFixed 2 52 p).
  { rewrite bits64_render. fold p.
    rewrite (digitsFixed_app 2 1 63), (digitsFixed_app 2 11 52) by lia.
    reflexivity. }
  change (signBitsStr (float64Bits v)) with (JS.slice (bits (float64Bits v)) 0 1).
  change (exponentBitsStr (float64Bits v)) with (JS.slice (bits (float64Bits v)) 1 12).
  change (payloadHexPadded (float64Bits v))
    with (JS.padStart (bitsToHexPadded (mantissaBitsStr (float64Bits v))) 13 "0").
  change (mantissaBitsStr (float64Bits v)) with (JS.sliceFrom (bits (float64Bits v)) 12).
  rewrite Hbits.
  destruct (slices_of_parts (digitsFixed 2 1 (p / 2 ^ 63)) (digitsFixed 2 11 (p / 2 ^ 52))
              (digitsFixed 2 52 p) 1 11
              (length_digitsFixed _ _ _) (length_digitsFixed _ _ _)) as (H1 & H2 & H3).
  change (1 + 11)%nat with 12%nat in H2, H3. rewrite H1, H2, H3. clear H1 H2 H3.
  assert (Hm : digitsFixed 2 52 p
               = digitsFixed 2 20 (mantissaHigh (float64Bits v))
                 ++ digitsFixed 2 32 (mantissaLow (float64Bits v))).
  { rewrite (digitsFixed_app 2 20 32) by lia. f_equal.
    - apply digitsFixed_same; [lia|]. rewrite Eh.
      change (2 ^ Z.of_nat 32) with 4294967296. change (2 ^ Z.of_nat 20) with 1048576.
      change (2 ^ 32) with 4294967296. change (2 ^ 20) with 1048576.
      divmod_lia.
    - apply digitsFixed_same; [lia|]. rewrite El.
      change (2 ^ Z.of_nat 32) with (2 ^ 32). now rewrite Z.mod_mod by lia. }
  split; [|split; [|split; [exact Hm|]]].
  - apply digitsFixed_same; [lia|]. rewrite Es.
    change (2 ^ Z.of_nat 1) with 2. change (2 ^ 63) with 9223372036854775808.
    change (2 ^ 32) with 4294967296. change (2 ^ 31) with 2147483648.
    divmod_lia.
  - apply digitsFixed_same; [lia|]. rewrite Ee.
    change (2 ^ Z.of_nat 11) with 2048. change (2 ^ 52) with 4503599627370496.
    change (2 ^ 32) with 4294967296. change (2 ^ 20) with 1048576.
    change (2 ^ 11) with 2048.
    divmod_lia.
  - rewrite bitsToHexPadded_of_bits.
    change ((52 + 3) / 4)%nat with 13%nat.
    rewrite padStart_full by apply length_digitsFixed.
    rewrite (digitsFixed_app 16 5 8) by lia. f_equal.
    + apply digitsFixed_same; [lia|]. rewrite Eh.
      change (2 ^ Z.of_nat 52) with 4503599627370496.
      change (16 ^ Z.of_nat 8) with 4294967296. change (16 ^ Z.of_nat 5) with 1048576.
      change (2 ^ 32) with 4294967296. change (2 ^ 20) with 1048576.
      divmod_lia.
    + apply digitsFixed_same; [lia|]. rewrite El.
      change (2 ^ Z.of_nat 52) with 4503599627370496.
      change (16 ^ Z.of_nat 8) with 4294967296.
      change (2 ^ 32) with 4294967296.
      divmod_lia.
Qed.

Lemma field_strings32 (v : JS.number) :
  signBitsStr32 (float32Bits v) = digitsFixed 2 1 (signBit32 (float32Bits v))
  /\ exponentBitsStr32 (float32Bits v)
     = digitsFixed 2 8 (exponentBits32 (float32Bits v))
  /\ mantissaBitsStr32 (float32Bits v)
     = digitsFixed 2 23 (mantissaBits32 (float32Bits v))
  /\ payloadHexPadded32 (float32Bits v)
     = digitsFixed 16 6 (mantissaBits32 (float32Bits v)).
Proof.
  destruct (fields32 v) as (Es & Ee & Em). cbv zeta in Es, Ee, Em.
  set (q := JS.encode32 (JS.toFloat32 v)) in *.
  assert (Hbits : bits32 (float32Bits v)
                  = digitsFixed 2 1 (q / 2 ^ 31)
                    ++ digitsFixed 2 8 (q / 2 ^ 23) ++ digitsFixed 2 23 q).
  { rewrite bits32_render. fold q.
    rewrite (digitsFixed_app 2 1 31), (digitsFixed_app 2 8 23) by lia.
    reflexivity. }
  change (signBitsStr32 (float32Bits v)) with (JS.slice (bits32 (float32Bits v)) 0 1).
  change (exponentBitsStr32 (float32Bits v)) with (JS.slice (bits32 (float32Bits v)) 1 9).
  change (payloadHexPadded32 (float32Bits v))
    with (JS.padStart (bitsToHexPadded (mantissaBitsStr32 (float32Bits v))) 6 "0").
  change (mantissaBitsStr32 (float32Bits v)) with (JS.sliceFrom (bits32 (float32Bits v)) 9).
  rewrite Hbits.
  destruct (slices_of_parts (digitsFixed 2 1 (q / 2 ^ 31)) (digitsFixed 2 8 (q / 2 ^ 23))
              (digitsFixed 2 23 q) 1 8
              (length_digitsFixed _ _ _) (length_digitsFixed _ _ _)) as (H1 & H2 & H3).
  change (1 + 8)%nat with 9%nat in H2, H3. rewrite H1, H2, H3. clear H1 H2 H3.
  assert (Hm : q mod 2 ^ 23 = mantissaBits32 (float32Bits v)).
  { rewrite Em. change (2 ^ 32) with 4294967296. change (2 ^ 23) with 8388608.
    divmod_lia. }
  split; [|split; [|split]].
  - apply digitsFixed_same; [lia|]. rewrite Es.
    change (2 ^ Z.of_nat 1) with 2.
    change (2 ^ 32) with 4294967296. change (2 ^ 31) with 2147483648.
    divmod_lia.
  - apply digitsFixed_same; [lia|]. rewrite Ee.
    change (2 ^ Z.of_nat 8) with 256. change (2 ^ 8) with 256.
    change (2 ^ 32) with 4294967296. change (2 ^ 23) with 8388608.
    divmod_lia.
  - apply digitsFixed_same; [lia|]. rewrite <- Hm.
    change (2 ^ Z.of_nat 23) with (2 ^ 23). now rewrite Z.mod_mod by lia.
  - rewrite bitsToHexPadded_of_bits.
    change ((23 + 3) / 4)%nat with 6%nat.
    rewrite padStart_full by apply length_digitsFixed.
    change (2 ^ Z.of_nat 23) with (2 ^ 23). now rewrite Hm.
Qed.

(** X17.  The string fields are renderings of the numeric fields, for
    every number and at both widths: the sign, exponent and mantissa
    bit strings are the sign bit, the exponent field and the mantissa
    field in 1, 11 (8) and 52 (23) binary digits, and the padded
    payload is the mantissa field in 13 (6) hexadecimal digits. *)
Theorem string_fields_render_numeric_fields (v : JS.number) :
  (signBitsStr (float64Bits v) = digitsFixed 2 1 (signBit (float64Bits v))
   /\ exponentBitsStr (float64Bits v) = digitsFixed 2 11 (exponentBits (float64Bits v))
   /\ mantissaBitsStr (float64Bits v)
      = digitsFixed 2 20 (mantissaHigh (float64Bits v))
        ++ digitsFixed 2 32 (mantissaLow (float64Bits v))
   /\ payloadHexPadded (float64Bits v)
      = digitsFixed 16 5 (mantissaHigh (float64Bits v))
        ++ digitsFixed 16 8 (mantissaLow (float64Bits v)))
  /\ (signBitsStr32 (float32Bits v) = digitsFixed 2 1 (signBit32 (float32Bits v))
      /\ exponentBitsStr32 (float32Bits v)
         = digitsFixed 2 8 (exponentBits32 (float32Bits v))
      /\ mantissaBitsStr32 (float32Bits v)
         = digitsFixed 2 23 (mantissaBits32 (float32Bits v))
      /\ payloadHexPadded32 (float32Bits v)
         = digitsFixed 16 6 (mantissaBits32 (float32Bits v))).
Proof. split; [apply field_strings64 | apply field_strings32]. Qed.

(** X18.  The groupings that remain: the bits string in bytes (eight
    groups of 8 for binary64, four for binary32) and the binary32
    exponent in two groups of 4; each grouping cuts its string into
    pieces of exactly these sizes, joined by single spaces. *)
Theorem byte_groupings (v : JS.number) :
  groupedAs (List.repeat 8%nat 8) (bits (float64Bits v)) (bitsGrouped8 (float64Bits v))
  /\ groupedAs (List.repeat 8%nat 4) (bits32 (float32Bits v))
               (bitsGrouped8_32 (float32Bits v))
  /\ groupedAs [4; 4]%nat (exponentBitsStr32 (float32Bits v))
               (exponentGrouped4_32 (float32Bits v)).
Proof.
  split; [|split].
  - apply groupedAs_intro; [apply bits64_shape|].
    change (bitsGrouped8 (float64Bits v)) with (groupEvery (bits (float64Bits v)) 8 " ").
    rewrite groupEvery_chunks by lia.
    now rewrite (proj1 (bits64_shape v)).
  - apply groupedAs_intro; [apply bits32_shape|].
    change (bitsGrouped8_32 (float32Bits v))
      with (groupEvery (bits32 (float32Bits v)) 8 " ").
    rewrite groupEvery_chunks by lia.
    now rewrite (proj1 (bits32_shape v)).
  - assert (Hl : String.length (exponentBitsStr32 (float32Bits v)) = 8%nat).
    { rewrite (proj1 (proj2 (field_strings32 v))). apply length_digitsFixed. }
    apply groupedAs_intro; [exact Hl|].
    change (exponentGrouped4_32 (float32Bits v))
      with (groupEvery (exponentBitsStr32 (float32Bits v)) 4 " ").
    rewrite groupEvery_chunks by lia.
    now rewrite Hl.
Qed.

End FieldStrings.

(* ================================================================== *)
(** * The guards and the escaping of the webview                       *)
(* ================================================================== *)

Section Guards.

Import Regex Parse Notions Words Webview.

Lemma test_allowedChar (ch : ascii) :
  test allowedChar (String ch "") = isAllowedChar ch.
Proof. unfold allowedChar. simpl. destruct (isAllowedChar ch); reflexivity. Qed.

Lemma allAllowed_chars (data : string) :
  allAllowed data = JS.allChars isAllowedChar data.
Proof.
  induction data as [|c s IH]; [reflexivity|].
  cbn [allAllowed JS.allChars]. rewrite test_allowedChar, IH.
  destruct (isAllowedChar c); reflexivity.
Qed.

Lemma pasteFilter_id (text : string) :
  JS.allChars isAllowedChar text = true -> pasteFilter text = text.
Proof.
  induction text as [|c s IH]; [reflexivity|].
  cbn [pasteFilter JS.allChars]. intros H.
  apply andb_true_iff in H as [Hc Hs].
  now rewrite test_allowedChar, Hc, IH.
Qed.

Lemma pasteFilter_allowed (text : string) :
  JS.allChars isAllowedChar (pasteFilter text) = true.
Proof.
  induction text as [|c s IH]; [reflexivity|].
  cbn [pasteFilter]. rewrite test_allowedChar.
  destruct (isAllowedChar c) eqn:Hc; [|exact IH].
  cbn [JS.allChars]. now rewrite Hc.
Qed.










(** X20.  What the paste guard inserts: the filtered text holds only
    allowed characters, so it passes the "beforeinput" test; filtering
    it again changes nothing; and the filter leaves a text unchanged
    exactly when every character of it is allowed. *)
Theorem paste_filter_keeps_allowed (text : string) :
  allAllowed (pasteFilter text) = true
  /\ pasteFilter (pasteFilter text) = pasteFilter text
  /\ (pasteFilter text = text <-> allAllowed text = true).
Proof.
  pose proof (pasteFilter_allowed text) as H.
  split; [now rewrite allAllowed_chars|].
  split; [now apply pasteFilter_id|].
  rewrite allAllowed_chars. split.
  - intros E. now rewrite <- E.
  - apply pasteFilter_id.
Qed.

End Guards.

Section Escaping.

Import Words Webview.

Lemma replaceAll_app (s1 s2 : string) (c : ascii) (rep : string) :
  replaceAll (s1 ++ s2) c rep = replaceAll s1 c rep ++ replaceAll s2 c rep.
Proof.
  induction s1 as [|a s1 IH]; [reflexivity|]. simpl.
  destruct (Ascii.eqb a c); rewrite IH; [now rewrite append_assoc | reflexivity].
Qed.

Lemma escapeHtml_app (s1 s2 : string) :
  escapeHtml (s1 ++ s2) = escapeHtml s1 ++ escapeHtml s2.
Proof. unfold escapeHtml. now rewrite !replaceAll_app. Qed.

Lemma escapeHtml_char (c : ascii) : escapeHtml (String c "") = escapeChar c.
Proof. each_char c; reflexivity. Qed.

Lemma escapeHtml_cons (c : ascii) (s : string) :
  escapeHtml (String c s) = escapeChar c ++ escapeHtml s.
Proof.
  change (String c s) with (String c "" ++ s).
  now rewrite escapeHtml_app, escapeHtml_char.
Qed.

Lemma escapeChar_markup_free (c : ascii) :
  JS.allChars isMarkupFree (escapeChar c) = true.
Proof. each_char c; reflexivity. Qed.

Lemma escapeHtml_markup_free (s : string) :
  JS.allChars isMarkupFree (escapeHtml s) = true.
Proof.
  induction s as [|c s IH]; [reflexivity|].
  now rewrite escapeHtml_cons, allChars_app, escapeChar_markup_free, IH.
Qed.

(** The first character written for [c], and what follows it. *)
Lemma escapeChar_cases (c : ascii) :
  (c = "&"%char /\ escapeChar c = "&amp;")
  \/ (c = "<"%char /\ escapeChar c = "&lt;")
  \/ (c = ">"%char /\ escapeChar c = "&gt;")
  \/ (c = doubleQuote /\ escapeChar c = "&quot;")
  \/ (c = "'"%char /\ escapeChar c = "&#039;")
  \/ (c <> "&"%char /\ escapeChar c = String c "").
Proof.
  unfold escapeChar.
  destruct (Ascii.eqb c "&") eqn:E1; [apply Ascii.eqb_eq in E1; auto|].
  destruct (Ascii.eqb c "<") eqn:E2; [apply Ascii.eqb_eq in E2; auto|].
  destruct (Ascii.eqb c ">") eqn:E3; [apply Ascii.eqb_eq in E3; auto 6|].
  destruct (Ascii.eqb c doubleQuote) eqn:E4; [apply Ascii.eqb_eq in E4; auto 7|].
  destruct (Ascii.eqb c "'") eqn:E5; [apply Ascii.eqb_eq in E5; auto 8|].
  apply Ascii.eqb_neq in E1. auto 9.
Qed.

Lemma escapeHtml_inj (s1 : string) :
  forall s2, escapeHtml s1 = escapeHtml s2 -> s1 = s2.
Proof.
  induction s1 as [|c1 s1 IH]; intros [|c2 s2] H.
  - reflexivity.
  - rewrite escapeHtml_cons in H. exfalso.
    destruct (escapeChar_cases c2) as [(_ & E) | [(_ & E) | [(_ & E) | [(_ & E)
      | [(_ & E) | (_ & E)]]]]]; rewrite E in H; discriminate H.
  - rewrite escapeHtml_cons in H. exfalso.
    destruct (escapeChar_cases c1) as [(_ & E) | [(_ & E) | [(_ & E) | [(_ & E)
      | [(_ & E) | (_ & E)]]]]]; rewrite E in H; discriminate H.
  - rewrite !escapeHtml_cons in H.
    destruct (escapeChar_cases c1) as [(-> & E1) | [(-> & E1) | [(-> & E1) | [(-> & E1)
      | [(-> & E1) | (N1 & E1)]]]]];
    destruct (escapeChar_cases c2) as [(-> & E2) | [(-> & E2) | [(-> & E2) | [(-> & E2)
      | [(-> & E2) | (N2 & E2)]]]]];
    try rewrite E1 in H; try rewrite E2 in H; simpl in H;
      try discriminate H;
      try (injection H as H; f_equal; now apply IH);
      try (injection H as Hc H; congruence).
    injection H as -> H. f_equal. now apply IH.
Qed.

(** X21.  [escapeHtml] works character by character: each of the five
    characters is replaced by its entity and every other character is
    kept, although the five replacements run one after the other.  The
    result holds none of the characters that open or close a tag or an
    attribute value, and two different texts never escape to the
    same text. *)
Theorem escapeHtml_by_character :
  escapeHtml "" = ""
  /\ (forall c s, escapeHtml (String c s) = escapeChar c ++ escapeHtml s)
  /\ (forall s, JS.allChars isMarkupFree (escapeHtml s) = true)
  /\ (forall s1 s2, escapeHtml s1 = escapeHtml s2 -> s1 = s2).
Proof.
  split; [reflexivity|]. split; [exact escapeHtml_cons|].
  split; [exact escapeHtml_markup_free | exact escapeHtml_inj].
Qed.

End Escaping.

(* ================================================================== *)
(** * Negation in the bits                                             *)
(* ================================================================== *)

Section NegatedBits.

Import Render Ieee754.

Local Open Scope Z_scope.

Lemma negated_fields64 (v : JS.number) :
  valid_binary 53 1024 v = true -> JS.isNaN v = false ->
  signBit (float64Bits (SFopp v)) = 1 - signBit (float64Bits v)
  /\ exponentBits (float64Bits (SFopp v)) = exponentBits (float64Bits v)
  /\ mantissaHigh (float64Bits (SFopp v)) = mantissaHigh (float64Bits v)
  /\ mantissaLow (float64Bits (SFopp v)) = mantissaLow (float64Bits v)
  /\ kind (float64Bits (SFopp v)) = kind (float64Bits v)
  /\ exponentUnbiased (float64Bits (SFopp v)) = exponentUnbiased (float64Bits v).
Proof.
  intros Hv Hn.
  destruct (encode64_parts v Hv) as (S & E & M & Hp & HS & HE & HM & Hcase).
  assert (Hp' : JS.encode64 (SFopp v) = (1 - S) * 2 ^ 63 + E * 2 ^ 52 + M).
  { destruct v as [s | s | | s m e]; try discriminate Hn;
      destruct Hcase as (-> & Hrest); cbn [SFopp];
      unfold JS.encode64, JS.encode, JS.joinBits in *;
      change (2 ^ (52 + 11)) with (2 ^ 63) in *;
      try destruct (2 ^ 52 <=? Zpos m); destruct s; cbn [negb]; lia. }
  assert (HS' : 0 <= 1 - S <= 1) by lia.
  destruct (fields64_of_parts v S E M Hp HS HE HM) as (Hs & He & Hm & Hk).
  destruct (fields64_of_parts (SFopp v) (1 - S) E M Hp' HS' HE HM)
    as (Hs' & He' & Hm' & Hk').
  assert (Hkind : kind (float64Bits (SFopp v)) = kind (float64Bits v))
    by now rewrite Hk, Hk'.
  assert (Hlo : mantissaLow (float64Bits (SFopp v)) = mantissaLow (float64Bits v)).
  { destruct (fields64 v) as (_ & _ & _ & ->).
    destruct (fields64 (SFopp v)) as (_ & _ & _ & ->).
    rewrite Hp, Hp'. change (2 ^ 63) with 9223372036854775808.
    change (2 ^ 52) with 4503599627370496. change (2 ^ 32) with 4294967296.
    divmod_lia. }
  split; [now rewrite Hs, Hs'|]. split; [now rewrite He, He'|].
  split; [|split; [exact Hlo|split; [exact Hkind|]]].
  - rewrite Hlo in Hm'. change (2 ^ 32) with 4294967296 in *. lia.
  - now rewrite !unbiased_of_kind64, Hkind, He, He'.
Qed.

(** Narrowing commutes with negation. *)
Lemma toFloat32_opp (v : JS.number) :
  JS.toFloat32 (SFopp v) = SFopp (JS.toFloat32 v).
Proof.
  destruct v as [s | s | | s m e]; try reflexivity.
  cbn [SFopp JS.toFloat32]. unfold binary_round.
  destruct (shl_align m e (fexp 24 128 (Zpos (digits2_pos m) + e))) as [mz ez].
  apply binary_round_aux_opp.
Qed.

Lemma toFloat32_not_nan (v : JS.number) :
  JS.isNaN v = false -> JS.isNaN (JS.toFloat32 v) = false.
Proof.
  destruct v as [s | s | | s m e]; try (intros H; exact H).
  intros _. cbn [JS.toFloat32]. unfold binary_round.
  destruct (shl_align m e (fexp 24 128 (Zpos (digits2_pos m) + e))) as [mz ez].
  apply binary_round_aux_not_nan. lia.
Qed.

Lemma negated_fields32 (v : JS.number) :
  JS.isNaN v = false ->
  signBit32 (float32Bits (SFopp v)) = 1 - signBit32 (float32Bits v)
  /\ exponentBits32 (float32Bits (SFopp v)) = exponentBits32 (float32Bits v)
  /\ mantissaBits32 (float32Bits (SFopp v)) = mantissaBits32 (float32Bits v)
  /\ kind32 (float32Bits (SFopp v)) = kind32 (float32Bits v)
  /\ exponentUnbiased32 (float32Bits (SFopp v)) = exponentUnbiased32 (float32Bits v).
Proof.
  intros Hn. apply toFloat32_not_nan in Hn.
  destruct (encode32_parts _ (toFloat32_valid v)) as (S & E & M & Hp & HS & HE & HM & Hcase).
  assert (Hp' : JS.encode32 (JS.toFloat32 (SFopp v)) = (1 - S) * 2 ^ 31 + E * 2 ^ 23 + M).
  { rewrite toFloat32_opp.
    destruct (JS.toFloat32 v) as [s | s | | s m e]; try discriminate Hn;
      destruct Hcase as (-> & Hrest); cbn [SFopp];
      unfold JS.encode32, JS.encode, JS.joinBits in *;
      change (2 ^ (23 + 8)) with (2 ^ 31) in *;
      try destruct (2 ^ 23 <=? Zpos m); destruct s; cbn [negb]; lia. }
  assert (HS' : 0 <= 1 - S <= 1) by lia.
  destruct (fields32_of_parts v S E M Hp HS HE HM) as (Hs & He & Hm & Hk).
  destruct (fields32_of_parts (SFopp v) (1 - S) E M Hp' HS' HE HM)
    as (Hs' & He' & Hm' & Hk').
  assert (Hkind : kind32 (float32Bits (SFopp v)) = kind32 (float32Bits v))
    by now rewrite Hk, Hk'.
  split; [now rewrite Hs, Hs'|]. split; [now rewrite He, He'|].
  split; [now rewrite Hm, Hm'|]. split; [exact Hkind|].
  now rewrite !unbiased_of_kind32, Hkind, He, He'.
Qed.

(** X22.  Negating a value that is not NaN changes the sign bit and
    nothing else among the numeric fields, the kind and the unbiased
    exponent: of [float64Bits] for a well-formed value, and of
    [float32Bits] as well. *)
Theorem negation_flips_sign_bit (v : JS.number) :
  valid_binary 53 1024 v = true -> JS.isNaN v = false ->
  (signBit (float64Bits (SFopp v)) = 1 - signBit (float64Bits v)
   /\ exponentBits (float64Bits (SFopp v)) = exponentBits (float64Bits v)
   /\ mantissaHigh (float64Bits (SFopp v)) = mantissaHigh (float64Bits v)
   /\ mantissaLow (float64Bits (SFopp v)) = mantissaLow (float64Bits v)
   /\ kind (float64Bits (SFopp v)) = kind (float64Bits v)
   /\ exponentUnbiased (float64Bits (SFopp v)) = exponentUnbiased (float64Bits v))
  /\ (signBit32 (float32Bits (SFopp v)) = 1 - signBit32 (float32Bits v)
      /\ exponentBits32 (float32Bits (SFopp v)) = exponentBits32 (float32Bits v)
      /\ mantissaBits32 (float32Bits (SFopp v)) = mantissaBits32 (float32Bits v)
      /\ kind32 (float32Bits (SFopp v)) = kind32 (float32Bits v)
      /\ exponentUnbiased32 (float32Bits (SFopp v))
         = exponentUnbiased32 (float32Bits v)).
Proof.
  intros Hv Hn. split; [now apply negated_fields64 | now apply negated_fields32].
Qed.

Lemma negation_flips_sign_bit_witness :
  signBit (float64Bits (SFopp (S754_finite false 5629499534213120 (-52))))
  = 1 - signBit (float64Bits (S754_finite false 5629499534213120 (-52)))
  /\ signBit32 (float32Bits (SFopp (S754_finite false 5629499534213120 (-52))))
     = 1 - signBit32 (float32Bits (S754_finite false 5629499534213120 (-52))).
Proof.
  split.
  - exact (proj1 (proj1 (negation_flips_sign_bit
                           (S754_finite false 5629499534213120 (-52)) eq_refl eq_refl))).
  - exact (proj1 (proj2 (negation_flips_sign_bit
                           (S754_finite false 5629499534213120 (-52)) eq_refl eq_refl))).
Defined.

End NegatedBits.

(* ================================================================== *)
(** * The special tokens under every options value                     *)
(* ================================================================== *)

Section SpecialsUnderOptions.

Import Regex Parse Notions Words.

Lemma result_text (input : string) (opts : ParseOptions) (r nt : string) :
  ParseFloatingInput input opts = Incomplete r nt
  \/ ParseFloatingInput input opts = Invalid r nt ->
  nt = JS.trim input.
Proof.
  pfi_cases input opts; intros [H | H]; try discriminate H;
    try (injection H as _ <-; reflexivity).
  - injection H as _ <-. destruct text; [reflexivity | discriminate Hlen].
  - subst special. now apply parseSpecial_Incomplete in Hsp as (-> & _).
  - subst special. now apply parseSpecial_not_Invalid in Hsp.
Qed.

(** X23.  Re-feeding the normalized text of an Incomplete or Invalid
    result gives the same result again, for every options value. *)
Theorem refeeding_rejected_text (input : string) (opts : ParseOptions) :
  match ParseFloatingInput input opts with
  | Valid _ _ => True
  | Incomplete r nt => ParseFloatingInput nt opts = Incomplete r nt
  | Invalid r nt => ParseFloatingInput nt opts = Invalid r nt
  end.
Proof.
  destruct (ParseFloatingInput input opts) as [v t | r nt | r nt] eqn:E; [exact I | |].
  - pose proof (result_text input opts r nt (or_introl E)) as ->.
    rewrite ParseFloatingInput_trimmed by apply trim_idem. exact E.
  - pose proof (result_text input opts r nt (or_intror E)) as ->.
    rewrite ParseFloatingInput_trimmed by apply trim_idem. exact E.
Qed.

(** ** A body of letters is no number *)

Lemma alpha_not_digitOrDot (c : ascii) : JS.isAlpha c = true -> isDigitOrDot c = false.
Proof. each_char c; vm_compute; congruence. Qed.

Lemma mantissa_head (m : string) : Match mantissa m -> headIs isDigitOrDot m = true.
Proof.
  intros H. apply (parseUnsignedDecimal_ok m).
  apply unsigned_shape. exists m, "". rewrite append_nil_r.
  repeat split; [assumption | now left].
Qed.

Lemma headIs_app (p : ascii -> bool) (a b : string) :
  headIs p a = true -> headIs p (a ++ b) = true.
Proof. destruct a; [discriminate | auto]. Qed.

(** A sign and letters are not a sign and the start of a number. *)
Lemma letters_not_digits (sg body sg' b : string) :
  sg = "" \/ sg = "+" \/ sg = "-" -> sg' = "" \/ sg' = "+" \/ sg' = "-" ->
  headIs JS.isAlpha body = true ->
  b = "" \/ headIs isDigitOrDot b = true ->
  sg ++ body <> sg' ++ b.
Proof.
  intros Hsg Hsg' Ha Hb E.
  destruct body as [|c body]; [discriminate Ha|]. simpl in Ha.
  pose proof (alpha_not_digitOrDot c Ha) as Hnd.
  pose proof (alpha_not_sign c Ha) as Hns.
  destruct Hb as [-> | Hb].
  - destruct Hsg as [-> | [-> | ->]], Hsg' as [-> | [-> | ->]];
      simpl in E; try discriminate E; injection E as -> _; discriminate Hns.
  - destruct b as [|d b]; [discriminate Hb|]. simpl in Hb.
    assert (Hds : JS.isSignChar d = false) by now apply digitOrDot_not_sign.
    destruct Hsg as [-> | [-> | ->]], Hsg' as [-> | [-> | ->]];
      simpl in E; try discriminate E; injection E as E1;
      try (subst; congruence); try (subst c; discriminate Hns);
      try (subst d; discriminate Hds).
Qed.

Lemma letters_not_numeric (sg body : string) (o : RequiredOptions) :
  sg = "" \/ sg = "+" \/ sg = "-" -> headIs JS.isAlpha body = true ->
  isIncompleteNumberToken (sg ++ body) o = None
  /\ test reDecimal (sg ++ body) = false.
Proof.
  intros Hsg Ha. split.
  - destruct (isIncompleteNumberToken (sg ++ body) o) as [r|] eqn:E; [|reflexivity].
    exfalso.
    destruct (incomplete_typable _ _ _ E) as (sg' & b & Et & Hsg' & Hb).
    apply (letters_not_digits sg body sg' b Hsg Hsg' Ha); [|exact Et].
    destruct Hb as [-> | [-> | [H | H]]]; [now left | now right | |].
    + right. apply Match_Cat_inv in H as (m & e & -> & Hm & _).
      apply headIs_app. now apply mantissa_head.
    + right. apply Match_Cat_inv in H as (m & e & -> & Hm & _).
      apply headIs_app. now apply mantissa_head.
  - destruct (test reDecimal (sg ++ body)) eqn:E; [|reflexivity]. exfalso.
    destruct (decimal_parts _ E) as (sg' & m & Et & Hsg' & _ & Hh).
    apply (letters_not_digits sg body sg' m Hsg Hsg' Ha); [now right | exact Et].
Qed.

Lemma headIs_alpha (body : string) :
  body <> "" -> JS.allChars JS.isAlpha body = true -> headIs JS.isAlpha body = true.
Proof.
  destruct body as [|c body]; [contradiction|]. simpl. intros _ H.
  now apply andb_true_iff in H as [? _].
Qed.

Lemma plus_flag_of_sign (o : RequiredOptions) (sg body : string) :
  sg = "" \/ sg = "+" \/ sg = "-" -> headIs JS.isAlpha body = true ->
  negb (allowLeadingPlus o) && (sg =? "+")%string = false ->
  negb (allowLeadingPlus o) && JS.startsWith (sg ++ body) "+" = false.
Proof.
  intros Hsg Ha H.
  destruct body as [|c body]; [discriminate Ha|]. simpl in Ha.
  unfold JS.startsWith.
  destruct Hsg as [-> | [-> | ->]]; simpl append; rewrite prefix_plus.
  - rewrite andb_false_iff. right.
    revert Ha. each_char c; vm_compute; congruence.
  - exact H.
  - apply andb_false_r.
Qed.

(** What [ParseFloatingInput] answers for a sign and letters, given
    what [parseSpecial] answers for them. *)
Lemma letters_outcome (sg body : string) (opts : ParseOptions) :
  sg = "" \/ sg = "+" \/ sg = "-" ->
  body <> "" -> JS.allChars JS.isAlpha body = true ->
  negb (allowLeadingPlus (spread defaultOptions opts)) && (sg =? "+")%string = false ->
  ParseFloatingInput (sg ++ body) opts
  = match parseSpecial (sg ++ body) (spread defaultOptions opts) with
    | Some special => special
    | None => Invalid "invalid numeric syntax" (sg ++ body)
    end.
Proof.
  intros Hsg Hn Ha Hp.
  pose proof (headIs_alpha body Hn Ha) as Hh.
  assert (Htrim : JS.trim (sg ++ body) = sg ++ body).
  { apply trim_id. rewrite allChars_app. apply andb_true_iff. split.
    - destruct Hsg as [-> | [-> | ->]]; reflexivity.
    - revert Ha. apply allChars_weaken, alpha_not_space. }
  unfold ParseFloatingInput. cbv zeta. rewrite Htrim.
  set (o := spread defaultOptions opts) in *.
  rewrite (plus_flag_of_sign o sg body Hsg Hh Hp).
  assert (Hlen : (JS.length (sg ++ body) =? 0)%nat = false).
  { destruct sg, body; try contradiction; reflexivity. }
  rewrite Hlen.
  destruct (parseSpecial (sg ++ body) o); [reflexivity|].
  destruct (letters_not_numeric sg body o Hsg Hh) as [-> Hd].
  unfold isValidDecimalNumberSyntax.
  rewrite (plus_flag_of_sign o sg body Hsg Hh Hp), Hd. reflexivity.
Qed.

(** X24.  The special tokens under every options value.  After an
    optional sign (a plus only where it is allowed), the letters of
    NaN, of Inf or of Infinity, in any casing when specials are
    case-insensitive and in exactly this casing otherwise, give Valid
    with the canonical text when the matching option allows the token,
    and Invalid when it does not. *)
Theorem special_tokens_under_options (sg body : string) (opts : ParseOptions) :
  sg = "" \/ sg = "+" \/ sg = "-" ->
  negb (allowLeadingPlus (spread defaultOptions opts)) && (sg =? "+")%string = false ->
  ((if caseInsensitiveSpecials (spread defaultOptions opts)
    then JS.toLowerCase body = "nan" else body = "NaN") ->
   ParseFloatingInput (sg ++ body) opts
   = if allowNaN (spread defaultOptions opts)
     then Valid JS.NaN (sg ++ "NaN")
     else Invalid "invalid numeric syntax" (sg ++ body))
  /\ ((if caseInsensitiveSpecials (spread defaultOptions opts)
       then JS.toLowerCase body = "inf" \/ JS.toLowerCase body = "infinity"
       else body = "Inf" \/ body = "Infinity") ->
      ParseFloatingInput (sg ++ body) opts
      = if allowInfinitySynonyms (spread defaultOptions opts)
        then Valid (if (sg =? "-")%string then JS.negInfinity else JS.Infinity)
                   (sg ++ "Infinity")
        else Invalid "invalid numeric syntax" (sg ++ body)).
Proof.
  intros Hsg Hp. set (o := spread defaultOptions opts) in *.
  assert (Hgo : forall L,
             JS.toLowerCase body = L -> L <> "" ->
             JS.allChars (JS.inRange 97 122) L = true ->
             body <> "" /\ JS.allChars JS.isAlpha body = true).
  { intros L E HL Hall. split; [intros ->; now rewrite <- E in HL|].
    apply lowerCase_alpha. now rewrite E. }
  split.
  - intros Hb.
    assert (E : JS.toLowerCase body = "nan")
      by (destruct (caseInsensitiveSpecials o); [exact Hb | now subst body]).
    destruct (Hgo "nan" E) as [Hn Ha]; [discriminate | reflexivity |].
    rewrite (letters_outcome sg body opts Hsg Hn Ha Hp). fold o.
    unfold parseSpecial. rewrite (matchSignBody_alpha _ _ Hsg Ha). cbv zeta.
    rewrite (alpha_only _ Hn Ha).
    destruct (caseInsensitiveSpecials o); [rewrite E | subst body];
      destruct (allowNaN o), (allowInfinitySynonyms o); reflexivity.
  - intros Hb.
    assert (E : JS.toLowerCase body = "inf" \/ JS.toLowerCase body = "infinity").
    { destruct (caseInsensitiveSpecials o); [exact Hb|].
      destruct Hb as [-> | ->]; [now left | now right]. }
    assert (Hna : body <> "" /\ JS.allChars JS.isAlpha body = true).
    { destruct E as [E | E]; apply (Hgo _ E); try discriminate; reflexivity. }
    destruct Hna as [Hn Ha].
    rewrite (letters_outcome sg body opts Hsg Hn Ha Hp). fold o.
    unfold parseSpecial. rewrite (matchSignBody_alpha _ _ Hsg Ha). cbv zeta.
    rewrite (alpha_only _ Hn Ha), strOr_empty.
    destruct (caseInsensitiveSpecials o).
    + destruct E as [E | E]; rewrite E;
        destruct (allowNaN o), (allowInfinitySynonyms o); reflexivity.
    + destruct Hb as [-> | ->];
        destruct (allowNaN o), (allowInfinitySynonyms o); reflexivity.
Qed.

Lemma special_tokens_under_options_witness :
  ParseFloatingInput ("-" ++ "Inf") (mkParseOptions None None None (Some false))
    = Valid JS.negInfinity "-Infinity"
  /\ ParseFloatingInput ("" ++ "nAn") (mkParseOptions None None (Some false) None)
    = Invalid "invalid numeric syntax" "nAn".
Proof.
  split.
  - exact (proj2 (special_tokens_under_options "-" "Inf"
                    (mkParseOptions None None None (Some false))
                    (or_intror (or_intror eq_refl)) eq_refl)
                 (or_introl eq_refl)).
  - exact (proj1 (special_tokens_under_options "" "nAn"
                    (mkParseOptions None None (Some false) None)
                    (or_introl eq_refl) eq_refl)
                 eq_refl).
Defined.

End SpecialsUnderOptions.
